(** * r-proc: the concurrent processing engine

    A shallow embedding of [Processor] (discovery, admission-controlled
    worker dispatch, per-file decode / match / write and cooperative
    shutdown) and of the library calls it is built from, together with
    the properties of the engine that the specification states. *)

From Stdlib Require Import Ascii String NArith Lia.
From stdpp Require Import base option list gmap strings.

Local Open Scope string_scope.
Set Warnings "-register-all".

(** ** Library code outside the repository

    The engine calls into the Go standard library and three third-party
    packages.  What these calls do on the inputs the engine is specified
    for is written out below; the parts that depend on tables or parsers
    of those libraries are collected here as an interface. *)

(** Syntax of a compiled pattern: the regular core of the RE2 syntax,
    with the two line anchors at the ends of the pattern. *)
Inductive re : Type :=
| ReNone
| ReEps
| ReChar (c : ascii)
| ReAny
| ReCat (r1 r2 : re)
| ReAlt (r1 r2 : re)
| ReStar (r : re).

Record Regexp : Type := mkRegexp {
  anchorBegin : bool;   (* pattern starts with ^ *)
  body : re;
  anchorEnd : bool      (* pattern ends with $ *)
}.

Class GoLibrary : Type := {
  (** [strings.Map(unicode.ToLower, s)], taken by [strings.ToLower] when
      [s] has a byte outside ASCII *)
  unicode_ToLower : string → string;
  (** the [hasUnicode] tail of [strings.EqualFold], entered at the first
      position where either string has a byte outside ASCII *)
  unicode_EqualFold : string → string → bool;
  (** [filepath.Join] of two elements *)
  filepath_Join : string → string → string;
  (** [regexp.Compile]; [None] is a syntax error *)
  regexp_Compile : string → option Regexp;
  (** jsoniter's decoding of [\uXXXX] inside a string, given the input
      after [\u]: the decoded bytes and the remaining input *)
  json_readU4 : string → option (string * string);
  (** jsoniter's [skipNumber], given the input at the first byte of the
      number: the input that is left after it, [None] for a number it
      rejects *)
  json_skipNumber : string → option string;
  (** an iterator only moves forward *)
  json_readU4_forward : ∀ s bytes rest,
    json_readU4 s = Some (bytes, rest) → (String.length rest ≤ String.length s)%nat;
  json_skipNumber_forward : ∀ s rest,
    json_skipNumber s = Some rest → (String.length rest < String.length s)%nat
}.

(** ** package strings *)

Definition byte_of (c : ascii) : N := N_of_ascii c.

(** [c < utf8.RuneSelf] *)
Definition isASCIIbyte (c : ascii) : bool := (byte_of c <? 128)%N.

Fixpoint isASCII (s : string) : bool :=
  match s with
  | EmptyString => true
  | String c s' => isASCIIbyte c && isASCII s'
  end.

Definition isUpperASCII (c : ascii) : bool :=
  (65 <=? byte_of c)%N && (byte_of c <=? 90)%N.

(** [c += 'a' - 'A'] for ['A' <= c <= 'Z'] *)
Definition lowerASCII (c : ascii) : ascii :=
  if isUpperASCII c then ascii_of_N (byte_of c + 32) else c.

Fixpoint mapASCII (f : ascii → ascii) (s : string) : string :=
  match s with
  | EmptyString => EmptyString
  | String c s' => String (f c) (mapASCII f s')
  end.

Section Strings.
Context `{GoLibrary}.

(** [strings.ToLower]: the ASCII path maps every upper-case letter,
    any other input goes through the Unicode tables. *)
Definition strings_ToLower (s : string) : string :=
  if isASCII s then mapASCII lowerASCII s else unicode_ToLower s.

(** One iteration of the ASCII loop of [strings.EqualFold] on two
    ASCII bytes: equal, or an upper-case letter and its lower case. *)
Definition foldEqASCII (sr tr : ascii) : bool :=
  if (byte_of tr =? byte_of sr)%N then true
  else
    let lo := N.min (byte_of sr) (byte_of tr) in
    let hi := N.max (byte_of sr) (byte_of tr) in
    (65 <=? lo)%N && (lo <=? 90)%N && (hi =? lo + 32)%N.

(** [strings.EqualFold]: the loop runs while both strings have a byte
    left; a byte outside ASCII hands the two suffixes over to the
    Unicode comparison; at the end both must be exhausted. *)
Fixpoint strings_EqualFold (s t : string) : bool :=
  match s, t with
  | String sr s', String tr t' =>
      if negb (isASCIIbyte sr && isASCIIbyte tr) then unicode_EqualFold s t
      else if foldEqASCII sr tr then strings_EqualFold s' t'
      else false
  | EmptyString, EmptyString => true
  | _, _ => false
  end.
End Strings.

(** [strings.HasPrefix] *)
Fixpoint strings_HasPrefix (s prefix : string) : bool :=
  match prefix, s with
  | EmptyString, _ => true
  | String p prefix', String c s' =>
      if Ascii.eqb c p then strings_HasPrefix s' prefix' else false
  | String _ _, EmptyString => false
  end.

(** [strings.Contains(s, substr)], that is [strings.Index(s, substr) >= 0] *)
Fixpoint strings_Contains (s substr : string) : bool :=
  strings_HasPrefix s substr ||
  match s with
  | EmptyString => false
  | String _ s' => strings_Contains s' substr
  end.

(** [strings.HasSuffix] and [strings.TrimSuffix] *)
Fixpoint strings_HasSuffix (s suffix : string) : bool :=
  String.eqb s suffix ||
  match s with
  | EmptyString => false
  | String _ s' => strings_HasSuffix s' suffix
  end.

Fixpoint strings_TrimSuffix (s suffix : string) : string :=
  if String.eqb s suffix then EmptyString
  else match s with
       | EmptyString => EmptyString
       | String c s' =>
           if strings_HasSuffix s' suffix
           then String c (strings_TrimSuffix s' suffix)
           else s
       end.

(** ** package regexp *)

Fixpoint nullable (r : re) : bool :=
  match r with
  | ReNone => false
  | ReEps => true
  | ReChar _ => false
  | ReAny => false
  | ReCat r1 r2 => nullable r1 && nullable r2
  | ReAlt r1 r2 => nullable r1 || nullable r2
  | ReStar _ => true
  end.

(** The pattern that is left after the automaton has read [c]. *)
Fixpoint deriv (c : ascii) (r : re) : re :=
  match r with
  | ReNone => ReNone
  | ReEps => ReNone
  | ReChar d => if Ascii.eqb c d then ReEps else ReNone
  | ReAny => ReEps
  | ReCat r1 r2 =>
      if nullable r1
      then ReAlt (ReCat (deriv c r1) r2) (deriv c r2)
      else ReCat (deriv c r1) r2
  | ReAlt r1 r2 => ReAlt (deriv c r1) (deriv c r2)
  | ReStar r1 => ReCat (deriv c r1) (ReStar r1)
  end.

(** A match that starts at the first byte of [s]; with [toEnd] it has to
    stop at the last one. *)
Fixpoint matchHere (r : re) (toEnd : bool) (s : string) : bool :=
  match s with
  | EmptyString => nullable r
  | String c s' => (negb toEnd && nullable r) || matchHere (deriv c r) toEnd s'
  end.

(** Try every start position, leftmost first. *)
Fixpoint matchSearch (r : re) (toEnd : bool) (s : string) : bool :=
  matchHere r toEnd s ||
  match s with
  | EmptyString => false
  | String _ s' => matchSearch r toEnd s'
  end.

(** [Regexp.MatchString]: whether [s] contains any match of the pattern. *)
Definition MatchString (rx : Regexp) (s : string) : bool :=
  if anchorBegin rx then matchHere (body rx) (anchorEnd rx) s
  else matchSearch (body rx) (anchorEnd rx) s.

(** ** package path/filepath (Unix separators) *)

Definition isPathSeparator (c : ascii) : bool := Ascii.eqb c "/".

(** [Ext]: scanning from the right, the suffix at the first dot met
    before a separator.  [None] while neither has been met. *)
Fixpoint ext_scan (path : string) : option string :=
  match path with
  | EmptyString => None
  | String c path' =>
      match ext_scan path' with
      | Some e => Some e
      | None =>
          if Ascii.eqb c "." then Some path
          else if isPathSeparator c then Some EmptyString
          else None
      end
  end.

Definition filepath_Ext (path : string) : string :=
  default EmptyString (ext_scan path).

Fixpoint hasSeparator (path : string) : bool :=
  match path with
  | EmptyString => false
  | String c path' => isPathSeparator c || hasSeparator path'
  end.

Fixpoint stripTrailingSeparators (path : string) : string :=
  match path with
  | EmptyString => EmptyString
  | String c path' =>
      match stripTrailingSeparators path' with
      | EmptyString => if isPathSeparator c then EmptyString else String c EmptyString
      | p => String c p
      end
  end.

Fixpoint lastElement (path : string) : string :=
  match path with
  | EmptyString => EmptyString
  | String c path' =>
      if hasSeparator path' then lastElement path'
      else if isPathSeparator c then path' else path
  end.

(** [Base]: the last element of the path, trailing separators removed. *)
Definition filepath_Base (path : string) : string :=
  match path with
  | EmptyString => "."
  | _ => match lastElement (stripTrailingSeparators path) with
         | EmptyString => "/"
         | p => p
         end
  end.

(** ** package bufio: a [Scanner] with the [ScanLines] split function *)

(** [dropCR] *)
Fixpoint dropCR (data : string) : string :=
  match data with
  | EmptyString => EmptyString
  | String c EmptyString => if Ascii.eqb c "013" then EmptyString else data
  | String c data' => String c (dropCR data')
  end.

(** [bytes.IndexByte(data, '\n')], with the bytes before and after it. *)
Fixpoint cutNewline (data : string) : option (string * string) :=
  match data with
  | EmptyString => None
  | String c data' =>
      if Ascii.eqb c "010" then Some (EmptyString, data')
      else match cutNewline data' with
           | Some (l, r) => Some (String c l, r)
           | None => None
           end
  end.

Inductive scanResult : Type :=
| ScanToken (token rest : string)   (* [Scan] returned true *)
| ScanEOF                           (* false, [Err() == nil] *)
| ScanTooLong.                      (* false, [Err() == ErrTooLong] *)

(** [Scan] on the bytes that are left of the stream.  The buffer grows up
    to [maxTokenSize] bytes; a newline has to show up inside it, or the
    stream has to end before the buffer is full. *)
Definition bufio_Scan (maxTokenSize : N) (data : string) : scanResult :=
  match data with
  | EmptyString => ScanEOF
  | _ =>
      match cutNewline data with
      | Some (l, rest) =>
          if (N.of_nat (String.length l) <? maxTokenSize)%N
          then ScanToken (dropCR l) rest
          else ScanTooLong
      | None =>
          if (N.of_nat (String.length data) <? maxTokenSize)%N
          then ScanToken (dropCR data) EmptyString
          else ScanTooLong
      end
  end.

(** ** package jsoniter (json-iterator/go 1.1.12): [Get(data, key).ToString()]

    [Get] walks the top-level object lazily: it reads member names until
    one equals the key, captures the bytes of that member's value and
    stops; nothing after the value is looked at.  Any error of the
    iterator makes the result an invalid [Any], whose [ToString] is
    empty. *)

Definition dquote : ascii := "034".

Definition isJsonSpace (c : ascii) : bool :=
  Ascii.eqb c " " || Ascii.eqb c "010" || Ascii.eqb c "009" || Ascii.eqb c "013".

(** [nextToken]: the first byte that is not white space, and the input
    behind it; [None] at the end of the input. *)
Fixpoint nextToken (s : string) : option (ascii * string) :=
  match s with
  | EmptyString => None
  | String c s' => if isJsonSpace c then nextToken s' else Some (c, s')
  end.

(** [skipThreeBytes] / [skipFourBytes]: the literal has to follow. *)
Fixpoint expectBytes (lit s : string) : option string :=
  match lit, s with
  | EmptyString, _ => Some s
  | String l lit', String c s' =>
      if Ascii.eqb c l then expectBytes lit' s' else None
  | String _ _, EmptyString => None
  end.

Inductive fastString : Type :=
| FastOk (str rest : string)   (* closing quote found, no escape before it *)
| FastSlow                     (* an escape, or the input ended: slow path *)
| FastErr.                     (* control character *)

(** The first loop of [ReadString] (and [trySkipString]), behind the
    opening quote. *)
Fixpoint readStringFast (s : string) : fastString :=
  match s with
  | EmptyString => FastSlow
  | String c s' =>
      if Ascii.eqb c dquote then FastOk EmptyString s'
      else if Ascii.eqb c "\" then FastSlow
      else if (byte_of c <? 32)%N then FastErr
      else match readStringFast s' with
           | FastOk str rest => FastOk (String c str) rest
           | r => r
           end
  end.

Definition isNumberStart (c : ascii) : bool :=
  Ascii.eqb c "-" || ((48 <=? byte_of c)%N && (byte_of c <=? 57)%N).

Section Jsoniter.
Context `{GoLibrary}.

(** [readEscapedChar] for the byte [c] behind a backslash. *)
Definition readEscapedChar (c : ascii) (s : string) : option (string * string) :=
  if Ascii.eqb c "u" then json_readU4 s
  else if Ascii.eqb c dquote then Some (String dquote EmptyString, s)
  else if Ascii.eqb c "\" then Some ("\", s)
  else if Ascii.eqb c "/" then Some ("/", s)
  else if Ascii.eqb c "b" then Some (String "008" EmptyString, s)
  else if Ascii.eqb c "f" then Some (String "012" EmptyString, s)
  else if Ascii.eqb c "n" then Some (String "010" EmptyString, s)
  else if Ascii.eqb c "r" then Some (String "013" EmptyString, s)
  else if Ascii.eqb c "t" then Some (String "009" EmptyString, s)
  else None.

(** [readStringSlowPath], restarted behind the opening quote.  One unit
    of [fuel] per byte or escape read. *)
Fixpoint readStringSlow (fuel : nat) (s : string) : option (string * string) :=
  match fuel with
  | O => None
  | S fuel' =>
      match s with
      | EmptyString => None
      | String c s' =>
          if Ascii.eqb c dquote then Some (EmptyString, s')
          else if Ascii.eqb c "\" then
            match s' with
            | EmptyString => None
            | String e s'' =>
                '(bytes, rest) ← readEscapedChar e s'';
                '(str, rest') ← readStringSlow fuel' rest;
                Some (bytes +:+ str, rest')
            end
          else
            '(str, rest) ← readStringSlow fuel' s';
            Some (String c str, rest)
      end
  end.

(** The string behind an opening quote: its decoded value and the
    input behind the closing quote. *)
Definition readStringBody (s : string) : option (string * string) :=
  match readStringFast s with
  | FastOk str rest => Some (str, rest)
  | FastSlow => readStringSlow (String.length s) s
  | FastErr => None
  end.

(** [ReadString]: a string, or [null] read as the empty string. *)
Definition ReadString (s : string) : option (string * string) :=
  match nextToken s with
  | Some (c, s') =>
      if Ascii.eqb c dquote then readStringBody s'
      else if Ascii.eqb c "n" then rest ← expectBytes "ull" s'; Some (EmptyString, rest)
      else None
  | None => None
  end.

Definition maxDepth : N := 10000.

Inductive skipResult : Type :=
| SkipOk (rest : string)
| SkipErr          (* the iterator reported an error *)
| SkipFuel.        (* the bound on the recursion was too small *)

Definition ofOption (o : option string) : skipResult :=
  match o with Some rest => SkipOk rest | None => SkipErr end.

(** [Skip], with [depth] open containers around the value; [skipElems]
    and [skipMembers] are the loops of [ReadArrayCB] and [ReadObjectCB]
    behind the first element or member. *)
Fixpoint Skip (fuel : nat) (depth : N) (s : string) : skipResult :=
  match fuel with
  | O => SkipFuel
  | S fuel' =>
      match nextToken s with
      | None => SkipErr
      | Some (c, s') =>
          if Ascii.eqb c dquote then ofOption (snd <$> readStringBody s')
          else if Ascii.eqb c "n" then ofOption (expectBytes "ull" s')
          else if Ascii.eqb c "t" then ofOption (expectBytes "rue" s')
          else if Ascii.eqb c "f" then ofOption (expectBytes "alse" s')
          else if isNumberStart c then ofOption (json_skipNumber (String c s'))
          else if Ascii.eqb c "[" then
            if (maxDepth <=? depth)%N then SkipErr
            else match nextToken s' with
                 | None => SkipErr
                 | Some (c1, s1) =>
                     if Ascii.eqb c1 "]" then SkipOk s1
                     else match Skip fuel' (N.succ depth) (String c1 s1) with
                          | SkipOk rest => skipElems fuel' (N.succ depth) rest
                          | r => r
                          end
                 end
          else if Ascii.eqb c "{" then
            if (maxDepth <=? depth)%N then SkipErr
            else match nextToken s' with
                 | None => SkipErr
                 | Some (c1, s1) =>
                     if Ascii.eqb c1 "}" then SkipOk s1
                     else if Ascii.eqb c1 dquote then
                       skipMember fuel' (N.succ depth) (readStringBody s1)
                     else SkipErr
                 end
          else SkipErr
      end
  end
with skipElems (fuel : nat) (depth : N) (s : string) : skipResult :=
  match fuel with
  | O => SkipFuel
  | S fuel' =>
      match nextToken s with
      | None => SkipErr
      | Some (c, s') =>
          if Ascii.eqb c "," then
            match Skip fuel' depth s' with
            | SkipOk rest => skipElems fuel' depth rest
            | r => r
            end
          else if Ascii.eqb c "]" then SkipOk s'
          else SkipErr
      end
  end
with skipMember (fuel : nat) (depth : N) (name : option (string * string)) : skipResult :=
  match fuel with
  | O => SkipFuel
  | S fuel' =>
      match name with
      | None => SkipErr
      | Some (_, s) =>
          match nextToken s with
          | None => SkipErr
          | Some (c, s') =>
              if Ascii.eqb c ":" then
                match Skip fuel' depth s' with
                | SkipOk rest =>
                    match nextToken rest with
                    | None => SkipErr
                    | Some (c1, s1) =>
                        if Ascii.eqb c1 "," then skipMember fuel' depth (ReadString s1)
                        else if Ascii.eqb c1 "}" then SkipOk s1
                        else SkipErr
                    end
                | r => r
                end
              else SkipErr
          end
      end
  end.

(** The bytes between two positions of the iterator. *)
Fixpoint takeBytes (n : nat) (s : string) : string :=
  match n, s with
  | S n', String c s' => String c (takeBytes n' s')
  | _, _ => EmptyString
  end.

Definition captured (s rest : string) : string :=
  takeBytes (String.length s - String.length rest) s.

(** [locateObjectField]: the callback of [ReadObjectCB] captures the
    value of the first member named [target] ([SkipAndReturnBytes]) and
    stops the iteration; any other member is skipped.  [None] stands
    for both "not found" and an iterator error. *)
Fixpoint locateObjectField (fuel : nat) (target : string)
    (name : option (string * string)) : option string :=
  match fuel with
  | O => None
  | S fuel' =>
      '(field, s) ← name;
      '(c, s') ← nextToken s;
      if Ascii.eqb c ":" then
        match Skip (S (String.length s')) 1 s' with
        | SkipOk rest =>
            if String.eqb field target then Some (captured s' rest)
            else
              '(c1, s1) ← nextToken rest;
              if Ascii.eqb c1 "," then locateObjectField fuel' target (ReadString s1)
              else None
        | _ => None
        end
      else None
  end.

Definition locatePath (data target : string) : option string :=
  '(c, s) ← nextToken data;
  if Ascii.eqb c "{" then
    '(c1, s1) ← nextToken s;
    if Ascii.eqb c1 dquote then
      locateObjectField (String.length data) target (readStringBody s1)
    else None
  else None.

(** [ReadAny] on the bytes that [SkipAndReturnBytes] has captured,
    followed by [ToString]: a string is decoded; [null] is the empty
    string; [true] and [false] are written out.  An object, an array and
    a number (any other first byte) are kept lazily: they are skipped
    once more from their first byte, which on the bytes of a value that
    [Skip] has accepted ends where these bytes end, and [ToString]
    returns the bytes that were passed over, whether or not this second
    scan reports an error. *)
Definition readAnyToString (valueBytes : string) : string :=
  match nextToken valueBytes with
  | None => EmptyString
  | Some (c, s') =>
      if Ascii.eqb c dquote then
        match readStringBody s' with
        | Some (str, _) => str
        | None => EmptyString
        end
      else if Ascii.eqb c "n" then EmptyString
      else if Ascii.eqb c "t" then "true"
      else if Ascii.eqb c "f" then "false"
      else String c s'
  end.

(** [jsoniter.Get(data, key).ToString()] *)
Definition jsoniter_Get_ToString (data key : string) : string :=
  match locatePath data key with
  | Some valueBytes => readAnyToString valueBytes
  | None => EmptyString
  end.
End Jsoniter.

(** For the sample installation below: [skipNumber] on numbers of the
    usual spelling, and the pattern that matches a literal text. *)
Definition isDigit (c : ascii) : bool :=
  (48 <=? byte_of c)%N && (byte_of c <=? 57)%N.

Definition endsNumber (c : ascii) : bool :=
  Ascii.eqb c "," || Ascii.eqb c "]" || Ascii.eqb c "}" || isJsonSpace c.

Definition isNumberByte (c : ascii) : bool :=
  isDigit c || Ascii.eqb c "+" || Ascii.eqb c "-" || Ascii.eqb c "." ||
  Ascii.eqb c "e" || Ascii.eqb c "E".

Inductive tryNumber : Type :=
| NumberEnds (rest : string)   (* a valid number ends before [rest] *)
| NumberFails                  (* an error is reported *)
| NumberUnsure.                (* left to the slow path *)

(** [trySkipNumber], behind the first byte of the number: digits with
    at most one point, up to a byte that ends a number. *)
Fixpoint trySkipNumber (dotFound atHead : bool) (s : string) : tryNumber :=
  match s with
  | EmptyString => NumberUnsure
  | String c s' =>
      if isDigit c then trySkipNumber dotFound false s'
      else if Ascii.eqb c "." then
        if dotFound then NumberFails
        else match s' with
             | EmptyString => NumberUnsure
             | String d _ => if isDigit d then trySkipNumber true false s' else NumberFails
             end
      else if endsNumber c then (if atHead then NumberUnsure else NumberEnds s)
      else NumberUnsure
  end.

Fixpoint spanDigits (s : string) : string * string :=
  match s with
  | EmptyString => (EmptyString, EmptyString)
  | String c s' =>
      if isDigit c then let (digits, rest) := spanDigits s' in (String c digits, rest)
      else (EmptyString, s)
  end.

Fixpoint digitsValue (acc : Z) (s : string) : Z :=
  match s with
  | EmptyString => acc
  | String c s' => digitsValue (10 * acc + (Z.of_N (byte_of c) - 48))%Z s'
  end.

Definition readFraction (s : string) : option (string * string) :=
  match s with
  | String c t =>
      if Ascii.eqb c "." then
        let (frac, rest) := spanDigits t in
        if (String.length frac =? 0)%nat then None else Some (frac, rest)
      else Some (EmptyString, s)
  | EmptyString => Some (EmptyString, s)
  end.

Definition readExponent (s : string) : option (Z * string) :=
  match s with
  | String c t =>
      if Ascii.eqb c "e" || Ascii.eqb c "E" then
        let '(negative, t') :=
          match t with
          | String d u =>
              if Ascii.eqb d "-" then (true, u)
              else if Ascii.eqb d "+" then (false, u) else (false, t)
          | EmptyString => (false, t)
          end in
        let (digits, rest) := spanDigits t' in
        if (String.length digits =? 0)%nat then None
        else Some (if negative then (- digitsValue 0 digits)%Z else digitsValue 0 digits, rest)
      else Some (0%Z, s)
  | EmptyString => Some (0%Z, s)
  end.

(** [mantissa * 10 ^ exponent] does not round to infinity: it is below
    the midpoint between the largest [float64] and [2 ^ 1024]. *)
Definition fitsFloat64 (mantissa exponent : Z) : bool :=
  let limit := (2 ^ 1024 - 2 ^ 970)%Z in
  if (0 <=? exponent)%Z then (mantissa * 10 ^ exponent <? limit)%Z
  else (mantissa <? limit * 10 ^ (- exponent))%Z.

(** The slow path, [ReadFloat64], from the first byte of the number: a
    sign, digits without a superfluous leading zero, a fraction and an
    exponent; a number out of the range of [float64] is an error. *)
Definition readNumberSlow (s : string) : option string :=
  let s1 := match s with
            | String c s' => if Ascii.eqb c "-" then s' else s
            | EmptyString => s
            end in
  let (whole, s2) := spanDigits s1 in
  match whole with
  | EmptyString => None
  | String z more =>
      if Ascii.eqb z "0" && negb (String.length more =? 0)%nat then None
      else
        '(frac, s3) ← readFraction s2;
        '(e, rest) ← readExponent s3;
        if match rest with String c _ => isNumberByte c | EmptyString => false end then None
        else if fitsFloat64 (digitsValue 0 (whole +:+ frac)) (e - Z.of_nat (String.length frac))%Z
             then Some rest else None
  end.

Definition sampleSkipNumber (s : string) : option string :=
  match s with
  | EmptyString => None
  | String _ s' =>
      match trySkipNumber false true s' with
      | NumberEnds rest => Some rest
      | NumberFails => None
      | NumberUnsure => readNumberSlow s
      end
  end.

Fixpoint literalRe (s : string) : re :=
  match s with
  | EmptyString => ReEps
  | String c s' => ReCat (ReChar c) (literalRe s')
  end.

(** ** The processor *)

Definition ErrProcessClosed : string := "process: Processor closed".

Record Processor : Type := mkProcessor {
  Threads : Z;
  Input : string;
  Output : string;
  Field : string;
  Values : list string;
  ValuesRegex : list Regexp;
  FileFilter : Regexp;
  MatchMode : string
}.

(** The mutable fields of the Go struct, [inShutdown], [wg] and the log
    behind [ErrorLog], are fields of [state] and [world] below;
    [onShutdown] is never appended to, so [Shutdown] starts no hook.  The
    progress bars act on nothing that is modelled and are left out. *)

(** Records handed to [ErrorLog]. *)
Inductive logLevel : Type := LevelInfo | LevelWarn | LevelError.

Record logRecord : Type := mkLog {
  level : logLevel;
  msg : string;
  attrs : list (string * string)
}.

(** What a worker sees of an input file: the results of [os.Stat],
    [os.Open] and [zstd.NewReader], and the bytes the decoder delivers
    until the stream ends or a read fails ([Scan] hands out what was read
    and then returns false in both cases). *)
Record inputFile : Type := mkInputFile {
  statErr : option string;
  openErr : option string;
  zstdErr : option string;
  decoded : string
}.

(** The operating system under the engine. *)
Record OS : Type := mkOS {
  os_input : string → inputFile;
  (** [os.OpenFile] on an output path *)
  os_openFails : string → option string;
  (** [WriteString] of some bytes on an open output file: [None] when
      all of them are written, else the number of bytes that were
      written before the error, and the error *)
  os_writeFails : string → string → option (nat * string)
}.

(** The output directory and the log. *)
Record world : Type := mkWorld {
  files : gmap string string;
  logged : list logRecord
}.

Definition addLog (r : logRecord) (w : world) : world :=
  mkWorld (files w) (logged w ++ [r]).

(** What the loop body did with a line. *)
Inductive lineOutcome : Type :=
| LineEmpty                                     (* [len(line) == 0] *)
| FieldEmpty                                    (* [fieldVal] is empty *)
| Evaluated (tried : nat) (hit : option string) (* candidates tried, first match *)
| IndexPanic (tried : nat).                     (* [p.ValuesRegex[i]] out of range *)

Inductive loopResult : Type :=
| LoopHit (i : nat) (val : string)
| LoopNone (tried : nat)
| LoopPanic (i : nat).

Section Engine.
Context `{GoLibrary}.
Variable os : OS.

(** The [switch p.MatchMode] of the inner loop for candidate [i];
    [None] when the index into [ValuesRegex] is out of range. *)
Definition matchOne (p : Processor) (i : nat) (val fieldVal : string) : option bool :=
  if String.eqb (MatchMode p) "regex" then
    re ← ValuesRegex p !! i; Some (MatchString re fieldVal)
  else if String.eqb (MatchMode p) "partial" then
    Some (strings_Contains (strings_ToLower fieldVal) (strings_ToLower val))
  else if String.eqb (MatchMode p) "exact" then
    Some (strings_EqualFold fieldVal val)
  else Some false.

(** [for i, val := range p.Values], left at the first match. *)
Fixpoint matchLoop (p : Processor) (fieldVal : string) (i : nat) (vals : list string)
    : loopResult :=
  match vals with
  | [] => LoopNone i
  | val :: vals' =>
      match matchOne p i val fieldVal with
      | None => LoopPanic i
      | Some true => LoopHit i val
      | Some false => matchLoop p fieldVal (S i) vals'
      end
  end.

Definition outFileName (p : Processor) (inputPath value : string) : string :=
  filepath_Join (Output p)
    (strings_TrimSuffix (filepath_Base inputPath) (filepath_Ext inputPath)
       +:+ "_" +:+ value +:+ ".ndjson").

Definition newline : string := String "010" EmptyString.

(** [Processor.write]: open with [O_APPEND|O_CREATE|O_WRONLY], write the
    line and a newline, close.  The count [WriteString] returns is
    discarded: what a failing write has written stays in the file.  A
    write that fails has written fewer bytes than it was given, that is
    some first bytes of the line and not the newline. *)
Definition write (p : Processor) (inputPath value line : string) (w : world) : world :=
  let name := outFileName p inputPath value in
  match os_openFails os name with
  | Some err =>
      addLog (mkLog LevelWarn "failed to open output file" [("path", name); ("err", err)]) w
  | None =>
      let old := default EmptyString (files w !! name) in
      match os_writeFails os name (line +:+ newline) with
      | Some (n, err) =>
          addLog (mkLog LevelWarn "failed to write to output file"
                    [("path", name); ("err", err)])
                 (mkWorld (<[name := old +:+ takeBytes n line]> (files w)) (logged w))
      | None => mkWorld (<[name := old +:+ line +:+ newline]> (files w)) (logged w)
      end
  end.

(** The body of [for scanner.Scan()] behind the shutdown check. *)
Definition processLine (p : Processor) (file line : string) (w : world)
    : lineOutcome * world :=
  if (String.length line =? 0)%nat then (LineEmpty, w)
  else
    let fieldVal := jsoniter_Get_ToString line (Field p) in
    if String.eqb fieldVal EmptyString then (FieldEmpty, w)
    else match matchLoop p fieldVal 0 (Values p) with
         | LoopHit i val => (Evaluated (S i) (Some val), write p file val line w)
         | LoopNone n => (Evaluated n None, w)
         | LoopPanic i => (IndexPanic i, w)
         end.

(** [scanner.Buffer(make([]byte, 64<<10), 512<<20)] *)
Definition maxTokenSize : N := N.shiftl 512 20.

(** The states of a worker goroutine.  A worker holds its admission slot
    in the first three. *)
Inductive workerState : Type :=
| WAdmitted (file : string)
| WScanning (file : string) (data : string)
| WMatching (file : string) (line : string) (data : string)
| WExiting (file : string) (pv : option string)
| WDone (file : string).

Definition holdsSlot (ws : workerState) : bool :=
  match ws with
  | WAdmitted _ | WScanning _ _ | WMatching _ _ _ => true
  | WExiting _ _ | WDone _ => false
  end.

(** [Stat], [Open] and [zstd.NewReader] at the start of a worker: the
    message and error of the first call that fails, or the stream. *)
Definition openInput (f : inputFile) : (string * string) + string :=
  match statErr f with
  | Some err => inl ("failed to get file information", err)
  | None =>
      match openErr f with
      | Some err => inl ("failed to open file", err)
      | None =>
          match zstdErr f with
          | Some err => inl ("failed to create zstd reader", err)
          | None => inr (decoded f)
          end
      end
  end.

(** One step of a worker, given the value it reads from the shutdown
    flag: its next state, the world, and whether [sem.Release(1)] and
    [wg.Done()] ran. *)
Record workerMove : Type := mkMove {
  nextState : workerState;
  nextWorld : world;
  released : bool;
  finished : bool
}.

Definition workerStep (p : Processor) (flag : bool) (ws : workerState) (w : world)
    : option workerMove :=
  match ws with
  | WAdmitted file =>
      match openInput (os_input os file) with
      | inl (m, err) =>
          Some (mkMove (WExiting file (Some err))
                  (addLog (mkLog LevelError m [("path", file); ("err", err)]) w)
                  true false)
      | inr data => Some (mkMove (WScanning file data) w false false)
      end
  | WScanning file data =>
      match bufio_Scan maxTokenSize data with
      | ScanToken line rest =>
          if flag then
            Some (mkMove (WExiting file None)
                    (addLog (mkLog LevelWarn "skipping further processing of file"
                               [("path", file)]) w)
                    true false)
          else Some (mkMove (WMatching file line rest) w false false)
      | ScanEOF | ScanTooLong => Some (mkMove (WExiting file None) w true false)
      end
  | WMatching file line rest =>
      match processLine p file line w with
      | (IndexPanic _, w') =>
          Some (mkMove (WExiting file (Some "index out of range")) w' true false)
      | (_, w') => Some (mkMove (WScanning file rest) w' false false)
      end
  | WExiting file pv =>
      Some (mkMove (WDone file)
              (match pv with
               | Some v => addLog (mkLog LevelError "panic recovered in worker"
                                     [("panic", v)]) w
               | None => w
               end)
              false true)
  | WDone _ => None
  end.
End Engine.

(** ** Discovery: [filepath.Walk] over the input tree *)

(** File modes that are not directories. *)
Inductive fileKind : Type := KRegular | KSymlink | KNamedPipe | KSocket | KDevice.

(** The tree under the input root as [Walk] meets it: [Lstat] of an
    entry and [readDirNames] of a directory can fail; the entries of a
    directory are listed in the order [readDirNames] returns them. *)
Inductive fsNode : Type :=
| NodeFile (name : string) (kind : fileKind)
| NodeDir (name : string) (entries : list fsNode)
| NodeDirUnreadable (name : string) (err : string)
| NodeLstatFail (name : string) (err : string).

Definition nodeName (n : fsNode) : string :=
  match n with
  | NodeFile name _ | NodeDir name _ | NodeDirUnreadable name _
  | NodeLstatFail name _ => name
  end.

(** The list [f] and the log, as the callback extends them. *)
Definition found : Type := list string * list logRecord.

Section Discovery.
Context `{GoLibrary}.

(** The callback passed to [filepath.Walk]. *)
Definition walkFn (p : Processor) (path name : string) (isDir : bool)
    (err : option string) (acc : found) : option string * found :=
  match err with
  | Some e => (Some e, acc)
  | None =>
      if isDir || negb (String.eqb (filepath_Ext name) ".zst") then (None, acc)
      else if negb (MatchString (FileFilter p) name) then (None, acc)
      else (None, ((acc.1 ++ [path])%list,
                   (acc.2 ++ [mkLog LevelInfo "found input file" [("path", path)]])%list))
  end.

(** [walk]: the callback on the entry itself, then on the entries of a
    directory in order; the first error ends the walk. *)
Fixpoint walk (p : Processor) (path : string) (n : fsNode) (acc : found)
    : option string * found :=
  match n with
  | NodeFile name _ => walkFn p path name false None acc
  | NodeLstatFail name err => walkFn p path name false (Some err) acc
  | NodeDirUnreadable name err => walkFn p path name true (Some err) acc
  | NodeDir name entries =>
      match walkFn p path name true None acc with
      | (Some e, acc') => (Some e, acc')
      | (None, acc') =>
          (fix walkNames (es : list fsNode) (acc : found) : option string * found :=
             match es with
             | [] => (None, acc)
             | e :: es' =>
                 match walk p (filepath_Join path (nodeName e)) e acc with
                 | (Some err, acc') => (Some err, acc')
                 | (None, acc') => walkNames es' acc'
                 end
             end) entries acc'
      end
  end.

(** [MustCompile] of every value; [None] is the panic of a pattern that
    does not compile. *)
Fixpoint compileAll (vals : list string) : option (list Regexp) :=
  match vals with
  | [] => Some []
  | v :: vals' =>
      re ← regexp_Compile v; res ← compileAll vals'; Some (re :: res)
  end.

(** How [ProcessAndServe] goes on after discovery. *)
Inductive discovery : Type :=
| ReturnErr (err : string) (log : list logRecord)
| ReturnNil (log : list logRecord)
| CompilePanic
| CallServe (p : Processor) (f : list string) (log : list logRecord).

(** The first block of [ProcessAndServe]: in regex mode the compiled
    values are appended to [ValuesRegex]. *)
Definition compilePatterns (p : Processor) : option Processor :=
  if String.eqb (MatchMode p) "regex" then
    res ← compileAll (Values p);
    Some (mkProcessor (Threads p) (Input p) (Output p) (Field p) (Values p)
            (ValuesRegex p ++ res)%list (FileFilter p) (MatchMode p))
  else Some p.

Definition ProcessAndServe (p : Processor) (shuttingDown : bool) (root : fsNode)
    (log : list logRecord) : discovery :=
  if shuttingDown then ReturnErr ErrProcessClosed log
  else
    match compilePatterns p with
    | None => CompilePanic
    | Some p' =>
        match walk p' (Input p') root ([], log) with
        | (Some err, (_, log')) => ReturnErr err log'
        | (None, ([], log')) =>
            ReturnNil (log' ++ [mkLog LevelWarn "no input files found in input folder"
                                  [("input", Input p')]])%list
        | (None, (f, log')) => CallServe p' f log'
        end
    end.
End Discovery.

(** ** The scheduler, the workers and the shutdown coordinator *)

(** A call of [Shutdown]: the flag is stored first; a goroutine closes
    [done] when [wg.Wait] returns; the [select] returns on [ctx.Done()]
    or on [done]. *)
Inductive shutdownCall : Type :=
| NotCalled
| Waiting (done : bool)
| Returned (err : option string).

Definition DeadlineExceeded : string := "context deadline exceeded".

Record state : Type := mkState {
  inShutdown : bool;            (* [p.inShutdown] *)
  pending : list string;        (* files the loop of [Serve] has not reached *)
  sem : Z;                      (* slots of the semaphore that are held *)
  wg : Z;                       (* counter of [p.wg] *)
  workers : list workerState;   (* one per admitted file, in admission order *)
  env : world;
  serveRet : option (option string);  (* what [Serve] returned *)
  deadline : bool;              (* [ctx.Done()] of the shutdown context is closed *)
  shutdown : shutdownCall
}.

(** What the Go scheduler, the clock and the signal handler can do next. *)
Inductive action : Type :=
| ActAdmit              (* [Serve]: [sem.Acquire], [p.wg.Go] for the next file *)
| ActServeReturn        (* [Serve]: [p.wg.Wait] returns, [Serve] returns *)
| ActWorker (i : nat)   (* worker [i] takes a step *)
| ActShutdown           (* [Shutdown] is called and stores the flag *)
| ActDeadline           (* the deadline of the shutdown context passes *)
| ActWaitDone           (* [Shutdown]: [p.wg.Wait] returns, [done] is closed *)
| ActSelectDone         (* [Shutdown]: the [select] takes [<-done] *)
| ActSelectCtx.         (* [Shutdown]: the [select] takes [<-ctx.Done()] *)

Section Scheduler.
Context `{GoLibrary}.
Variable os : OS.
Variable p : Processor.

(** [Serve] is entered with the files [f], on an output directory and
    a log as they are at that time. *)
Definition startState (f : list string) (w : world) : state :=
  mkState false f 0 0 [] w None false NotCalled.

(** The start on an empty output directory. *)
Definition initState (f : list string) (log : list logRecord) : state :=
  mkState false f 0 0 [] (mkWorld ∅ log) None false NotCalled.

Definition step (a : action) (s : state) : option state :=
  match a with
  | ActAdmit =>
      match pending s with
      | file :: rest =>
          if bool_decide (sem s + 1 ≤ Threads p)%Z then
            Some (mkState (inShutdown s) rest (sem s + 1) (wg s + 1)
                    (workers s ++ [WAdmitted file]) (env s) (serveRet s)
                    (deadline s) (shutdown s))
          else None
      | [] => None
      end
  | ActServeReturn =>
      match pending s, serveRet s with
      | [], None =>
          if bool_decide (wg s = 0)%Z then
            Some (mkState (inShutdown s) [] (sem s) (wg s) (workers s) (env s)
                    (Some (if inShutdown s then Some ErrProcessClosed else None))
                    (deadline s) (shutdown s))
          else None
      | _, _ => None
      end
  | ActWorker i =>
      ws ← workers s !! i;
      m ← workerStep os p (inShutdown s) ws (env s);
      Some (mkState (inShutdown s) (pending s)
              (if released m then sem s - 1 else sem s)%Z
              (if finished m then wg s - 1 else wg s)%Z
              (<[i := nextState m]> (workers s)) (nextWorld m) (serveRet s)
              (deadline s) (shutdown s))
  | ActShutdown =>
      match shutdown s with
      | NotCalled =>
          Some (mkState true (pending s) (sem s) (wg s) (workers s) (env s)
                  (serveRet s) (deadline s) (Waiting false))
      | _ => None
      end
  | ActDeadline =>
      Some (mkState (inShutdown s) (pending s) (sem s) (wg s) (workers s) (env s)
              (serveRet s) true (shutdown s))
  | ActWaitDone =>
      match shutdown s with
      | Waiting false =>
          if bool_decide (wg s = 0)%Z then
            Some (mkState (inShutdown s) (pending s) (sem s) (wg s) (workers s) (env s)
                    (serveRet s) (deadline s) (Waiting true))
          else None
      | _ => None
      end
  | ActSelectDone =>
      match shutdown s with
      | Waiting true =>
          Some (mkState (inShutdown s) (pending s) (sem s) (wg s) (workers s) (env s)
                  (serveRet s) (deadline s) (Returned None))
      | _ => None
      end
  | ActSelectCtx =>
      match shutdown s with
      | Waiting _ =>
          if deadline s then
            Some (mkState (inShutdown s) (pending s) (sem s) (wg s) (workers s) (env s)
                    (serveRet s) (deadline s) (Returned (Some DeadlineExceeded)))
          else None
      | _ => None
      end
  end.

(** A schedule, run from a state; [None] when an action is not enabled. *)
Fixpoint run (acts : list action) (s : state) : option state :=
  match acts with
  | [] => Some s
  | a :: acts' => s' ← step a s; run acts' s'
  end.

Definition reachable (f : list string) (log : list logRecord) (s : state) : Prop :=
  ∃ acts, run acts (initState f log) = Some s.

Definition reachableFrom (f : list string) (w : world) (s : state) : Prop :=
  ∃ acts, run acts (startState f w) = Some s.

(** Workers that hold an admission slot. *)
Definition active (s : state) : nat :=
  length (filter (λ ws, holdsSlot ws = true) (workers s)).
End Scheduler.

(** ** Vocabulary of the properties *)

(** The words a pattern matches as a whole. *)
Inductive re_lang : re → string → Prop :=
| LangEps : re_lang ReEps EmptyString
| LangChar c : re_lang (ReChar c) (String c EmptyString)
| LangAny c : re_lang ReAny (String c EmptyString)
| LangCat r1 r2 s1 s2 :
    re_lang r1 s1 → re_lang r2 s2 → re_lang (ReCat r1 r2) (s1 +:+ s2)
| LangAltL r1 r2 s : re_lang r1 s → re_lang (ReAlt r1 r2) s
| LangAltR r1 r2 s : re_lang r2 s → re_lang (ReAlt r1 r2) s
| LangStarNil r : re_lang (ReStar r) EmptyString
| LangStarCons r s1 s2 :
    re_lang r s1 → re_lang (ReStar r) s2 → re_lang (ReStar r) (s1 +:+ s2).

(** The pattern is found somewhere in [s]: some substring is a word of
    the pattern, at the ends of [s] where the pattern is anchored. *)
Definition foundIn (rx : Regexp) (s : string) : Prop :=
  ∃ pre mid post,
    s = pre +:+ mid +:+ post ∧ re_lang (body rx) mid ∧
    (anchorBegin rx = true → pre = EmptyString) ∧
    (anchorEnd rx = true → post = EmptyString).

(** Equality of two ASCII strings up to the case of their letters, and
    containment of one in the other up to case. *)
Definition equalIgnoringCase (s t : string) : Prop :=
  mapASCII lowerASCII s = mapASCII lowerASCII t.

Definition containsIgnoringCase (s sub : string) : Prop :=
  ∃ pre mid post, s = pre +:+ mid +:+ post ∧ equalIgnoringCase mid sub.

(** No [Lstat] and no directory listing fails anywhere in the tree. *)
Fixpoint errorFree (n : fsNode) : bool :=
  match n with
  | NodeFile _ _ => true
  | NodeDir _ entries =>
      (fix all (es : list fsNode) : bool :=
         match es with
         | [] => true
         | e :: es' => errorFree e && all es'
         end) entries
  | NodeDirUnreadable _ _ | NodeLstatFail _ _ => false
  end.

Section TreeVocabulary.
Context `{GoLibrary}.

(** [entryAt path n q m]: in the tree [n] rooted at [path], the entry
    [m] lies at path [q]. *)
Inductive entryAt : string → fsNode → string → fsNode → Prop :=
| EntryHere path n : entryAt path n path n
| EntryBelow path name entries e q m :
    e ∈ entries →
    entryAt (filepath_Join path (nodeName e)) e q m →
    entryAt path (NodeDir name entries) q m.

(** What the callback selects. *)
Definition eligible (p : Processor) (n : fsNode) : bool :=
  match n with
  | NodeFile name _ =>
      String.eqb (filepath_Ext name) ".zst" && MatchString (FileFilter p) name
  | _ => false
  end.

(** The eligible entries of a tree, in the order of the walk. *)
Fixpoint selected (p : Processor) (path : string) (n : fsNode) : list string :=
  match n with
  | NodeDir _ entries =>
      (fix each (es : list fsNode) : list string :=
         match es with
         | [] => []
         | e :: es' => selected p (filepath_Join path (nodeName e)) e ++ each es'
         end)%list entries
  | _ => if eligible p n then [path] else []
  end.

Definition foundLog (path : string) : logRecord :=
  mkLog LevelInfo "found input file" [("path", path)].


End TreeVocabulary.

(** A JSON writer's escapes for the bytes that cannot stand for
    themselves in a string, or need not. *)
Definition escapeByte (c : ascii) : string :=
  if Ascii.eqb c dquote then String "\" (String dquote EmptyString)
  else if Ascii.eqb c "\" then "\\"
  else if Ascii.eqb c "008" then "\b"
  else if Ascii.eqb c "012" then "\f"
  else if Ascii.eqb c "010" then "\n"
  else if Ascii.eqb c "013" then "\r"
  else if Ascii.eqb c "009" then "\t"
  else String c EmptyString.

Fixpoint escapeJSON (s : string) : string :=
  match s with
  | EmptyString => EmptyString
  | String c s' => escapeByte c +:+ escapeJSON s'
  end.

(** Bytes that are written as they are or with a two-byte escape: all
    but the control characters that need [\u]. *)
Definition isEscapable (c : ascii) : bool :=
  (32 <=? byte_of c)%N || Ascii.eqb c "008" || Ascii.eqb c "012" ||
  Ascii.eqb c "010" || Ascii.eqb c "013" || Ascii.eqb c "009".

Fixpoint allEscapable (s : string) : bool :=
  match s with
  | EmptyString => true
  | String c s' => isEscapable c && allEscapable s'
  end.

(** What a line can hold: a JSON value, a number as the text it is
    written with. *)
Inductive jsonValue : Type :=
| JString (s : string)
| JTrue
| JFalse
| JNull
| JNumber (text : string)
| JArray (elems : list jsonValue)
| JObject (members : list (string * jsonValue)).

Definition isPlainByte (c : ascii) : bool :=
  negb (Ascii.eqb c dquote) && negb (Ascii.eqb c "\") && (32 <=? byte_of c)%N.

Fixpoint isPlain (s : string) : bool :=
  match s with
  | EmptyString => true
  | String c s' => isPlainByte c && isPlain s'
  end.

Definition quoted (s : string) : string :=
  String dquote (s +:+ String dquote EmptyString).

(** What stands behind an item of an array or of an object: the
    closing bracket, or a comma, the next item and what stands behind
    that one. *)
Fixpoint moreItems (close : string) (items : list string) : string :=
  match items with
  | [] => close
  | x :: items' => "," +:+ x +:+ moreItems close items'
  end.

(** The items of an array or of an object, behind the opening bracket
    and up to the closing one. *)
Definition closeWith (close : string) (items : list string) : string :=
  match items with
  | [] => close
  | x :: items' => x +:+ moreItems close items'
  end.

(** A value as a compact writer puts it on a line: no white space
    between the tokens, strings and names with the escapes of
    [escapeJSON], a number with its own text. *)
Fixpoint renderValue (v : jsonValue) : string :=
  match v with
  | JString s => quoted (escapeJSON s)
  | JTrue => "true"
  | JFalse => "false"
  | JNull => "null"
  | JNumber text => text
  | JArray elems => "[" +:+ closeWith "]" (renderValue <$> elems)
  | JObject members =>
      "{" +:+ closeWith "}"
        ((λ m, let '(k, v') := m in quoted (escapeJSON k) +:+ ":" +:+ renderValue v')
           <$> members)
  end.

Definition renderMember (m : string * jsonValue) : string :=
  quoted (escapeJSON m.1) +:+ ":" +:+ renderValue m.2.

Definition renderMembers (ms : list (string * jsonValue)) : string :=
  closeWith "}" (renderMember <$> ms).

Definition renderRecord (ms : list (string * jsonValue)) : string :=
  "{" +:+ renderMembers ms.

(** The members in front of another one, each with its comma. *)
Definition renderLeading (ms : list (string * jsonValue)) : string :=
  foldr (λ m s, renderMember m +:+ "," +:+ s) EmptyString ms.

(** A flat record: names and strings that need no escape, booleans and
    [null]. *)
Definition plainRecord (ms : list (string * jsonValue)) : bool :=
  forallb (λ m, isPlain m.1 &&
                match m.2 with
                | JString s => isPlain s
                | JTrue | JFalse | JNull => true
                | _ => false
                end) ms.

(** The value the record holds for a name: that of the first member
    with that name. *)
Fixpoint recordField (ms : list (string * jsonValue)) (key : string) : option jsonValue :=
  match ms with
  | [] => None
  | m :: ms' => if String.eqb m.1 key then Some m.2 else recordField ms' key
  end.

(** The text of a value: a string as it is, nothing for [null], every
    other value as it is written. *)
Definition valueText (v : jsonValue) : string :=
  match v with
  | JString s => s
  | JNull => EmptyString
  | _ => renderValue v
  end.

Definition isDelimiter (c : ascii) : bool :=
  Ascii.eqb c "," || Ascii.eqb c "]" || Ascii.eqb c "}".

Definition delimited (rest : string) : Prop :=
  ∃ d rest', rest = String d rest' ∧ isDelimiter d = true.

(** A number that [skipNumber] accepts wherever it stands in a compact
    line: in front of a comma or a closing bracket. *)
Definition numberAccepted `{GoLibrary} (text : string) : Prop :=
  (∃ c s, text = String c s ∧ isNumberStart c = true) ∧
  ∀ rest, delimited rest → json_skipNumber (text +:+ rest) = Some rest.

(** A value the iterator gets through, with [depth] containers open
    around it: strings and names without control characters that need
    [\u], numbers that are accepted, containers nested no deeper than
    [maxDepth]. *)
Fixpoint wellFormedAt `{GoLibrary} (depth : N) (v : jsonValue) : Prop :=
  match v with
  | JString s => allEscapable s = true
  | JTrue | JFalse | JNull => True
  | JNumber text => numberAccepted text
  | JArray elems =>
      (depth < maxDepth)%N ∧
      foldr (λ e rest, wellFormedAt (N.succ depth) e ∧ rest) True elems
  | JObject members =>
      (depth < maxDepth)%N ∧
      foldr (λ m rest,
               let '(k, v') := m in
               allEscapable k = true ∧ wellFormedAt (N.succ depth) v' ∧ rest)
            True members
  end.

(** A line that is one object. *)
Definition wellFormedRecord `{GoLibrary} (ms : list (string * jsonValue)) : Prop :=
  wellFormedAt 0 (JObject ms).

(** What stands behind a value of the line: a number needs a comma or
    a closing bracket there, any other value ends by itself. *)
Definition endsBefore (v : jsonValue) (rest : string) : Prop :=
  match v with
  | JNumber _ => delimited rest
  | _ => True
  end.

(** A stream that is one line of [maxTokenSize + k] bytes. *)
Fixpoint repeatByte (n : nat) (c : ascii) : string :=
  match n with
  | O => EmptyString
  | S n' => String c (repeatByte n' c)
  end.

Definition longLine (k : nat) : string :=
  repeatByte (N.to_nat maxTokenSize + k) "a".

Section RunVocabulary.
Context `{GoLibrary}.
Variable os : OS.
Variable p : Processor.

(** Worker [i] is behind the shutdown check of a line. *)
Definition isMatching (s : state) (i : nat) : bool :=
  match workers s !! i with
  | Some (WMatching _ _ _) => true
  | _ => false
  end.

(** Lines worker [i] matches (and writes) along a schedule. *)
Fixpoint linesBy (i : nat) (acts : list action) (s : state) : nat :=
  match acts with
  | [] => 0
  | a :: acts' =>
      match step os p a s with
      | None => 0
      | Some s' =>
          (match a with
           | ActWorker j => if bool_decide (j = i) && isMatching s i then 1 else 0
           | _ => 0
           end + linesBy i acts' s')%nat
      end
  end.

(** Workers that have not run to their end. *)
Definition isDone (ws : workerState) : bool :=
  match ws with WDone _ => true | _ => false end.

Definition unfinished (s : state) : nat :=
  length (filter (λ ws, negb (isDone ws) = true) (workers s)).
End RunVocabulary.

(** ** Auxiliary notions of the proofs *)

Section WalkVocabulary.
Context `{GoLibrary}.

(** The loops over the entries of a directory, by name. *)
Definition walkNames (p : Processor) (path : string)
    : list fsNode → found → option string * found :=
  fix walkNames (es : list fsNode) (acc : found) : option string * found :=
    match es with
    | [] => (None, acc)
    | e :: es' =>
        match walk p (filepath_Join path (nodeName e)) e acc with
        | (Some err, acc') => (Some err, acc')
        | (None, acc') => walkNames es' acc'
        end
    end.

Definition selectedEach (p : Processor) (path : string) : list fsNode → list string :=
  fix each (es : list fsNode) : list string :=
    match es with
    | [] => []
    | e :: es' => (selected p (filepath_Join path (nodeName e)) e ++ each es')%list
    end.
End WalkVocabulary.

Definition errorFreeAll : list fsNode → bool :=
  fix all (es : list fsNode) : bool :=
    match es with
    | [] => true
    | e :: es' => errorFree e && all es'
    end.

(** [f] and the log after some more paths have been found. *)
Definition extend (acc : found) (paths : list string) : found :=
  ((acc.1 ++ paths)%list, (acc.2 ++ (foundLog <$> paths))%list).

(** The counters agree with the states of the workers. *)
Definition counted (p : Processor) (s : state) : Prop :=
  sem s = Z.of_nat (active s) ∧ wg s = Z.of_nat (unfinished s) ∧
  (sem s ≤ Z.max 0 (Threads p))%Z ∧
  (shutdown s ≠ NotCalled → inShutdown s = true).

Definition notMatching (ws : workerState) : Prop :=
  match ws with WMatching _ _ _ => False | _ => True end.

(** The goroutine of [Shutdown] has seen [wg.Wait] return. *)
Definition doneClosed (s : state) : Prop :=
  shutdown s = Waiting true ∨ shutdown s = Returned None.

(** An error of [Shutdown] is the error of its context, after the
    deadline. *)
Definition timedOut (s : state) : Prop :=
  ∀ e, shutdown s = Returned (Some e) → e = DeadlineExceeded ∧ deadline s = true.

(** A result of [Skip] that is not the bound of the recursion and leaves
    fewer than [n] bytes. *)
Definition shorter (r : skipResult) (n : nat) : Prop :=
  match r with
  | SkipOk rest => (String.length rest < n)%nat
  | SkipErr => True
  | SkipFuel => False
  end.

(** The sentence of the specification about admission, read on the
    model: once the flag is set no further file is admitted. *)
Definition noNewFileAfterShutdown `{GoLibrary} (os : OS) (p : Processor) : Prop :=
  ∀ f log s, reachable os p f log s → inShutdown s = true → step os p ActAdmit s = None.

(** ** The engine as a whole: further notions *)

(** The file a worker was admitted for. *)
Definition fileOf (ws : workerState) : string :=
  match ws with
  | WAdmitted file | WScanning file _ | WMatching file _ _
  | WExiting file _ | WDone file => file
  end.

(** The actions of [Serve] and of its workers. *)
Definition isServeAction (a : action) : bool :=
  match a with
  | ActAdmit | ActServeReturn | ActWorker _ => true
  | _ => false
  end.

Definition countServe (acts : list action) : nat :=
  length (filter (λ a, isServeAction a = true) acts).

(** [serve] of the application once [ProcessAndServe] has called
    [Serve]: it returns what [Serve] returned unless that is
    [ErrProcessClosed]; then it receives the result of [Shutdown] from
    the signal goroutine and returns it.  [None] while it is blocked. *)
Definition appReturn (s : state) : option (option string) :=
  match serveRet s with
  | None => None
  | Some None => Some None
  | Some (Some err) =>
      if String.eqb err ErrProcessClosed then
        match shutdown s with
        | Returned r => Some r
        | _ => None
        end
      else Some (Some err)
  end.

(** How a call of [serve] ends. *)
Inductive serveOutcome : Type :=
| AppBlocked                      (* it has not returned *)
| AppPanics                       (* [MustCompile] panics *)
| AppReturns (r : option string).

(** [serve] of the application, for the processor [p], the flag as
    [ProcessAndServe] finds it at its entry and the input tree [root];
    [s] is the state of the engine.  [ProcessAndServe] returns
    [ErrProcessClosed] when the flag is set at its entry, and may return
    it from [Serve]; an error of the walk is an error of the file
    system, which [errors.Is] does not take for [ErrProcessClosed]. *)
Definition appServe `{GoLibrary} (p : Processor) (flag : bool) (root : fsNode)
    (log : list logRecord) (s : state) : serveOutcome :=
  match ProcessAndServe p flag root log with
  | CompilePanic => AppPanics
  | ReturnNil _ => AppReturns None
  | ReturnErr err _ =>
      if flag then
        match shutdown s with
        | Returned r => AppReturns r
        | _ => AppBlocked
        end
      else AppReturns (Some err)
  | CallServe _ _ _ =>
      match appReturn s with
      | Some r => AppReturns r
      | None => AppBlocked
      end
  end.

(** A candidate index never runs past the compiled patterns. *)
Definition patternsCover (p : Processor) : Prop :=
  MatchMode p = "regex" → (length (Values p) ≤ length (ValuesRegex p))%nat.

(** The operating system accepts every open and write in the output
    directory. *)
Definition acceptsWrites (os : OS) : Prop :=
  ∀ name data, os_openFails os name = None ∧ os_writeFails os name data = None.

(** The tokens [Scan] hands out until it returns false. *)
Fixpoint scanLines (fuel : nat) (max : N) (data : string) : list string :=
  match fuel with
  | O => []
  | S fuel' =>
      match bufio_Scan max data with
      | ScanToken line rest => line :: scanLines fuel' max rest
      | ScanEOF | ScanTooLong => []
      end
  end.

(** Lines, each closed by [eol]. *)
Fixpoint joinLines (eol : string) (ls : list string) : string :=
  match ls with
  | [] => EmptyString
  | l :: ls' => l +:+ eol +:+ joinLines eol ls'
  end.

Definition crlf : string := String "013" (String "010" EmptyString).

Fixpoint endsWithCR (l : string) : bool :=
  match l with
  | EmptyString => false
  | String c EmptyString => Ascii.eqb c "013"
  | String _ l' => endsWithCR l'
  end.

(** A line that survives the scanner as it is: no newline inside, no
    carriage return at its end, and room for it in the buffer. *)
Definition plainLine (max : N) (l : string) : Prop :=
  cutNewline l = None ∧ endsWithCR l = false ∧
  (N.of_nat (S (String.length l)) < max)%N.

Fixpoint hasDot (s : string) : bool :=
  match s with
  | EmptyString => false
  | String c s' => Ascii.eqb c "." || hasDot s'
  end.

Section Pipeline.
Context `{GoLibrary}.
Variable os : OS.
Variable p : Processor.

(** The candidate a line is written for, if any. *)
Definition lineHit (line : string) : option string :=
  if (String.length line =? 0)%nat then None
  else
    let fieldVal := jsoniter_Get_ToString line (Field p) in
    if String.eqb fieldVal EmptyString then None
    else match matchLoop p fieldVal 0 (Values p) with
         | LoopHit _ val => Some val
         | _ => None
         end.

(** What a file contributes to one output path: its lines that are
    written for a candidate of that path, each with its newline, in the
    order of the input. *)
Fixpoint emitted (file name : string) (lines : list string) : string :=
  match lines with
  | [] => EmptyString
  | line :: lines' =>
      match lineHit line with
      | Some val =>
          if String.eqb (outFileName p file val) name
          then line +:+ newline +:+ emitted file name lines'
          else emitted file name lines'
      | None => emitted file name lines'
      end
  end.

(** Steps a worker still has to take, at most, when nothing stops it. *)
Definition rank (ws : workerState) : nat :=
  match ws with
  | WAdmitted file => 2 * String.length (decoded (os_input os file)) + 3
  | WScanning _ data => 2 * String.length data + 2
  | WMatching _ _ rest => 2 * String.length rest + 3
  | WExiting _ _ => 1
  | WDone _ => 0
  end.

(** Steps [Serve] and its workers still have to take, at most. *)
Definition remaining (s : state) : nat :=
  sum_list (rank <$> workers s) +
  sum_list ((λ file, S (rank (WAdmitted file))) <$> pending s) +
  match serveRet s with Some _ => 0 | None => 1 end.

End Pipeline.

(** Steps a worker takes at most once it reads the flag as set. *)
Definition rankDown (ws : workerState) : nat :=
  match ws with
  | WAdmitted _ => 3
  | WScanning _ _ => 2
  | WMatching _ _ _ => 3
  | WExiting _ _ => 1
  | WDone _ => 0
  end.

(** [Serve] has returned: the loop is through, every worker has ended,
    and the result fits the flag. *)
Definition returned (s : state) : Prop :=
  ∀ r, serveRet s = Some r →
    pending s = [] ∧ unfinished s = 0%nat ∧
    (r = None ∨ (r = Some ErrProcessClosed ∧ inShutdown s = true)).

(** Nothing has been admitted, nothing has been written. *)
Definition idle (f : list string) (log : list logRecord) (s : state) : Prop :=
  workers s = [] ∧ pending s = f ∧ env s = mkWorld ∅ log ∧ sem s = 0%Z ∧
  (f ≠ [] → serveRet s = None).

(** The world [w'] keeps what [w] holds: every output file of [w] with
    its content as a prefix, every record of the log in its place. *)
Definition extends (w w' : world) : Prop :=
  (∀ name old, files w !! name = Some old →
               ∃ more, files w' !! name = Some (old +:+ more)) ∧
  (∃ more, logged w' = (logged w ++ more)%list).

(** The flag is set by a call of [Shutdown] only. *)
Definition flagged (s : state) : Prop :=
  inShutdown s = true → shutdown s ≠ NotCalled.

(** Steps [Serve] and its workers still have to take, at most, once the
    flag is set. *)
Definition remainingDown (s : state) : nat :=
  sum_list (rankDown <$> workers s) + 4 * length (pending s) +
  match serveRet s with Some _ => 0 | None => 1 end.

(** The lines a worker reads from a stream, up to its end or to a line
    that is too long. *)
Definition linesOf (data : string) : list string :=
  scanLines (String.length data) maxTokenSize data.

(** The lines a worker reads from a file: none when the file cannot be
    opened. *)
Definition allLines (os : OS) (file : string) : list string :=
  match openInput (os_input os file) with
  | inl _ => []
  | inr data => linesOf data
  end.

(** Nothing stops a worker before the end of its file: the patterns
    cover the candidates, and the flag has not been set while workers
    ran. *)
Definition unstopped (p : Processor) (s : state) : Prop :=
  patternsCover p ∧ (inShutdown s = false ∨ serveRet s = Some None).

(** [rest] is what a worker still has to hand to the body of the loop. *)
Definition tracks (complete : Prop) (all rest : list string)
    (ows : option workerState) : Prop :=
  match ows with
  | None | Some (WAdmitted _) => rest = all
  | Some (WScanning _ data) => rest = linesOf data
  | Some (WMatching _ line data) => rest = line :: linesOf data
  | Some (WExiting _ _) | Some (WDone _) => complete → rest = []
  end.

(** The output file [name] holds what it held before, and behind it
    what the worker of [file], the worker at index [k], has emitted for
    the lines it is through with. *)
Definition emitsInOrder `{GoLibrary} (os : OS) (p : Processor) (k : nat)
    (file name before : string) (s : state) : Prop :=
  ∃ done rest,
    allLines os file = (done ++ rest)%list ∧
    default EmptyString (files (env s) !! name) = before +:+ emitted p file name done ∧
    tracks (unstopped p s) (allLines os file) rest (workers s !! k).

(** A worker that has not met a failure. *)
Definition quietWorker (ws : workerState) : Prop :=
  match ws with
  | WExiting _ pv => pv = None
  | _ => True
  end.

(** Nothing has been logged, and no worker has met a failure, unless
    the flag is set. *)
Definition quiet (log : list logRecord) (s : state) : Prop :=
  inShutdown s = false →
  logged (env s) = log ∧ ∀ ws, ws ∈ workers s → quietWorker ws.

(** The sentence of the specification about exact and partial mode,
    read on the model: there is one notion of two texts being equal
    ignoring case; exact mode decides it for the field value and the
    candidate, partial mode decides whether a part of the field value
    equals the candidate in that sense. *)
Definition modesIgnoreCase `{GoLibrary} (pe pp : Processor) : Prop :=
  ∃ same : string → string → Prop,
    (∀ i val fieldVal, matchOne pe i val fieldVal = Some true ↔ same fieldVal val) ∧
    (∀ i val fieldVal,
       matchOne pp i val fieldVal = Some true ↔
       ∃ pre mid post, fieldVal = pre +:+ mid +:+ post ∧ same mid val).

(** The sentence of the specification about a failing write, read on
    the model: the line is dropped, the file holds what it held. *)
Definition failedWriteDropsLine `{GoLibrary} (os : OS) (p : Processor) : Prop :=
  ∀ file v line w,
    os_openFails os (outFileName p file v) = None →
    os_writeFails os (outFileName p file v) (line +:+ newline) ≠ None →
    default EmptyString (files (write os p file v line w) !! outFileName p file v) =
    default EmptyString (files w !! outFileName p file v).

(** ** A sample installation *)

(** JSON text, written with apostrophes in place of the quotes. *)
Definition json (s : string) : string :=
  mapASCII (λ c, if Ascii.eqb c "'" then dquote else c) s.

(** Simple case folding on text made of ASCII and the long s (U+017F,
    bytes C5 BF), which folds to s. *)
Fixpoint sampleFold (s : string) : string :=
  match s with
  | EmptyString => EmptyString
  | String c1 s1 =>
      match s1 with
      | String c2 s2 =>
          if Ascii.eqb c1 "197" && Ascii.eqb c2 "191" then String "s" (sampleFold s2)
          else String (lowerASCII c1) (sampleFold s1)
      | EmptyString => String (lowerASCII c1) EmptyString
      end
  end.

(** The library on plain inputs: text made of ASCII and the long s
    (a lower-case letter, which [unicode.ToLower] leaves as it is),
    path elements that need no cleaning, literal patterns, numbers
    of the usual spelling (what the first loop of [skipNumber] decides,
    and on its slow path a mantissa without a superfluous leading zero,
    with or without an exponent). *)
#[export] Program Instance plainLibrary : GoLibrary := {|
  unicode_ToLower := mapASCII lowerASCII;
  unicode_EqualFold := λ s t, String.eqb (sampleFold s) (sampleFold t);
  filepath_Join := λ dir name, dir +:+ "/" +:+ name;
  regexp_Compile := λ s, Some (mkRegexp false (literalRe s) false);
  json_readU4 := λ _, None;
  json_skipNumber := λ s,
    match sampleSkipNumber s with
    | Some rest => if (String.length rest <? String.length s)%nat then Some rest else None
    | None => None
    end
|}.
Next Obligation. done. Qed.
Next Obligation.
  intros s rest. simpl. destruct (sampleSkipNumber s) as [r|]; [|done].
  destruct (Nat.ltb_spec (String.length r) (String.length s)); [|done].
  by intros [= <-].
Qed.

Definition line1 : string := json "{'subreddit':'wallstreetbets','title':'GME'}".
Definition line2 : string := json "{'subreddit':'pics','title':'x'}".
Definition submissions : string := "in/RS_2020-01.zst".
Definition comments : string := "in/RC_2020-01.zst".

(** Two input files can be read, any other path does not exist; the
    output directory accepts every write. *)
Definition demoOS : OS :=
  mkOS (λ path,
          if String.eqb path submissions
          then mkInputFile None None None (line1 +:+ newline +:+ line2 +:+ newline)
          else if String.eqb path comments
          then mkInputFile None None None (line2 +:+ newline)
          else mkInputFile (Some "no such file or directory") None None EmptyString)
       (λ _, None) (λ _ _, None).

Definition demoProcessor (mode : string) (values : list string) : Processor :=
  mkProcessor 1 "in" "out" "subreddit" values []
    (mkRegexp false (ReStar ReAny) false) mode.


Definition demoTree : fsNode :=
  NodeDir "in" [NodeFile "RS_2020-01.zst" KRegular; NodeFile "notes.txt" KRegular].

Definition linkTree : fsNode :=
  NodeDir "in" [NodeFile "RC_2019-12.zst" KSymlink].

Definition twoFiles : list string := [submissions; comments].

(** An output directory that holds a file of an earlier run. *)
Definition earlierWorld : world :=
  mkWorld {[ "out/RS_2020-01_wallstreetbets.ndjson" := line2 +:+ newline ]} [].

(** The long s, in UTF-8. *)
Definition longS : string := String "197" (String "191" EmptyString).

(** A second line of the first file's subreddit, and an output
    directory that fills up: the write of [line1] fails after five
    bytes, later writes succeed. *)
Definition line3 : string := json "{'subreddit':'wallstreetbets','title':'AMC'}".

Definition tornOS : OS :=
  mkOS (os_input demoOS) (λ _, None)
    (λ _ data, if String.eqb data (line1 +:+ newline)
               then Some (5%nat, "no space left on device") else None).

(** One worker, run to its end. *)
Definition scenario : list action :=
  [ActAdmit; ActWorker 0; ActWorker 0; ActWorker 0; ActWorker 0; ActWorker 0;
   ActWorker 0; ActWorker 0; ActServeReturn].

(** The flag is stored while the first worker is in the body of the
    loop; [Shutdown] returns when that worker has ended. *)
Definition lateShutdown : list action :=
  [ActAdmit; ActWorker 0; ActWorker 0; ActShutdown; ActWorker 0; ActWorker 0;
   ActWorker 0; ActWaitDone; ActSelectDone].

(** * Properties *)

Local Close Scope string_scope.
#[local] Arguments String.append !_ _ / : simpl nomatch.

(** * Facts about the library models *)

Lemma byte_of_inj (a b : ascii) : byte_of a = byte_of b → a = b.
Proof.
  unfold byte_of. intros E.
  rewrite <- (ascii_N_embedding a), <- (ascii_N_embedding b). by rewrite E.
Qed.

Lemma byte_of_bound (a : ascii) : (byte_of a < 256)%N.
Proof. apply N_ascii_bounded. Qed.

Lemma byte_of_lowerASCII (a : ascii) :
  byte_of (lowerASCII a) = if isUpperASCII a then (byte_of a + 32)%N else byte_of a.
Proof.
  unfold lowerASCII. destruct (isUpperASCII a) eqn:U; [|done].
  unfold byte_of at 1. apply N_ascii_embedding.
  unfold isUpperASCII in U. apply andb_prop in U as [_ U].
  apply N.leb_le in U. lia.
Qed.

Lemma foldEqASCII_spec (a b : ascii) :
  foldEqASCII a b = true ↔ lowerASCII a = lowerASCII b.
Proof.
  split.
  - intros F. apply byte_of_inj. rewrite !byte_of_lowerASCII.
    unfold foldEqASCII in F. unfold isUpperASCII.
    destruct (N.eqb_spec (byte_of b) (byte_of a)) as [->|Hne]; [done|].
    apply andb_prop in F as [F F3]. apply andb_prop in F as [F1 F2].
    apply N.leb_le in F1, F2. apply N.eqb_eq in F3.
    repeat match goal with
           | |- context [(?x <=? ?y)%N] => destruct (N.leb_spec x y)
           end; simpl; lia.
  - intros E. apply (f_equal byte_of) in E. rewrite !byte_of_lowerASCII in E.
    unfold foldEqASCII, isUpperASCII in *.
    destruct (N.eqb_spec (byte_of b) (byte_of a)) as [|Hne]; [done|].
    rewrite !andb_true_iff, !N.leb_le, N.eqb_eq.
    repeat match type of E with
           | context [(?x <=? ?y)%N] => destruct (N.leb_spec x y)
           end; simpl in E; lia.
Qed.

Section StringFacts.
Context `{GoLibrary}.

Lemma strings_ToLower_ASCII (s : string) :
  isASCII s = true → strings_ToLower s = mapASCII lowerASCII s.
Proof. unfold strings_ToLower. by intros ->. Qed.

Lemma strings_EqualFold_ASCII (s t : string) :
  isASCII s = true → isASCII t = true →
  strings_EqualFold s t = true ↔ equalIgnoringCase s t.
Proof.
  unfold equalIgnoringCase. revert t.
  induction s as [|a s IH]; intros [|b t]; simpl; try done.
  intros [Ha Hs]%andb_prop [Hb Ht]%andb_prop. rewrite Ha, Hb. simpl.
  destruct (foldEqASCII a b) eqn:F.
  - apply foldEqASCII_spec in F. rewrite F, (IH t Hs Ht).
    split; [by intros ->|by intros [=]].
  - split; [done|]. intros [= E _]. apply foldEqASCII_spec in E. by rewrite F in E.
Qed.
End StringFacts.

Lemma append_assoc (a b c : string) : (a +:+ b) +:+ c = a +:+ b +:+ c.
Proof. induction a as [|x a IH]; simpl; [done|by rewrite IH]. Qed.

Lemma append_empty_r (a : string) : a +:+ EmptyString = a.
Proof. induction a as [|x a IH]; simpl; [done|by rewrite IH]. Qed.

Lemma append_length (a b : string) :
  String.length (a +:+ b) = (String.length a + String.length b)%nat.
Proof. induction a as [|x a IH]; simpl; [done|by rewrite IH]. Qed.

Lemma strings_HasPrefix_spec (s prefix : string) :
  strings_HasPrefix s prefix = true ↔ ∃ post, s = prefix +:+ post.
Proof.
  revert s. induction prefix as [|c prefix IH]; intros [|d s]; simpl.
  - split; [by exists EmptyString|done].
  - split; [by exists (String d s)|done].
  - split; [done|by intros [? ?]].
  - destruct (Ascii.eqb d c) eqn:E.
    + apply Ascii.eqb_eq in E as ->. split.
      * intros [post ->]%IH. by exists post.
      * intros [post [= ->]]. apply IH. by exists post.
    + apply Ascii.eqb_neq in E. split; [done|]. by intros [? [= ? _]].
Qed.

Lemma strings_Contains_unfold (s substr : string) :
  strings_Contains s substr =
  strings_HasPrefix s substr ||
  match s with EmptyString => false | String _ s' => strings_Contains s' substr end.
Proof. by destruct s. Qed.

Lemma strings_Contains_spec (s substr : string) :
  strings_Contains s substr = true ↔ ∃ pre post, s = pre +:+ substr +:+ post.
Proof.
  induction s as [|c s IH]; rewrite strings_Contains_unfold, orb_true_iff,
    strings_HasPrefix_spec.
  - split.
    + intros [[post E]|?]; [|done]. by exists EmptyString, post.
    + intros (pre & post & E). left. destruct pre; [by exists post|done].
  - rewrite IH. split.
    + intros [[post E]|(pre & post & E)].
      * by exists EmptyString, post.
      * exists (String c pre), post. simpl. by rewrite E.
    + intros (pre & post & E). destruct pre as [|d pre]; simpl in E.
      * left. by exists post.
      * right. injection E as -> E. by exists pre, post.
Qed.

Lemma mapASCII_append (f : ascii → ascii) (a b : string) :
  mapASCII f (a +:+ b) = mapASCII f a +:+ mapASCII f b.
Proof. induction a as [|x a IH]; simpl; [done|by rewrite IH]. Qed.

Lemma mapASCII_append_inv (f : ascii → ascii) (s a b : string) :
  mapASCII f s = a +:+ b →
  ∃ s1 s2, s = s1 +:+ s2 ∧ mapASCII f s1 = a ∧ mapASCII f s2 = b.
Proof.
  revert s. induction a as [|c a IH]; intros s E; simpl in E.
  - by exists EmptyString, s.
  - destruct s as [|d s]; [done|]. simpl in E. injection E as E1 E2.
    destruct (IH s E2) as (s1 & s2 & -> & <- & <-).
    exists (String d s1), s2. simpl. by rewrite E1.
Qed.

Lemma strings_Contains_lower (s sub : string) :
  strings_Contains (mapASCII lowerASCII s) (mapASCII lowerASCII sub) = true ↔
  containsIgnoringCase s sub.
Proof.
  rewrite strings_Contains_spec. unfold containsIgnoringCase, equalIgnoringCase. split.
  - intros (pre & post & E).
    apply mapASCII_append_inv in E as (s1 & s2 & -> & _ & E).
    apply mapASCII_append_inv in E as (s3 & s4 & -> & E & _).
    by exists s1, s3, s4.
  - intros (pre & mid & post & -> & E).
    exists (mapASCII lowerASCII pre), (mapASCII lowerASCII post).
    by rewrite !mapASCII_append, E.
Qed.

(** ** Patterns: the automaton finds exactly the words of the pattern *)

Lemma append_eq_empty (a b : string) :
  a +:+ b = EmptyString → a = EmptyString ∧ b = EmptyString.
Proof. by destruct a. Qed.

Lemma nullable_sound (r : re) : nullable r = true → re_lang r EmptyString.
Proof.
  induction r; simpl; intros N; try done.
  - constructor.
  - apply andb_prop in N as [N1 N2].
    change EmptyString with (EmptyString +:+ EmptyString). constructor; auto.
  - apply orb_prop in N as [N|N]; [apply LangAltL|apply LangAltR]; auto.
  - constructor.
Qed.

Lemma nullable_complete (r : re) (s : string) :
  re_lang r s → s = EmptyString → nullable r = true.
Proof.
  induction 1; simpl; intros E; try done.
  - apply append_eq_empty in E as [-> ->]. by rewrite IHre_lang1, IHre_lang2.
  - by rewrite IHre_lang.
  - rewrite IHre_lang; [|done]. apply orb_true_r.
Qed.

Lemma nullable_spec (r : re) : nullable r = true ↔ re_lang r EmptyString.
Proof. split; [apply nullable_sound|]. intros L. by eapply nullable_complete. Qed.

Lemma deriv_sound (c : ascii) (r : re) (s : string) :
  re_lang (deriv c r) s → re_lang r (String c s).
Proof.
  revert s. induction r as [| |d| |r1 IH1 r2 IH2|r1 IH1 r2 IH2|r1 IH1]; simpl; intros s L.
  - inversion L.
  - inversion L.
  - destruct (Ascii.eqb c d) eqn:E; [|inversion L].
    apply Ascii.eqb_eq in E as ->. inversion L; subst. constructor.
  - inversion L; subst. constructor.
  - destruct (nullable r1) eqn:N.
    + inversion L as [| | | | ? ? ? L'| ? ? ? L'| |]; subst.
      * inversion L' as [| | |? ? s1 s2 L1 L2 | | | |]; subst.
        change (String c (s1 +:+ s2)) with (String c s1 +:+ s2). constructor; auto.
      * change (String c s) with (EmptyString +:+ String c s).
        constructor; [by apply nullable_sound|auto].
    + inversion L as [| | |? ? s1 s2 L1 L2 | | | |]; subst.
      change (String c (s1 +:+ s2)) with (String c s1 +:+ s2). constructor; auto.
  - inversion L; subst; [apply LangAltL|apply LangAltR]; auto.
  - inversion L as [| | |? ? s1 s2 L1 L2 | | | |]; subst.
    change (String c (s1 +:+ s2)) with (String c s1 +:+ s2). constructor; auto.
Qed.

Lemma deriv_complete (c : ascii) (r : re) (s' : string) :
  re_lang r s' → ∀ s, s' = String c s → re_lang (deriv c r) s.
Proof.
  induction 1 as [|d|d|r1 r2 s1 s2 L1 IH1 L2 IH2|r1 r2 s1 L1 IH1|r1 r2 s1 L1 IH1
                 |r1|r1 s1 s2 L1 IH1 L2 IH2]; simpl; intros s E; try done.
  - injection E as -> <-. rewrite Ascii.eqb_refl. constructor.
  - injection E as -> <-. constructor.
  - destruct s1 as [|d s1]; simpl in E.
    + subst s2. rewrite (nullable_complete r1 EmptyString L1 eq_refl).
      apply LangAltR. by apply IH2.
    + injection E as -> <-. destruct (nullable r1).
      * apply LangAltL. constructor; [by apply IH1|done].
      * constructor; [by apply IH1|done].
  - apply LangAltL. by apply IH1.
  - apply LangAltR. by apply IH1.
  - destruct s1 as [|d s1]; simpl in E.
    + subst s2. by apply IH2.
    + injection E as -> <-. constructor; [by apply IH1|done].
Qed.

Lemma deriv_spec (c : ascii) (r : re) (s : string) :
  re_lang (deriv c r) s ↔ re_lang r (String c s).
Proof. split; [apply deriv_sound|]. intros L. by eapply deriv_complete. Qed.

Lemma matchHere_spec (r : re) (toEnd : bool) (s : string) :
  matchHere r toEnd s = true ↔
  ∃ mid post, s = mid +:+ post ∧ re_lang r mid ∧ (toEnd = true → post = EmptyString).
Proof.
  revert r. induction s as [|c s IH]; intros r; simpl.
  - rewrite nullable_spec. split.
    + intros L. by exists EmptyString, EmptyString.
    + intros (mid & post & E & L & _). symmetry in E.
      apply append_eq_empty in E as [-> _]. done.
  - rewrite orb_true_iff, andb_true_iff, negb_true_iff, nullable_spec, IH. split.
    + intros [[-> L]|(mid & post & -> & L & P)].
      * by exists EmptyString, (String c s).
      * exists (String c mid), post. by rewrite <- deriv_spec.
    + intros (mid & post & E & L & P). destruct mid as [|d mid]; simpl in E.
      * left. split; [|done]. destruct toEnd; [|done]. by rewrite P in E.
      * injection E as <- ->. right. exists mid, post. by rewrite deriv_spec.
Qed.

Lemma matchSearch_unfold (r : re) (toEnd : bool) (s : string) :
  matchSearch r toEnd s =
  matchHere r toEnd s ||
  match s with EmptyString => false | String _ s' => matchSearch r toEnd s' end.
Proof. by destruct s. Qed.

Lemma matchSearch_spec (r : re) (toEnd : bool) (s : string) :
  matchSearch r toEnd s = true ↔
  ∃ pre mid post,
    s = pre +:+ mid +:+ post ∧ re_lang r mid ∧ (toEnd = true → post = EmptyString).
Proof.
  induction s as [|c s IH]; rewrite matchSearch_unfold, orb_true_iff, matchHere_spec.
  - split.
    + intros [(mid & post & E & L)|?]; [|done]. by exists EmptyString, mid, post.
    + intros (pre & mid & post & E & L). left. destruct pre; [|done].
      by exists mid, post.
  - rewrite IH. split.
    + intros [(mid & post & E & L)|(pre & mid & post & -> & L)].
      * by exists EmptyString, mid, post.
      * by exists (String c pre), mid, post.
    + intros (pre & mid & post & E & L). destruct pre as [|d pre]; simpl in E.
      * left. by exists mid, post.
      * injection E as <- ->. right. by exists pre, mid, post.
Qed.

Lemma MatchString_spec (rx : Regexp) (s : string) :
  MatchString rx s = true ↔ foundIn rx s.
Proof.
  unfold MatchString, foundIn. destruct (anchorBegin rx).
  - rewrite matchHere_spec. split.
    + intros (mid & post & E & L & P). by exists EmptyString, mid, post.
    + intros (pre & mid & post & E & L & B & P). rewrite (B eq_refl) in E.
      by exists mid, post.
  - rewrite matchSearch_spec. split.
    + intros (pre & mid & post & E & L & P). by exists pre, mid, post.
    + intros (pre & mid & post & E & L & _ & P). by exists pre, mid, post.
Qed.

Section EngineFacts.
Context `{GoLibrary}.
Variable os : OS.
Variable p : Processor.

Lemma matchLoop_first (fieldVal : string) (pre : list string) (v : string)
    (post : list string) (i : nat) :
  (∀ k u, pre !! k = Some u → matchOne p (i + k) u fieldVal = Some false) →
  matchOne p (i + length pre) v fieldVal = Some true →
  matchLoop p fieldVal i (pre ++ v :: post) = LoopHit (i + length pre) v.
Proof.
  revert i. induction pre as [|u pre IH]; intros i Hpre Hv; simpl.
  - rewrite Nat.add_0_r in *. by rewrite Hv.
  - specialize (Hpre 0%nat u eq_refl) as Hu. rewrite Nat.add_0_r in Hu. rewrite Hu.
    rewrite (IH (S i)).
    + f_equal. simpl. lia.
    + intros k u' Hk. replace (S i + k)%nat with (i + S k)%nat by lia.
      by apply Hpre.
    + replace (S i + length pre)%nat with (i + length (u :: pre))%nat by (simpl; lia).
      done.
Qed.

Lemma matchLoop_hit_inv (fieldVal : string) (vals : list string) (i j : nat) (v : string) :
  matchLoop p fieldVal i vals = LoopHit j v →
  ∃ pre post,
    vals = pre ++ v :: post ∧ j = (i + length pre)%nat ∧
    matchOne p j v fieldVal = Some true ∧
    ∀ k u, pre !! k = Some u → matchOne p (i + k) u fieldVal = Some false.
Proof.
  revert i. induction vals as [|u vals IH]; intros i; simpl; [done|].
  destruct (matchOne p i u fieldVal) as [[|]|] eqn:M; [| |done].
  - intros [= <- <-]. exists [], vals. simpl. rewrite Nat.add_0_r.
    split_and!; try done.
  - intros (pre & post & -> & -> & Hv & Hpre)%IH.
    exists (u :: pre), post. simpl. split_and!; try done; try lia.
    intros [|k] u' Hk; simpl in Hk.
    + injection Hk as <-. by rewrite Nat.add_0_r.
    + replace (i + S k)%nat with (S i + k)%nat by lia. by apply Hpre.
Qed.

Lemma write_other (file v line : string) (w : world) (name : string) :
  name ≠ outFileName p file v →
  files (write os p file v line w) !! name = files w !! name.
Proof.
  intros Hne. unfold write.
  destruct (os_openFails os _); [done|].
  destruct (os_writeFails os _ _) as [[n err]|]; simpl; by rewrite lookup_insert_ne.
Qed.

Lemma write_ok (file v line : string) (w : world) :
  os_openFails os (outFileName p file v) = None →
  os_writeFails os (outFileName p file v) (line +:+ newline) = None →
  write os p file v line w =
  mkWorld (<[outFileName p file v :=
             default EmptyString (files w !! outFileName p file v) +:+ line +:+ newline]>
             (files w))
          (logged w).
Proof. intros Ho Hw. unfold write. by rewrite Ho, Hw. Qed.
End EngineFacts.

(** ** The scheduler *)

Lemma count_insert {A} (f : A → bool) (l : list A) (i : nat) (x y : A) :
  l !! i = Some x →
  (length (filter (λ a, f a = true) (<[i:=y]> l)) + (if f x then 1 else 0) =
   length (filter (λ a, f a = true) l) + (if f y then 1 else 0))%nat.
Proof.
  revert i. induction l as [|a l IH]; intros [|i] Hi; simpl in *; try done.
  - injection Hi as ->. rewrite !filter_cons.
    repeat case_decide; destruct (f x), (f y); simpl; try done; lia.
  - rewrite !filter_cons. specialize (IH i Hi).
    case_decide; simpl; lia.
Qed.

Lemma count_snoc {A} (f : A → bool) (l : list A) (y : A) :
  length (filter (λ a, f a = true) (l ++ [y])) =
  (length (filter (λ a, f a = true) l) + (if f y then 1 else 0))%nat.
Proof.
  rewrite filter_app, length_app, filter_cons, filter_nil.
  case_decide; destruct (f y); simpl; try done; lia.
Qed.

Section SchedulerFacts.
Context `{GoLibrary}.
Variable os : OS.
Variable p : Processor.

(** A worker gives its slot back exactly when it leaves the states that
    hold one, and signals the wait group exactly when it ends. *)
Lemma workerStep_flags (flag : bool) (ws : workerState) (w : world) (m : workerMove) :
  workerStep os p flag ws w = Some m →
  holdsSlot (nextState m) = (holdsSlot ws && negb (released m)) ∧
  (released m = true → holdsSlot ws = true) ∧
  isDone ws = false ∧ isDone (nextState m) = finished m.
Proof.
  destruct ws as [file|file data|file line data|file pv|file]; simpl.
  - destruct (openInput _) as [[? ?]|?]; by intros [= <-].
  - destruct (bufio_Scan _ _); [destruct flag|..]; by intros [= <-].
  - destruct (processLine _ _ _ _ _) as [[] ?]; by intros [= <-].
  - by intros [= <-].
  - done.
Qed.

Lemma counted_init (f : list string) (log : list logRecord) : counted p (initState f log).
Proof. unfold counted, active, unfinished. simpl. split_and!; try done. lia. Qed.

Lemma counted_start (f : list string) (w : world) : counted p (startState f w).
Proof. unfold counted, active, unfinished. simpl. split_and!; try done. lia. Qed.

Lemma counted_step (a : action) (s s' : state) :
  counted p s → step os p a s = Some s' → counted p s'.
Proof.
  intros (Hsem & Hwg & Hle & Hsd). unfold counted, active, unfinished in *.
  destruct a; simpl.
  - destruct (pending s) as [|file rest]; [done|]. case_bool_decide; [|done].
    intros [= <-]. simpl. rewrite !count_snoc. simpl. split_and!; try done; lia.
  - destruct (pending s), (serveRet s); try done. case_bool_decide; [|done].
    by intros [= <-].
  - destruct (workers s !! i) as [ws|] eqn:Hi; [|done]. simpl.
    destruct (workerStep _ _ _ _ _) as [m|] eqn:Hm; [|done]. simpl.
    intros [= <-]. simpl.
    destruct (workerStep_flags _ _ _ _ Hm) as (Hh & Hr & Hd & Hf).
    pose proof (count_insert holdsSlot _ _ _ (nextState m) Hi) as C1.
    pose proof (count_insert (λ ws, negb (isDone ws)) _ _ _ (nextState m) Hi) as C2.
    simpl in C2. rewrite Hd, Hf in C2. rewrite Hh in C1.
    destruct (released m), (finished m), (holdsSlot ws); simpl in *;
      try (by specialize (Hr eq_refl)); split_and!; try done; lia.
  - destruct (shutdown s); try done. by intros [= <-].
  - intros [= <-]. simpl. by split_and!.
  - destruct (shutdown s) as [|[]|]; try done. case_bool_decide; [|done].
    intros [= <-]. simpl. split_and!; try done. intros _. by apply Hsd.
  - destruct (shutdown s) as [|[]|]; try done. intros [= <-]. simpl.
    split_and!; try done. intros _. by apply Hsd.
  - destruct (shutdown s) as [|?|]; try done. destruct (deadline s); [|done].
    intros [= <-]. simpl. split_and!; try done. intros _. by apply Hsd.
Qed.

Lemma counted_run (acts : list action) (s s' : state) :
  counted p s → run os p acts s = Some s' → counted p s'.
Proof.
  revert s. induction acts as [|a acts IH]; intros s Hs; simpl.
  - by intros [= <-].
  - destruct (step os p a s) as [s1|] eqn:Hstep; [|done]. simpl.
    apply IH. by eapply counted_step.
Qed.

Lemma counted_reachable (f : list string) (log : list logRecord) (s : state) :
  reachable os p f log s → counted p s.
Proof. intros [acts Hrun]. eapply counted_run; [apply counted_init|done]. Qed.
End SchedulerFacts.

Section SchedulerClaims.
Context `{GoLibrary}.
Variable os : OS.
Variable p : Processor.

Lemma step_worker_inv (i : nat) (s s' : state) :
  step os p (ActWorker i) s = Some s' →
  ∃ ws m,
    workers s !! i = Some ws ∧ workerStep os p (inShutdown s) ws (env s) = Some m ∧
    s' = mkState (inShutdown s) (pending s)
           (if released m then sem s - 1 else sem s)%Z
           (if finished m then wg s - 1 else wg s)%Z
           (<[i := nextState m]> (workers s)) (nextWorld m) (serveRet s)
           (deadline s) (shutdown s).
Proof.
  simpl. destruct (workers s !! i) as [ws|]; [|done]. simpl.
  destruct (workerStep _ _ _ _ _) as [m|] eqn:Hm; [|done]. simpl.
  intros [= <-]. by exists ws, m.
Qed.

(** C6: with [N >= 1] threads configured, no reachable state has more
    than [N] workers that hold an admission slot; the semaphore counts
    exactly these workers; a worker is admitted only while a slot is
    free, and a step of a worker gives the slot back exactly when the
    worker leaves the slot-holding states. *)
Theorem admission_bound (f : list string) (log : list logRecord) (s : state) :
  (1 ≤ Threads p)%Z →
  reachable os p f log s →
  (Z.of_nat (active s) ≤ Threads p)%Z ∧
  sem s = Z.of_nat (active s) ∧
  (∀ s', step os p ActAdmit s = Some s' →
         (Z.of_nat (active s) < Threads p)%Z ∧ active s' = S (active s)) ∧
  (∀ i s', step os p (ActWorker i) s = Some s' →
           active s' = active s ∨
           (S (active s') = active s ∧ sem s' = (sem s - 1)%Z ∧
            holdsSlot <$> workers s !! i = Some true ∧
            holdsSlot <$> workers s' !! i = Some false)).
Proof.
  intros HN Hr. pose proof (counted_reachable os p f log s Hr) as (Hsem & Hwg & Hle & _).
  split_and!; [lia|done|..].
  - intros s'. simpl. destruct (pending s) as [|file rest]; [done|].
    case_bool_decide; [|done]. intros [= <-]. unfold active. simpl.
    rewrite count_snoc. simpl. split; [|lia]. unfold active in Hsem. lia.
  - intros i s' (ws & m & Hi & Hm & ->)%step_worker_inv. unfold active. simpl.
    destruct (workerStep_flags _ _ _ _ _ _ Hm) as (Hh & Hrel & _).
    pose proof (count_insert holdsSlot _ _ _ (nextState m) Hi) as Hc.
    rewrite Hh in Hc.
    assert (i < length (workers s))%nat by by eapply lookup_lt_Some.
    destruct (released m).
    + right. rewrite (Hrel eq_refl) in *. simpl in Hc.
      rewrite Hi, list_lookup_insert_eq by done. simpl.
      rewrite Hh, (Hrel eq_refl). split_and!; try done. lia.
    + left. destruct (holdsSlot ws); simpl in Hc; lia.
Qed.

(** C7: a worker whose [Stat], [Open] or [zstd.NewReader] fails logs the
    failure and ends: it gives its slot back once (in the step that
    leaves [WAdmitted]), logs the recovered panic, signals the wait
    group, and never runs again; the other workers, the files still to
    be admitted, the output and the return of [Serve] are untouched. *)
Theorem file_failure_isolated (s : state) (i : nat) (file m err : string) :
  workers s !! i = Some (WAdmitted file) →
  openInput (os_input os file) = inl (m, err) →
  ∃ s1 s2,
    step os p (ActWorker i) s = Some s1 ∧
    step os p (ActWorker i) s1 = Some s2 ∧
    step os p (ActWorker i) s2 = None ∧
    workers s1 = <[i := WExiting file (Some err)]> (workers s) ∧
    workers s2 = <[i := WDone file]> (workers s) ∧
    sem s1 = (sem s - 1)%Z ∧ sem s2 = (sem s - 1)%Z ∧
    wg s1 = wg s ∧ wg s2 = (wg s - 1)%Z ∧
    logged (env s2) =
      logged (env s) ++
      [mkLog LevelError m [("path", file); ("err", err)];
       mkLog LevelError "panic recovered in worker" [("panic", err)]] ∧
    files (env s2) = files (env s) ∧
    pending s2 = pending s ∧ serveRet s2 = serveRet s ∧
    inShutdown s2 = inShutdown s ∧ shutdown s2 = shutdown s ∧
    (∀ j, j ≠ i → workers s2 !! j = workers s !! j) ∧
    (∀ a t t', step os p a t = Some t' →
               workers t !! i = Some (WDone file) →
               workers t' !! i = Some (WDone file) ∧
               (pending t' = pending t ∨ ∃ g, pending t = g :: pending t')).
Proof.
  intros Hi Ho.
  assert (i < length (workers s))%nat as Hlt by by eapply lookup_lt_Some.
  eexists _, _. split_and!.
  - simpl. rewrite Hi. simpl. rewrite Ho. simpl. reflexivity.
  - simpl. rewrite list_lookup_insert_eq by done. simpl. reflexivity.
  - simpl. rewrite list_lookup_insert_eq by (by rewrite length_insert). done.
  - done.
  - simpl. by rewrite list_insert_insert_eq.
  - done.
  - done.
  - done.
  - done.
  - simpl. by rewrite <- app_assoc.
  - done.
  - done.
  - done.
  - done.
  - done.
  - intros j Hj. simpl. by rewrite !list_lookup_insert_ne.
  - intros a t t' Hstep Hd. destruct a; simpl in Hstep.
    + destruct (pending t) as [|g rest] eqn:Hp; [done|]. case_bool_decide; [|done].
      injection Hstep as <-. simpl. split; [|by right; exists g].
      by apply lookup_app_l_Some.
    + destruct (pending t), (serveRet t); try done. case_bool_decide; [|done].
      injection Hstep as <-. simpl. by split; [|left].
    + apply step_worker_inv in Hstep as (ws & mv & Hj & Hm & ->). simpl.
      split; [|by left]. destruct (decide (i0 = i)) as [->|Hne].
      * rewrite Hd in Hj. injection Hj as <-. done.
      * by rewrite list_lookup_insert_ne.
    + destruct (shutdown t); try done. injection Hstep as <-. by split; [|left].
    + injection Hstep as <-. by split; [|left].
    + destruct (shutdown t) as [|[]|]; try done. case_bool_decide; [|done].
      injection Hstep as <-. by split; [|left].
    + destruct (shutdown t) as [|[]|]; try done. injection Hstep as <-.
      by split; [|left].
    + destruct (shutdown t) as [|?|]; try done. destruct (deadline t); [|done].
      injection Hstep as <-. by split; [|left].
Qed.
End SchedulerClaims.

Section ShutdownFacts.
Context `{GoLibrary}.
Variable os : OS.
Variable p : Processor.

(** Once the flag is read as set, no step of a worker leads into the
    body of the loop. *)
Lemma workerStep_shutdown (ws : workerState) (w : world) (m : workerMove) :
  workerStep os p true ws w = Some m → notMatching (nextState m).
Proof.
  destruct ws as [file|file data|file line data|file pv|file]; simpl.
  - destruct (openInput _) as [[? ?]|?]; by intros [= <-].
  - destruct (bufio_Scan _ _); by intros [= <-].
  - destruct (processLine _ _ _ _ _) as [[] ?]; by intros [= <-].
  - by intros [= <-].
  - done.
Qed.

(** Only the body of the loop touches the output directory. *)
Lemma workerStep_files (flag : bool) (ws : workerState) (w : world) (m : workerMove) :
  workerStep os p flag ws w = Some m → notMatching ws →
  files (nextWorld m) = files w.
Proof.
  destruct ws as [file|file data|file line data|file pv|file]; simpl; try done.
  - destruct (openInput _) as [[? ?]|?]; by intros [= <-].
  - destruct (bufio_Scan _ _); [destruct flag|..]; by intros [= <-].
  - destruct pv; by intros [= <-].
Qed.

Lemma isMatching_false (s : state) (i : nat) :
  isMatching s i = false ↔ ∀ ws, workers s !! i = Some ws → notMatching ws.
Proof.
  unfold isMatching. destruct (workers s !! i) as [[]|]; simpl; split; try done.
  - by intros _ ? [= <-].
  - by intros _ ? [= <-].
  - intros Hn. by destruct (Hn _ eq_refl).
  - by intros _ ? [= <-].
  - by intros _ ? [= <-].
Qed.

Lemma step_flag (a : action) (s s' : state) :
  step os p a s = Some s' → inShutdown s = true → inShutdown s' = true.
Proof.
  destruct a; simpl.
  - destruct (pending s); [done|]. case_bool_decide; [|done]. by intros [= <-].
  - destruct (pending s), (serveRet s); try done. case_bool_decide; [|done].
    by intros [= <-].
  - destruct (workers s !! i); [|done]. simpl.
    destruct (workerStep _ _ _ _ _); [|done]. by intros [= <-].
  - destruct (shutdown s); try done. by intros [= <-].
  - by intros [= <-].
  - destruct (shutdown s) as [|[]|]; try done. case_bool_decide; [|done].
    by intros [= <-].
  - destruct (shutdown s) as [|[]|]; try done. by intros [= <-].
  - destruct (shutdown s) as [|?|]; try done. destruct (deadline s); [|done].
    by intros [= <-].
Qed.

Lemma step_workers_other (a : action) (s s' : state) :
  step os p a s = Some s' → (∀ i, a ≠ ActWorker i) →
  env s' = env s ∧
  (workers s' = workers s ∨ ∃ file, workers s' = workers s ++ [WAdmitted file]).
Proof.
  destruct a; simpl; intros Hs Ha.
  - destruct (pending s) as [|file ?]; [done|]. case_bool_decide; [|done].
    injection Hs as <-. split; [done|]. right. by exists file.
  - destruct (pending s), (serveRet s); try done. case_bool_decide; [|done].
    injection Hs as <-. by split; [|left].
  - by destruct (Ha i).
  - destruct (shutdown s); try done. injection Hs as <-. by split; [|left].
  - injection Hs as <-. by split; [|left].
  - destruct (shutdown s) as [|[]|]; try done. case_bool_decide; [|done].
    injection Hs as <-. by split; [|left].
  - destruct (shutdown s) as [|[]|]; try done. injection Hs as <-. by split; [|left].
  - destruct (shutdown s) as [|?|]; try done. destruct (deadline s); [|done].
    injection Hs as <-. by split; [|left].
Qed.

Lemma action_cases (a : action) : (∃ j, a = ActWorker j) ∨ (∀ j, a ≠ ActWorker j).
Proof. destruct a; eauto. Qed.

(** After the flag is set, a worker that is not in the body of the loop
    does not get there, and one that is leaves it with its next step. *)
Lemma step_not_matching (a : action) (s s' : state) (i : nat) :
  step os p a s = Some s' → inShutdown s = true →
  isMatching s i = false ∨ a = ActWorker i →
  isMatching s' i = false.
Proof.
  intros Hstep Hflag Hi. apply isMatching_false. intros ws' Hws'.
  destruct (action_cases a) as [[j ->]|Hno].
  - apply step_worker_inv in Hstep as (ws & m & Hj & Hm & ->). simpl in Hws'.
    rewrite Hflag in Hm. destruct (decide (j = i)) as [->|Hne].
    + rewrite list_lookup_insert_eq in Hws' by by eapply lookup_lt_Some.
      injection Hws' as <-. by eapply workerStep_shutdown.
    + rewrite list_lookup_insert_ne in Hws' by done.
      destruct Hi as [Hi|Hi]; [|congruence]. by eapply isMatching_false.
  - destruct Hi as [Hi| ->]; [|by destruct (Hno i)].
    destruct (step_workers_other a s s' Hstep) as (_ & [Hw|[file Hw]]).
    + done.
    + rewrite Hw in Hws'. by eapply isMatching_false.
    + rewrite Hw in Hws'. apply lookup_app_Some in Hws' as [Hws'|[_ Hws']].
      * by eapply isMatching_false.
      * destruct (i - length (workers s))%nat; simpl in Hws'; [|done].
        by injection Hws' as <-.
Qed.

Lemma linesBy_shutdown (i : nat) (acts : list action) (s : state) :
  inShutdown s = true →
  (linesBy os p i acts s ≤ if isMatching s i then 1 else 0)%nat.
Proof.
  revert s. induction acts as [|a acts IH]; intros s Hflag; simpl; [lia|].
  destruct (step os p a s) as [s'|] eqn:Hstep; [|lia].
  pose proof (IH s' (step_flag _ _ _ Hstep Hflag)) as IH'.
  assert (linesBy os p i acts s' ≤ 1)%nat by (destruct (isMatching s' i); lia).
  destruct (isMatching s i) eqn:Hm.
  - destruct a; try (simpl; lia). case_bool_decide as Hj; simpl; [|lia].
    subst i0. rewrite (step_not_matching _ _ _ i Hstep Hflag) in IH'; [lia|by right].
  - rewrite (step_not_matching _ _ _ i Hstep Hflag) in IH'; [|by left].
    destruct a; try (simpl; lia). rewrite andb_false_r. lia.
Qed.

Lemma step_files (a : action) (s s' : state) :
  step os p a s = Some s' → files (env s') ≠ files (env s) →
  ∃ i, a = ActWorker i ∧ isMatching s i = true.
Proof.
  intros Hstep Hne. destruct (action_cases a) as [[j ->]|Hno].
  - exists j. split; [done|].
    apply step_worker_inv in Hstep as (ws & m & Hj & Hm & ->). simpl in Hne.
    unfold isMatching. rewrite Hj. destruct ws; try done;
      destruct Hne; by eapply workerStep_files.
  - destruct (step_workers_other a s s' Hstep) as (He & _); [done|].
    by rewrite He in Hne.
Qed.


Lemma doneClosed_step (a : action) (s s' : state) :
  step os p a s = Some s' → ¬ doneClosed s → doneClosed s' →
  shutdown s = Waiting false ∧ wg s = 0%Z.
Proof.
  unfold doneClosed. intros Hstep Hopen Hclosed. destruct a; simpl in Hstep.
  - destruct (pending s); [done|]. case_bool_decide; [|done].
    injection Hstep as <-. by destruct Hopen.
  - destruct (pending s), (serveRet s); try done. case_bool_decide; [|done].
    injection Hstep as <-. by destruct Hopen.
  - apply step_worker_inv in Hstep as (? & ? & _ & _ & ->). by destruct Hopen.
  - destruct (shutdown s); try done. injection Hstep as <-. simpl in Hclosed.
    by destruct Hclosed.
  - injection Hstep as <-. by destruct Hopen.
  - destruct (shutdown s) as [|[]|]; try done. by case_bool_decide.
  - destruct (shutdown s) as [|[]|]; try done. destruct Hopen. by left.
  - destruct (shutdown s) as [|?|]; try done. destruct (deadline s); [|done].
    injection Hstep as <-. simpl in Hclosed. by destruct Hclosed.
Qed.

(** [done] is closed only after a moment, behind the store of the flag,
    at which every worker admitted so far had run to its end. *)
Lemma doneClosed_history (acts : list action) (s0 s : state) :
  counted p s0 → run os p acts s0 = Some s → ¬ doneClosed s0 → doneClosed s →
  ∃ acts1 acts2 s1,
    acts = acts1 ++ acts2 ∧ run os p acts1 s0 = Some s1 ∧
    inShutdown s1 = true ∧ unfinished s1 = 0%nat.
Proof.
  revert s0. induction acts as [|a acts IH]; intros s0 Hc; simpl.
  - by intros [= <-].
  - destruct (step os p a s0) as [s0'|] eqn:Hstep; [|done]. simpl.
    intros Hrun Hopen Hclosed.
    assert (doneClosed s0' ∨ ¬ doneClosed s0') as [Hc'|Hc'].
    { unfold doneClosed. destruct (shutdown s0') as [|[|]|[e|]];
        try (by left; left); try (by left; right); right; intros [?|?]; congruence. }
    + destruct (doneClosed_step a s0 s0' Hstep Hopen Hc') as [Hw Hwg].
      destruct Hc as (_ & Hwg' & _ & Hsd).
      exists [], (a :: acts), s0. split_and!; try done.
      * apply Hsd. by rewrite Hw.
      * lia.
    + destruct (IH s0' (counted_step os p a s0 s0' Hc Hstep) Hrun Hc' Hclosed)
        as (acts1 & acts2 & s1 & -> & Hrun1 & Hflag & Hun).
      exists (a :: acts1), acts2, s1. split_and!; try done.
      simpl. by rewrite Hstep.
Qed.

Lemma timedOut_step (a : action) (s s' : state) :
  timedOut s → step os p a s = Some s' → timedOut s'.
Proof.
  unfold timedOut. intros Ht. destruct a; simpl.
  - destruct (pending s); [done|]. case_bool_decide; [|done]. by intros [= <-].
  - destruct (pending s), (serveRet s); try done. case_bool_decide; [|done].
    by intros [= <-].
  - intros (? & ? & _ & _ & ->)%step_worker_inv. done.
  - destruct (shutdown s); try done. by intros [= <-].
  - intros [= <-] e He. simpl in *. split; [|done]. by apply Ht.
  - destruct (shutdown s) as [|[]|]; try done. case_bool_decide; [|done].
    by intros [= <-].
  - destruct (shutdown s) as [|[]|]; try done. by intros [= <-].
  - destruct (shutdown s) as [|?|]; try done. destruct (deadline s) eqn:Hd; [|done].
    intros [= <-] e. simpl. by intros [= <-].
Qed.

Lemma timedOut_run (acts : list action) (s s' : state) :
  timedOut s → run os p acts s = Some s' → timedOut s'.
Proof.
  revert s. induction acts as [|a acts IH]; intros s Hs; simpl.
  - by intros [= <-].
  - destruct (step os p a s) as [s1|] eqn:Hstep; [|done]. simpl.
    apply IH. by eapply timedOut_step.
Qed.

(** C1, as the code has it: the flag, once stored, stays set; admission
    does not read it, so the next file is admitted whenever a slot is
    free; from then on a worker matches and writes at most the line
    whose check it had already passed, and every other worker, admitted
    before or after, matches no line at all; the output directory
    changes in such steps only.  [Shutdown] returns [nil] only after a moment, behind the store
    of the flag, at which every worker admitted so far had ended, and it
    returns the context's error only after the deadline; once the
    counter of the wait group is zero the return of [nil] is enabled,
    and before the deadline it is the only one. *)
Theorem shutdown_is_cooperative :
  (∀ a s s', step os p a s = Some s' → inShutdown s = true → inShutdown s' = true) ∧
  (∀ s file rest, pending s = file :: rest → (sem s + 1 ≤ Threads p)%Z →
     ∃ s', step os p ActAdmit s = Some s' ∧
           workers s' = workers s ++ [WAdmitted file] ∧
           inShutdown s' = inShutdown s) ∧
  (∀ i acts s, inShutdown s = true →
     (linesBy os p i acts s ≤ if isMatching s i then 1 else 0)%nat) ∧
  (∀ a s s', step os p a s = Some s' → files (env s') ≠ files (env s) →
     ∃ i, a = ActWorker i ∧ isMatching s i = true) ∧
  (∀ f log acts s, run os p acts (initState f log) = Some s →
     (shutdown s = Returned None →
      ∃ acts1 acts2 s1,
        acts = acts1 ++ acts2 ∧ run os p acts1 (initState f log) = Some s1 ∧
        inShutdown s1 = true ∧ unfinished s1 = 0%nat) ∧
     (∀ e, shutdown s = Returned (Some e) →
        e = DeadlineExceeded ∧ deadline s = true)) ∧
  (∀ s, shutdown s = Waiting false → wg s = 0%Z →
     ∃ s', run os p [ActWaitDone; ActSelectDone] s = Some s' ∧
           shutdown s' = Returned None) ∧
  (∀ s, deadline s = false → step os p ActSelectCtx s = None).
Proof.
  split_and!.
  - apply step_flag.
  - intros s file rest Hp Hfree. simpl. rewrite Hp, bool_decide_true by done.
    by eexists.
  - intros i acts s. apply linesBy_shutdown.
  - apply step_files.
  - intros f log acts s Hrun. split.
    + intros Hret. eapply doneClosed_history; [apply counted_init|done|..].
      * unfold doneClosed. simpl. by intros [?|?].
      * by right.
    + eapply timedOut_run; [|done]. by intros e.
  - intros s Hw Hwg. simpl. rewrite Hw. rewrite bool_decide_true by done. simpl.
    eexists. split; [reflexivity|done].
  - intros s Hd. simpl. rewrite Hd. by destruct (shutdown s).
Qed.
End ShutdownFacts.

(** ** The scanner *)


Lemma dropCR_length (data : string) : (String.length (dropCR data) ≤ String.length data)%nat.
Proof.
  induction data as [|c [|d data] IH]; simpl in *; [lia| |lia].
  destruct (Ascii.eqb c "013"); simpl; lia.
Qed.

Lemma cutNewline_length (data l r : string) :
  cutNewline data = Some (l, r) →
  String.length data = S (String.length l + String.length r).
Proof.
  revert l. induction data as [|c data IH]; intros l; simpl; [done|].
  destruct (Ascii.eqb c "010").
  - by intros [= <- <-].
  - destruct (cutNewline data) as [[l' r']|]; [|done].
    intros [= <- <-]. simpl. by rewrite (IH l' eq_refl).
Qed.

Lemma cutNewline_repeat (n : nat) (c : ascii) :
  Ascii.eqb c "010" = false → cutNewline (repeatByte n c) = None.
Proof. intros Hc. induction n as [|n IH]; simpl; [done|]. by rewrite Hc, IH. Qed.

Lemma repeatByte_length (n : nat) (c : ascii) : String.length (repeatByte n c) = n.
Proof. induction n as [|n IH]; simpl; [done|]. by rewrite IH. Qed.

Lemma bufio_Scan_token (max : N) (data l rest : string) :
  bufio_Scan max data = ScanToken l rest →
  (N.of_nat (String.length l) < max)%N ∧
  (String.length rest < String.length data)%nat.
Proof.
  unfold bufio_Scan. destruct data as [|c data]; [done|].
  destruct (cutNewline (String c data)) as [[l' r']|] eqn:Hcut.
  - destruct (N.ltb_spec (N.of_nat (String.length l')) max); [|done].
    intros [= <- <-]. apply cutNewline_length in Hcut.
    pose proof (dropCR_length l'). split; lia.
  - destruct (N.ltb_spec (N.of_nat (String.length (String c data))) max); [|done].
    intros [= <- <-]. pose proof (dropCR_length (String c data)). simpl in *.
    split; lia.
Qed.

Lemma bufio_Scan_unterminated (max : N) (data : string) :
  cutNewline data = None → (0 < max)%N → (max ≤ N.of_nat (String.length data))%N →
  bufio_Scan max data = ScanTooLong.
Proof.
  intros Hcut Hpos Hlen. unfold bufio_Scan. rewrite Hcut.
  destruct data; [simpl in Hlen; lia|].
  destruct (N.ltb_spec (N.of_nat (String.length (String a data))) max); [lia|done].
Qed.

(** Base name, extension and stem of a path *)

Lemma strings_HasSuffix_app (s suf : string) : strings_HasSuffix (s +:+ suf) suf = true.
Proof.
  induction s as [|c s IH]; simpl.
  - destruct suf; simpl; [done|]. by rewrite Ascii.eqb_refl, String.eqb_refl.
  - rewrite IH. by rewrite orb_true_r.
Qed.

Lemma strings_TrimSuffix_app (s suf : string) : strings_TrimSuffix (s +:+ suf) suf = s.
Proof.
  induction s as [|c s IH].
  - simpl. destruct suf; simpl; [done|]. by rewrite Ascii.eqb_refl, String.eqb_refl.
  - simpl append. cbn [strings_TrimSuffix].
    destruct (String.eqb_spec (String c (s +:+ suf)) suf) as [Heq|_].
    + apply (f_equal String.length) in Heq. simpl in Heq.
      rewrite append_length in Heq. lia.
    + by rewrite strings_HasSuffix_app, IH.
Qed.

Lemma ext_scan_none (e : string) :
  hasDot e = false → hasSeparator e = false → ext_scan e = None.
Proof.
  induction e as [|c e IH]; simpl; [done|].
  intros [Hc Hd]%orb_false_iff [Hs Hsep]%orb_false_iff.
  by rewrite IH, Hc, Hs.
Qed.

Lemma ext_scan_app (pre x e : string) :
  ext_scan x = Some e → ext_scan (pre +:+ x) = Some e.
Proof. intros Hx. induction pre as [|c pre IH]; simpl; [done|by rewrite IH]. Qed.

Lemma filepath_Ext_dot (pre e : string) :
  hasDot e = false → hasSeparator e = false →
  filepath_Ext (pre +:+ String "." e) = String "." e.
Proof.
  intros Hd Hs. unfold filepath_Ext.
  rewrite (ext_scan_app pre _ (String "." e)); [done|].
  simpl. by rewrite ext_scan_none.
Qed.

Lemma hasSeparator_app (a b : string) :
  hasSeparator (a +:+ b) = hasSeparator a || hasSeparator b.
Proof. induction a as [|c a IH]; simpl; [done|]. by rewrite IH, orb_assoc. Qed.

Lemma strip_plain (nm : string) :
  hasSeparator nm = false → stripTrailingSeparators nm = nm.
Proof.
  induction nm as [|c nm IH]; simpl; [done|].
  intros [Hc Hs]%orb_false_iff. rewrite IH by done. rewrite Hc. by destruct nm.
Qed.

Lemma strip_app (a nm : string) :
  hasSeparator nm = false → nm ≠ EmptyString →
  stripTrailingSeparators (a +:+ nm) = a +:+ nm.
Proof.
  intros Hs Hne. induction a as [|c a IH]; simpl.
  - by apply strip_plain.
  - rewrite IH. destruct (a +:+ nm) eqn:Ha; [|done].
    apply append_eq_empty in Ha as [_ ->]. done.
Qed.

Lemma lastElement_app (dir nm : string) :
  hasSeparator nm = false →
  lastElement (dir +:+ String "/" nm) = nm.
Proof.
  intros Hs. induction dir as [|c dir IH]; simpl.
  - by rewrite Hs.
  - rewrite hasSeparator_app. simpl. by rewrite orb_true_r.
Qed.

Lemma filepath_Base_app (dir nm : string) :
  hasSeparator nm = false → nm ≠ EmptyString →
  filepath_Base (dir +:+ String "/" nm) = nm.
Proof.
  intros Hs Hne. unfold filepath_Base.
  replace (dir +:+ String "/" nm) with ((dir +:+ String "/" EmptyString) +:+ nm)
    by (by rewrite append_assoc).
  rewrite strip_app by done.
  replace ((dir +:+ String "/" EmptyString) +:+ nm) with (dir +:+ String "/" nm)
    by (by rewrite append_assoc).
  rewrite lastElement_app by done.
  destruct (dir +:+ String "/" nm) eqn:Hd.
  - by apply append_eq_empty in Hd as [_ ?].
  - by destruct nm.
Qed.

Lemma takeBytes_prefix (n : nat) (s : string) : ∃ rest, s = takeBytes n s +:+ rest.
Proof.
  revert s. induction n as [|n IH]; intros [|c s]; simpl; try by eexists.
  destruct (IH s) as [rest Hrest]. exists rest. by rewrite <- Hrest.
Qed.

Section LineClaims.
Context `{GoLibrary}.
Variable os : OS.
Variable p : Processor.

Lemma longLine_too_long (k : nat) :
  bufio_Scan maxTokenSize (longLine k) = ScanTooLong.
Proof.
  unfold longLine. apply bufio_Scan_unterminated.
  - by apply cutNewline_repeat.
  - done.
  - rewrite repeatByte_length. unfold maxTokenSize. lia.
Qed.

(** C2, what the code does: every token the scanner hands out is shorter
    than [maxTokenSize] and leaves less input behind; on a stream with a
    line of [maxTokenSize] bytes or more [Scan] returns false with
    [ErrTooLong], and the worker, which never looks at [scanner.Err()],
    leaves its loop exactly as at the end of the input: it logs nothing
    and reports nothing. *)
Theorem too_long_line_is_silent (flag : bool) (file : string) (w : world) (k : nat) :
  (∀ data l rest, bufio_Scan maxTokenSize data = ScanToken l rest →
     (N.of_nat (String.length l) < maxTokenSize)%N ∧
     (String.length rest < String.length data)%nat) ∧
  bufio_Scan maxTokenSize (longLine k) = ScanTooLong ∧
  workerStep os p flag (WScanning file (longLine k)) w =
    Some (mkMove (WExiting file None) w true false) ∧
  workerStep os p flag (WScanning file (longLine k)) w =
    workerStep os p flag (WScanning file EmptyString) w ∧
  workerStep os p flag (WExiting file None) w =
    Some (mkMove (WDone file) w false true).
Proof.
  split_and!.
  - intros data l rest. apply bufio_Scan_token.
  - apply longLine_too_long.
  - unfold workerStep. by rewrite longLine_too_long.
  - unfold workerStep. by rewrite longLine_too_long.
  - done.
Qed.

(** C3: when the first candidate, in configured order, that matches the
    field value is [v], the sink is called once, for [v]: no output file
    other than the one of [v] changes, whatever candidates behind [v]
    match as well, and that file receives the line and a newline when
    the operating system accepts the write. *)
Theorem first_candidate_wins (file line : string) (w : world)
    (pre : list string) (v : string) (post : list string) :
  let fieldVal := jsoniter_Get_ToString line (Field p) in
  line ≠ EmptyString → fieldVal ≠ EmptyString →
  Values p = pre ++ v :: post →
  (∀ k u, pre !! k = Some u → matchOne p k u fieldVal = Some false) →
  matchOne p (length pre) v fieldVal = Some true →
  processLine os p file line w =
    (Evaluated (S (length pre)) (Some v), write os p file v line w) ∧
  (∀ name, name ≠ outFileName p file v →
     files (processLine os p file line w).2 !! name = files w !! name) ∧
  (os_openFails os (outFileName p file v) = None →
   os_writeFails os (outFileName p file v) (line +:+ newline) = None →
   files (processLine os p file line w).2 !! outFileName p file v =
     Some (default EmptyString (files w !! outFileName p file v) +:+ line +:+ newline)).
Proof.
  intros fieldVal Hline Hfield Hvals Hpre Hv.
  assert (processLine os p file line w =
          (Evaluated (S (length pre)) (Some v), write os p file v line w)) as Hp.
  { unfold processLine. destruct line as [|c line]; [done|]. simpl String.length.
    simpl Nat.eqb. fold fieldVal.
    destruct (String.eqb_spec fieldVal EmptyString) as [E|_]; [done|].
    rewrite Hvals, (matchLoop_first p fieldVal pre v post 0); done. }
  rewrite Hp. simpl. split_and!; [done|..].
  - intros name Hname. by apply write_other.
  - intros Ho Hw. rewrite write_ok by done. simpl. apply lookup_insert_eq.
Qed.

Lemma compileAll_lookup (vals : list string) (res : list Regexp) (i : nat) (v : string) :
  compileAll vals = Some res → vals !! i = Some v →
  ∃ rx, regexp_Compile v = Some rx ∧ res !! i = Some rx.
Proof.
  revert res i. induction vals as [|u vals IH]; intros res i; simpl; [done|].
  destruct (regexp_Compile u) as [rx|] eqn:Hu; [|done]. simpl.
  destruct (compileAll vals) as [res'|]; [|done]. simpl. intros [= <-].
  destruct i as [|i]; simpl.
  - intros [= <-]. by exists rx.
  - by apply IH.
Qed.

(** C4, as the code has it.  On ASCII text a candidate matches in exact
    mode iff it equals the field value up to the case of letters, and in
    partial mode iff the field value contains it up to case.  On every
    text exact mode is [strings.EqualFold], partial mode holds iff the
    lower-cased candidate occurs in the lower-cased field value, and
    regex mode holds iff the compiled pattern is found somewhere in the
    field value, at any position and without having to cover it; the
    pattern at index [i] is the one [ProcessAndServe] compiled from
    candidate [i]. *)
Theorem match_modes (i : nat) (val fieldVal : string) :
  (MatchMode p = "exact" →
     ∃ b, matchOne p i val fieldVal = Some b ∧
          b = strings_EqualFold fieldVal val ∧
          (isASCII fieldVal = true → isASCII val = true →
           (b = true ↔ equalIgnoringCase fieldVal val))) ∧
  (MatchMode p = "partial" →
     ∃ b, matchOne p i val fieldVal = Some b ∧
          (b = true ↔
           ∃ pre post,
             strings_ToLower fieldVal = pre +:+ strings_ToLower val +:+ post) ∧
          (isASCII fieldVal = true → isASCII val = true →
           (b = true ↔ containsIgnoringCase fieldVal val))) ∧
  (MatchMode p = "regex" → ∀ rx, ValuesRegex p !! i = Some rx →
     ∃ b, matchOne p i val fieldVal = Some b ∧ (b = true ↔ foundIn rx fieldVal)) ∧
  (∀ p0, compilePatterns p0 = Some p → MatchMode p0 = "regex" → ValuesRegex p0 = [] →
     Values p !! i = Some val →
     ∃ rx, regexp_Compile val = Some rx ∧ ValuesRegex p !! i = Some rx).
Proof.
  unfold matchOne. split_and!.
  - intros ->. simpl. eexists. split_and!; [done|done|].
    intros Hf Hv. by apply strings_EqualFold_ASCII.
  - intros ->. simpl. eexists. split_and!; [done|apply strings_Contains_spec|].
    intros Hf Hv. rewrite !strings_ToLower_ASCII by done. apply strings_Contains_lower.
  - intros -> rx ->. simpl. eexists. split; [done|]. apply MatchString_spec.
  - intros p0. unfold compilePatterns. intros Hc Hm Hnil. rewrite Hm in Hc. simpl in Hc.
    destruct (compileAll (Values p0)) as [res|] eqn:Hres; [|done].
    injection Hc as <-. simpl. rewrite Hnil. simpl. by apply compileAll_lookup.
Qed.

Lemma processLine_hit (file line : string) (w : world) (n : nat) (v : string) :
  (processLine os p file line w).1 = Evaluated n (Some v) →
  (processLine os p file line w).2 = write os p file v line w.
Proof.
  unfold processLine. destruct (String.length line =? 0)%nat; [done|].
  destruct (String.eqb _ _); [done|].
  destruct (matchLoop _ _ _ _); simpl; try done. by intros [= _ <-].
Qed.

(** C8, as the code has it: [write] touches no file but the one named
    for the stem of the input file and the value, which for an input
    [dir/stem.ext] is [stem_v.ndjson] in the output directory.  When the
    file can be opened and written it ends with the old content, the
    line and one newline.  When the open fails the directory stays as it
    was.  When the write fails the file ends with the old content and
    the bytes that were written before the error, some first bytes of
    the line and never its newline; it is as before when none was
    written.  Either failure logs one warning, and in every case the
    worker goes on with the rest of its file. *)
Theorem write_appends_or_drops (file v line : string) (w : world) :
  let name := outFileName p file v in
  let w' := write os p file v line w in
  (∀ dir stem ext,
     file = dir +:+ "/" +:+ stem +:+ "." +:+ ext →
     hasSeparator stem = false → hasSeparator ext = false → hasDot ext = false →
     name = filepath_Join (Output p) (stem +:+ "_" +:+ v +:+ ".ndjson")) ∧
  (∀ other, other ≠ name → files w' !! other = files w !! other) ∧
  (os_openFails os name = None → os_writeFails os name (line +:+ newline) = None →
     files w' !! name =
       Some (default EmptyString (files w !! name) +:+ line +:+ newline) ∧
     logged w' = logged w) ∧
  (∀ err, os_openFails os name = Some err →
     files w' = files w ∧
     logged w' = logged w ++
       [mkLog LevelWarn "failed to open output file" [("path", name); ("err", err)]]) ∧
  (∀ n err, os_openFails os name = None →
     os_writeFails os name (line +:+ newline) = Some (n, err) →
     files w' !! name =
       Some (default EmptyString (files w !! name) +:+ takeBytes n line) ∧
     (∃ rest, line = takeBytes n line +:+ rest) ∧
     (n = 0%nat →
      default EmptyString (files w' !! name) = default EmptyString (files w !! name)) ∧
     logged w' = logged w ++
       [mkLog LevelWarn "failed to write to output file" [("path", name); ("err", err)]]) ∧
  (∀ flag rest n, (processLine os p file line w).1 = Evaluated n (Some v) →
     (processLine os p file line w).2 = w' ∧
     workerStep os p flag (WMatching file line rest) w =
       Some (mkMove (WScanning file rest) w' false false)).
Proof.
  intros name w'. subst w'. split_and!.
  - intros dir stem ext -> Hstem Hext Hdot. subst name. unfold outFileName. f_equal.
    assert (hasSeparator (stem +:+ String "." ext) = false) as Hnm.
    { rewrite hasSeparator_app. simpl. by rewrite Hstem, Hext. }
    change (dir +:+ "/" +:+ stem +:+ "." +:+ ext)
      with (dir +:+ String "/" (stem +:+ String "." ext)).
    rewrite filepath_Base_app; [|done|by destruct stem].
    replace (dir +:+ String "/" (stem +:+ String "." ext))
      with ((dir +:+ String "/" stem) +:+ String "." ext)
      by (by rewrite append_assoc).
    rewrite filepath_Ext_dot by done.
    by rewrite strings_TrimSuffix_app.
  - intros other Hne. by apply write_other.
  - intros Ho Hw. rewrite write_ok by done. simpl. split; [|done].
    apply lookup_insert_eq.
  - intros err Ho. unfold write. fold name. by rewrite Ho.
  - intros n err Ho Hw. unfold write. fold name. rewrite Ho, Hw. simpl.
    rewrite lookup_insert_eq. split_and!; [done|apply takeBytes_prefix| |done].
    intros ->. simpl. by rewrite append_empty_r.
  - intros flag rest n Hhit. pose proof (processLine_hit file line w n v Hhit) as Hw.
    split; [done|]. simpl. rewrite <- Hw.
    destruct (processLine os p file line w) as [o w1]. simpl in *. by rewrite Hhit.
Qed.
End LineClaims.

(** ** Discovery *)

Lemma fsNode_nested_ind (P : fsNode → Prop) :
  (∀ name kind, P (NodeFile name kind)) →
  (∀ name entries, Forall P entries → P (NodeDir name entries)) →
  (∀ name err, P (NodeDirUnreadable name err)) →
  (∀ name err, P (NodeLstatFail name err)) →
  ∀ n, P n.
Proof.
  intros Hfile Hdir Hunr Hfail. fix IH 1. intros [name kind|name entries|name err|name err].
  - apply Hfile.
  - apply Hdir. induction entries as [|e entries IHes]; constructor; [apply IH|done].
  - apply Hunr.
  - apply Hfail.
Qed.

Section DiscoveryFacts.
Context `{GoLibrary}.
Variable p : Processor.

Lemma extend_nil (acc : found) : extend acc [] = acc.
Proof. destruct acc. unfold extend. simpl. by rewrite !app_nil_r. Qed.

Lemma extend_app (acc : found) (a b : list string) :
  extend (extend acc a) b = extend acc (a ++ b).
Proof. unfold extend. simpl. by rewrite fmap_app, !app_assoc. Qed.

(** On a tree that can be read the walk ends without an error and has
    added the eligible entries, in order. *)
Lemma walk_errorFree (n : fsNode) :
  ∀ path acc, errorFree n = true →
    walk p path n acc = (None, extend acc (selected p path n)).
Proof.
  induction n as [name kind|name entries IH|name err|name err] using fsNode_nested_ind;
    intros path acc Hok; try done.
  - simpl. unfold walkFn. simpl.
    destruct (String.eqb (filepath_Ext name) ".zst"); simpl; [|by rewrite extend_nil].
    destruct (MatchString (FileFilter p) name); simpl; [done|by rewrite extend_nil].
  - simpl. change (walkNames p path entries acc = (None, extend acc (selectedEach p path entries))).
    simpl in Hok. change (errorFreeAll entries = true) in Hok.
    revert acc. induction IH as [|e entries He _ IHes]; intros acc; simpl.
    + by rewrite extend_nil.
    + simpl in Hok. apply andb_prop in Hok as [Hok1 Hok2].
      rewrite (He _ _ Hok1), (IHes Hok2). by rewrite extend_app.
Qed.

(** A failing [Lstat] or directory listing ends the walk with an error. *)
Lemma walk_error (n : fsNode) :
  ∀ path acc, errorFree n = false → ∃ e acc', walk p path n acc = (Some e, acc').
Proof.
  induction n as [name kind|name entries IH|name err|name err] using fsNode_nested_ind;
    intros path acc Hbad; try done.
  - simpl. change (∃ e acc', walkNames p path entries acc = (Some e, acc')).
    simpl in Hbad. change (errorFreeAll entries = false) in Hbad.
    revert acc. induction IH as [|e entries He _ IHes]; intros acc; simpl; [done|].
    simpl in Hbad. destruct (errorFree e) eqn:Hoke.
    + rewrite (walk_errorFree e _ _ Hoke). by apply IHes.
    + destruct (He (filepath_Join path (nodeName e)) acc eq_refl) as (err & acc' & ->).
      by exists err, acc'.
  - simpl. by exists err, acc.
  - simpl. by exists err, acc.
Qed.

(** The selected paths are those of the eligible entries of the tree. *)
Lemma selected_spec (n : fsNode) :
  ∀ path q, q ∈ selected p path n ↔ ∃ m, entryAt path n q m ∧ eligible p m = true.
Proof.
  induction n as [name kind|name entries IH|name err|name err] using fsNode_nested_ind;
    intros path q.
  - simpl. split.
    + destruct (_ && _) eqn:E; [|by intros ?%elem_of_nil].
      intros ->%list_elem_of_singleton. eexists. split; [constructor|done].
    + intros (m & Hat & Hm). inversion Hat; subst. simpl in Hm. rewrite Hm.
      by apply list_elem_of_singleton.
  - simpl. change (q ∈ selectedEach p path entries ↔ ∃ m, entryAt path (NodeDir name entries) q m ∧ eligible p m = true).
    split.
    + intros Hq. induction IH as [|e entries He _ IHes]; simpl in Hq.
      * by apply elem_of_nil in Hq.
      * apply elem_of_app in Hq as [Hq|Hq].
        -- apply He in Hq as (m & Hat & Hm). exists m. split; [|done].
           eapply EntryBelow; [|done]. by left.
        -- destruct (IHes Hq) as (m & Hat & Hm). exists m. split; [|done].
           inversion Hat; subst; [done|]. eapply EntryBelow; [|done]. by right.
    + intros (m & Hat & Hm). inversion Hat as [|? ? ? e ? ? Hin Hbelow]; subst; [done|].
      clear Hat. induction IH as [|e' entries He _ IHes]; [by apply elem_of_nil in Hin|].
      simpl. apply elem_of_app. apply elem_of_cons in Hin as [->|Hin].
      * left. apply He. by exists m.
      * right. by apply IHes.
  - simpl. split; [by intros ?%elem_of_nil|].
    intros (m & Hat & Hm). by inversion Hat; subst.
  - simpl. split; [by intros ?%elem_of_nil|].
    intros (m & Hat & Hm). by inversion Hat; subst.
Qed.

Lemma compilePatterns_keeps (p' : Processor) :
  compilePatterns p = Some p' →
  Input p' = Input p ∧ FileFilter p' = FileFilter p ∧ Values p' = Values p ∧
  Threads p' = Threads p ∧ Output p' = Output p ∧ Field p' = Field p ∧
  MatchMode p' = MatchMode p.
Proof.
  unfold compilePatterns. destruct (String.eqb _ _).
  - destruct (compileAll _); [|done]. by intros [= <-].
  - by intros [= <-].
Qed.
End DiscoveryFacts.

Section DiscoveryClaim.
Context `{GoLibrary}.
Variable p : Processor.

(** C9, as the code has it: discovery visits every entry under the
    input root and selects exactly the entries that are not directories
    (regular files, and symbolic links and special files as well), whose
    extension is [.zst] and whose name the filter pattern is found in; a
    failing [Lstat] or directory listing makes [ProcessAndServe] return
    the error without calling [Serve]; with nothing selected it logs a
    warning and returns [nil], again without calling [Serve]. *)
Theorem discovery_selects (root : fsNode) (log : list logRecord) (p' : Processor) :
  compilePatterns p = Some p' →
  (∀ m, eligible p' m = true ↔
        ∃ name kind, m = NodeFile name kind ∧ filepath_Ext name = ".zst" ∧
                     MatchString (FileFilter p) name = true) ∧
  (∀ q, q ∈ selected p' (Input p) root ↔
        ∃ m, entryAt (Input p) root q m ∧ eligible p' m = true) ∧
  (errorFree root = true →
     ProcessAndServe p false root log =
       match selected p' (Input p) root with
       | [] => ReturnNil (log ++ [mkLog LevelWarn "no input files found in input folder"
                                    [("input", Input p)]])
       | f => CallServe p' f (log ++ (foundLog <$> f))
       end) ∧
  (errorFree root = false →
     ∃ e log', ProcessAndServe p false root log = ReturnErr e log').
Proof.
  intros Hc. destruct (compilePatterns_keeps p p' Hc) as (HI & HF & _).
  split_and!.
  - intros [name kind| | |]; simpl; [|split; [done|by intros (? & ? & ? & _)]..].
    rewrite HF, andb_true_iff. split.
    + intros [E ?]. apply String.eqb_eq in E. by exists name, kind.
    + intros (? & ? & [= <- <-] & -> & ?). done.
  - intros q. apply selected_spec.
  - intros Hok. unfold ProcessAndServe. rewrite Hc, HI.
    rewrite (walk_errorFree p' root _ _ Hok). unfold extend. simpl.
    destruct (selected p' (Input p) root); simpl; [|done]. by rewrite app_nil_r.
  - intros Hbad. unfold ProcessAndServe. rewrite Hc.
    destruct (walk_error p' root (Input p') ([], log) Hbad) as (e & [f log'] & ->).
    by exists e, log'.
Qed.
End DiscoveryClaim.

(** ** The JSON iterator *)

Lemma isPlainByte_not_space (c : ascii) :
  isPlainByte c = true →
  Ascii.eqb c dquote = false ∧ Ascii.eqb c "\" = false ∧ (byte_of c <? 32)%N = false.
Proof.
  unfold isPlainByte. intros [[H1 H2]%andb_prop H3]%andb_prop.
  apply negb_true_iff in H1, H2. apply N.leb_le in H3.
  split_and!; try done. apply N.ltb_ge. done.
Qed.

Lemma readStringFast_plain (s rest : string) :
  isPlain s = true →
  readStringFast (s +:+ String dquote rest) = FastOk s rest.
Proof.
  induction s as [|c s IH]; simpl; [done|].
  intros [Hc Hs]%andb_prop. apply isPlainByte_not_space in Hc as (-> & -> & ->).
  by rewrite (IH Hs).
Qed.

Lemma takeBytes_app (a b : string) : takeBytes (String.length a) (a +:+ b) = a.
Proof. induction a as [|c a IH]; simpl; [by destruct b|by rewrite IH]. Qed.

Lemma captured_app (a b : string) : captured (a +:+ b) b = a.
Proof.
  unfold captured. rewrite append_length.
  replace (String.length a + String.length b - String.length b)%nat
    with (String.length a) by lia.
  apply takeBytes_app.
Qed.

Section JsonFacts.
Context `{GoLibrary}.

Lemma readStringBody_plain (s rest : string) :
  isPlain s = true → readStringBody (s +:+ String dquote rest) = Some (s, rest).
Proof. intros Hs. unfold readStringBody. by rewrite readStringFast_plain. Qed.

Lemma quoted_app (s rest : string) :
  quoted s +:+ rest = String dquote (s +:+ String dquote rest).
Proof. unfold quoted. simpl. by rewrite append_assoc. Qed.

Lemma escapeByte_cases (c : ascii) :
  isEscapable c = true →
  (isPlainByte c = true ∧ escapeByte c = String c EmptyString) ∨
  (∃ e, escapeByte c = String "\" (String e EmptyString) ∧
        ∀ s, readEscapedChar e s = Some (String c EmptyString, s)).
Proof.
  intros Hc. unfold escapeByte.
  destruct (Ascii.eqb_spec c dquote) as [->|H1]; [right; by exists dquote|].
  destruct (Ascii.eqb_spec c "\") as [->|H2]; [right; by exists "\"%char|].
  destruct (Ascii.eqb_spec c "008") as [->|H3]; [right; by exists "b"%char|].
  destruct (Ascii.eqb_spec c "012") as [->|H4]; [right; by exists "f"%char|].
  destruct (Ascii.eqb_spec c "010") as [->|H5]; [right; by exists "n"%char|].
  destruct (Ascii.eqb_spec c "013") as [->|H6]; [right; by exists "r"%char|].
  destruct (Ascii.eqb_spec c "009") as [->|H7]; [right; by exists "t"%char|].
  left. split; [|done]. unfold isPlainByte, isEscapable in *.
  apply Ascii.eqb_neq in H1, H2, H3, H4, H5, H6, H7.
  rewrite H3, H4, H5, H6, H7, !orb_false_r in Hc. by rewrite H1, H2, Hc.
Qed.

Lemma escapeJSON_length (s : string) :
  (String.length s ≤ String.length (escapeJSON s))%nat.
Proof.
  induction s as [|c s IH]; simpl; [done|]. rewrite append_length.
  assert (1 ≤ String.length (escapeByte c))%nat; [|lia].
  unfold escapeByte. repeat (destruct (Ascii.eqb _ _); [simpl; lia|]). simpl. lia.
Qed.

Lemma readStringSlow_escape (s rest : string) :
  allEscapable s = true →
  ∀ fuel, (String.length (escapeJSON s) < fuel)%nat →
    readStringSlow fuel (escapeJSON s +:+ String dquote rest) = Some (s, rest).
Proof.
  induction s as [|c s IH]; intros Hs fuel Hf.
  - destruct fuel; [simpl in Hf; lia|]. done.
  - simpl in Hs. apply andb_prop in Hs as [Hc Hs]. simpl in Hf.
    rewrite append_length in Hf. cbn [escapeJSON]. rewrite append_assoc.
    destruct fuel as [|fuel]; [lia|].
    destruct (escapeByte_cases c Hc) as [[Hp He]|(e & Hb & He)].
    + rewrite He in Hf |- *. apply isPlainByte_not_space in Hp as (Hq & Hb & _).
      simpl in Hf |- *. rewrite Hq, Hb, IH by (done || lia). done.
    + rewrite Hb in Hf |- *. simpl in Hf |- *. rewrite He. simpl.
      rewrite IH by (done || lia). done.
Qed.

Lemma readStringFast_escape (s rest : string) :
  allEscapable s = true →
  readStringFast (escapeJSON s +:+ String dquote rest) = FastOk s rest ∨
  readStringFast (escapeJSON s +:+ String dquote rest) = FastSlow.
Proof.
  induction s as [|c s IH]; intros Hs.
  - by left.
  - simpl in Hs. apply andb_prop in Hs as [Hc Hs]. cbn [escapeJSON].
    rewrite append_assoc.
    destruct (escapeByte_cases c Hc) as [[Hp ->]|(e & -> & He)].
    + apply isPlainByte_not_space in Hp as (Hq & Hb & Hlt). simpl.
      rewrite Hq, Hb, Hlt. destruct (IH Hs) as [-> | ->]; [by left|by right].
    + right. done.
Qed.

Lemma readStringBody_escape (s rest : string) :
  allEscapable s = true →
  readStringBody (escapeJSON s +:+ String dquote rest) = Some (s, rest).
Proof.
  intros Hs. unfold readStringBody.
  destruct (readStringFast_escape s rest Hs) as [-> | ->]; [done|].
  apply readStringSlow_escape; [done|]. rewrite append_length. simpl. lia.
Qed.

(** A text that needs no escape is written as it is. *)
Lemma isPlain_escapeJSON (s : string) :
  isPlain s = true → allEscapable s = true ∧ escapeJSON s = s.
Proof.
  induction s as [|c s IH]; [done|]. cbn [isPlain allEscapable escapeJSON].
  intros [Hc Hs]%andb_prop. destruct (IH Hs) as [-> ->].
  assert (isEscapable c = true ∧ escapeByte c = String c EmptyString) as [-> ->]; [|done].
  clear -Hc. destruct c as [[] [] [] [] [] [] [] []]; by vm_compute in Hc |- *.
Qed.

Lemma nextToken_comma (s : string) : nextToken (String "," s) = Some (","%char, s).
Proof. done. Qed.

Lemma nextToken_nonspace (c : ascii) (s : string) :
  isJsonSpace c = false → nextToken (String c s) = Some (c, s).
Proof. intros Hc. simpl. by rewrite Hc. Qed.

Lemma ReadString_quote (s : string) : ReadString (String dquote s) = readStringBody s.
Proof. done. Qed.

Lemma isNumberStart_token (c : ascii) :
  isNumberStart c = true →
  isJsonSpace c = false ∧ Ascii.eqb c dquote = false ∧ Ascii.eqb c "n" = false ∧
  Ascii.eqb c "t" = false ∧ Ascii.eqb c "f" = false ∧ Ascii.eqb c "{" = false ∧
  Ascii.eqb c "[" = false ∧ Ascii.eqb c "]" = false.
Proof. destruct c as [[] [] [] [] [] [] [] []]; by vm_compute. Qed.

(** Induction on a value, with the property at the items of a
    container. *)
Lemma jsonValue_nested_ind (P : jsonValue → Prop) :
  (∀ s, P (JString s)) → P JTrue → P JFalse → P JNull → (∀ text, P (JNumber text)) →
  (∀ elems, Forall P elems → P (JArray elems)) →
  (∀ members, Forall (λ m, P m.2) members → P (JObject members)) →
  ∀ v, P v.
Proof.
  intros Hs Ht Hf Hn Hnum Harr Hobj. fix IH 1. intros [s| | | |text|elems|members].
  - apply Hs.
  - apply Ht.
  - apply Hf.
  - apply Hn.
  - apply Hnum.
  - apply Harr. induction elems as [|e elems IHe]; constructor; [apply IH|apply IHe].
  - apply Hobj. induction members as [|[k v] members IHm]; constructor; [apply IH|apply IHm].
Qed.

Lemma renderValue_object (ms : list (string * jsonValue)) :
  renderValue (JObject ms) = renderRecord ms.
Proof.
  unfold renderRecord, renderMembers. cbn [renderValue]. do 2 f_equal.
  apply list_fmap_ext. by intros i [k v] _.
Qed.

Lemma wellFormedAt_array (depth : N) (elems : list jsonValue) :
  wellFormedAt depth (JArray elems) ↔
  (depth < maxDepth)%N ∧ Forall (wellFormedAt (N.succ depth)) elems.
Proof.
  cbn [wellFormedAt]. apply and_iff_compat_l.
  induction elems as [|e elems IH]; cbn [foldr]; [by split|].
  rewrite Forall_cons, IH. done.
Qed.

Lemma wellFormedAt_object (depth : N) (ms : list (string * jsonValue)) :
  wellFormedAt depth (JObject ms) ↔
  (depth < maxDepth)%N ∧
  Forall (λ m, allEscapable m.1 = true ∧ wellFormedAt (N.succ depth) m.2) ms.
Proof.
  cbn [wellFormedAt]. apply and_iff_compat_l.
  induction ms as [|[k v] ms IH]; cbn [foldr]; [by split|].
  rewrite Forall_cons, IH. simpl. tauto.
Qed.

(** A value starts with a token of its own. *)
Lemma renderValue_head (depth : N) (v : jsonValue) :
  wellFormedAt depth v →
  ∃ c s, renderValue v = String c s ∧ isJsonSpace c = false ∧ Ascii.eqb c "]" = false.
Proof.
  destruct v as [s| | | |text|elems|members]; intros Hv;
    try (by eexists _, _; split; [reflexivity|]).
  destruct Hv as [(c & s & -> & Hc) _]. exists c, s.
  destruct (isNumberStart_token c Hc) as (? & _ & _ & _ & _ & _ & _ & ?). done.
Qed.

Lemma delimited_moreItems (close : ascii) (items : list string) (rest : string) :
  isDelimiter close = true →
  delimited (moreItems (String close EmptyString) items +:+ rest).
Proof. intros Hc. destruct items; eexists _, _; (split; [reflexivity|done]). Qed.


Lemma endsBefore_delimited (v : jsonValue) (rest : string) :
  delimited rest → endsBefore v rest.
Proof. by destruct v. Qed.

(** The loop of [ReadArrayCB] behind an element. *)
Lemma skipElems_moreItems (depth : N) (rest : string) (elems : list jsonValue) :
  Forall (λ e, ∀ depth rest fuel, wellFormedAt depth e → endsBefore e rest →
            (String.length (renderValue e +:+ rest) < fuel)%nat →
            Skip fuel depth (renderValue e +:+ rest) = SkipOk rest) elems →
  Forall (wellFormedAt depth) elems →
  ∀ fuel, (String.length (moreItems "]" (renderValue <$> elems) +:+ rest) < fuel)%nat →
    skipElems fuel depth (moreItems "]" (renderValue <$> elems) +:+ rest) = SkipOk rest.
Proof.
  induction elems as [|e elems IH]; intros HP Hwf fuel Hf;
    (destruct fuel as [|fuel]; [lia|]).
  - done.
  - apply Forall_cons in HP as [He HP]. apply Forall_cons in Hwf as [Hwe Hwf].
    cbn [fmap list_fmap moreItems] in Hf |- *.
    rewrite !append_assoc in Hf |- *. change ("," +:+ ?x) with (String "," x) in Hf |- *.
    cbn [String.length] in Hf. cbn [skipElems]. rewrite nextToken_comma.
    change (Ascii.eqb "," ",") with true. cbv iota.
    rewrite He; [|done|by apply endsBefore_delimited, (delimited_moreItems "]")|lia].
    apply IH; [done|done|]. rewrite append_length in Hf. lia.
Qed.

(** The loop of [ReadObjectCB] behind the name of a member. *)
Lemma skipMember_moreItems (depth : N) (rest : string) (ms : list (string * jsonValue)) :
  Forall (λ m, ∀ depth rest fuel, wellFormedAt depth m.2 → endsBefore m.2 rest →
            (String.length (renderValue m.2 +:+ rest) < fuel)%nat →
            Skip fuel depth (renderValue m.2 +:+ rest) = SkipOk rest) ms →
  Forall (λ m, allEscapable m.1 = true ∧ wellFormedAt depth m.2) ms →
  ∀ k v fuel,
    (∀ rest fuel, endsBefore v rest →
       (String.length (renderValue v +:+ rest) < fuel)%nat →
       Skip fuel depth (renderValue v +:+ rest) = SkipOk rest) →
    (String.length (":" +:+ renderValue v +:+
                    moreItems "}" (renderMember <$> ms) +:+ rest) < fuel)%nat →
    skipMember fuel depth
      (Some (k, ":" +:+ renderValue v +:+ moreItems "}" (renderMember <$> ms) +:+ rest)) =
    SkipOk rest.
Proof.
  induction ms as [|m ms IH]; intros HP Hwf k v fuel Hv Hf;
    (destruct fuel as [|fuel]; [lia|]);
    change (":" +:+ ?x) with (String ":" x) in Hf |- *; cbn [String.length] in Hf;
    cbn [skipMember]; rewrite nextToken_nonspace by done;
    change (Ascii.eqb ":" ":") with true; cbv iota;
    (rewrite Hv; [|by apply endsBefore_delimited, (delimited_moreItems "}")|lia]).
  - done.
  - apply Forall_cons in HP as [Hm HP]. apply Forall_cons in Hwf as [[Hk Hwm] Hwf].
    cbn [fmap list_fmap moreItems] in Hf |- *. unfold renderMember at 1 in Hf.
    unfold renderMember at 1.
    rewrite !append_assoc in Hf |- *. change ("," +:+ ?x) with (String "," x) in Hf |- *.
    rewrite nextToken_comma. change (Ascii.eqb "," ",") with true. cbv iota.
    rewrite quoted_app in Hf |- *. rewrite ReadString_quote, readStringBody_escape by done.
    apply IH; [done|done| |].
    + intros rest' fuel' Hr Hf'. by apply Hm.
    + rewrite append_length in Hf. cbn [String.length] in Hf.
      rewrite append_length in Hf. cbn [String.length] in Hf. lia.
Qed.

(** Skipping a value stops right behind it. *)
Lemma Skip_renderValue (v : jsonValue) :
  ∀ depth rest fuel, wellFormedAt depth v → endsBefore v rest →
    (String.length (renderValue v +:+ rest) < fuel)%nat →
    Skip fuel depth (renderValue v +:+ rest) = SkipOk rest.
Proof.
  induction v as [s| | | |text|elems IH|ms IH] using jsonValue_nested_ind;
    intros depth rest fuel Hwf Hend Hf; (destruct fuel as [|fuel]; [lia|]).
  - cbn [renderValue]. rewrite quoted_app. cbn [Skip].
    rewrite nextToken_nonspace by done. change (Ascii.eqb dquote dquote) with true.
    cbv iota. by rewrite readStringBody_escape.
  - done.
  - done.
  - done.
  - destruct Hwf as [(c & s & -> & Hc) Hacc].
    destruct (isNumberStart_token c Hc) as (S0 & S1 & S2 & S3 & S4 & _).
    cbn [renderValue]. change (String c s +:+ rest) with (String c (s +:+ rest)).
    cbn [Skip]. rewrite nextToken_nonspace by done. rewrite S1, S2, S3, S4, Hc.
    change (String c (s +:+ rest)) with (String c s +:+ rest). by rewrite Hacc.
  - apply wellFormedAt_array in Hwf as [Hd Hwf].
    cbn [renderValue] in Hf |- *. change ("[" +:+ ?x) with (String "[" x) in Hf |- *.
    cbn [append String.length] in Hf |- *. cbn [Skip].
    rewrite nextToken_nonspace by done.
    change (Ascii.eqb "[" dquote) with false. change (Ascii.eqb "[" "n") with false.
    change (Ascii.eqb "[" "t") with false. change (Ascii.eqb "[" "f") with false.
    change (isNumberStart "[") with false. change (Ascii.eqb "[" "[") with true.
    cbv iota. apply N.leb_gt in Hd as Hd'. rewrite Hd'.
    destruct elems as [|e elems].
    + done.
    + apply Forall_cons in IH as [He IH]. apply Forall_cons in Hwf as [Hwe Hwf].
      cbn [fmap list_fmap closeWith] in Hf |- *. rewrite append_assoc in Hf |- *.
      destruct (renderValue_head _ _ Hwe) as (c1 & s1 & Eq & Hsp & Hcl).
      assert (nextToken (renderValue e +:+ moreItems "]" (renderValue <$> elems) +:+ rest) =
              Some (c1, s1 +:+ moreItems "]" (renderValue <$> elems) +:+ rest)) as ->.
      { rewrite Eq. cbn [append]. by apply nextToken_nonspace. }
      rewrite Hcl.
      change (String c1 (s1 +:+ ?x)) with (String c1 s1 +:+ x). rewrite <- Eq.
      rewrite He; [|done|by apply endsBefore_delimited, (delimited_moreItems "]")|lia].
      apply skipElems_moreItems; [done|done|]. rewrite append_length in Hf. lia.
  - apply wellFormedAt_object in Hwf as [Hd Hwf].
    rewrite renderValue_object in Hf |- *. unfold renderRecord, renderMembers in Hf |- *.
    change ("{" +:+ ?x) with (String "{" x) in Hf |- *.
    cbn [append String.length] in Hf |- *. cbn [Skip].
    rewrite nextToken_nonspace by done.
    change (Ascii.eqb "{" dquote) with false. change (Ascii.eqb "{" "n") with false.
    change (Ascii.eqb "{" "t") with false. change (Ascii.eqb "{" "f") with false.
    change (isNumberStart "{") with false. change (Ascii.eqb "{" "[") with false.
    change (Ascii.eqb "{" "{") with true.
    cbv iota. apply N.leb_gt in Hd as Hd'. rewrite Hd'.
    destruct ms as [|m ms].
    + done.
    + apply Forall_cons in IH as [Hm IH]. apply Forall_cons in Hwf as [[Hk Hwm] Hwf].
      cbn [fmap list_fmap closeWith] in Hf |- *. unfold renderMember at 1 in Hf.
      unfold renderMember at 1. rewrite !append_assoc in Hf |- *.
      rewrite quoted_app in Hf |- *. rewrite nextToken_nonspace by done.
      change (Ascii.eqb dquote "}") with false. change (Ascii.eqb dquote dquote) with true.
      cbv iota. rewrite readStringBody_escape by done.
      apply skipMember_moreItems; [done|done| |].
      * intros rest' fuel' Hr Hf'. by apply Hm.
      * cbn [String.length] in Hf. rewrite append_length in Hf.
        cbn [String.length] in Hf. lia.
Qed.


Lemma readAnyToString_renderValue (depth : N) (v : jsonValue) :
  wellFormedAt depth v → readAnyToString (renderValue v) = valueText v.
Proof.
  destruct v as [s| | | |text|elems|ms]; intros Hv; try done.
  - unfold readAnyToString. cbn [renderValue valueText]. unfold quoted.
    rewrite nextToken_nonspace by done. change (Ascii.eqb dquote dquote) with true.
    cbv iota. by rewrite readStringBody_escape.
  - destruct Hv as [(c & s & -> & Hc) _].
    destruct (isNumberStart_token c Hc) as (S0 & S1 & S2 & S3 & S4 & _).
    unfold readAnyToString. cbn [renderValue valueText].
    rewrite nextToken_nonspace by done. by rewrite S1, S2, S3, S4.
Qed.

Lemma locateObjectField_colon (fuel : nat) (target field s' : string) :
  locateObjectField (S fuel) target (Some (field, String ":" s')) =
  match Skip (S (String.length s')) 1 s' with
  | SkipOk rest =>
      if String.eqb field target then Some (captured s' rest)
      else
        '(c1, s1) ← nextToken rest;
        if Ascii.eqb c1 "," then locateObjectField fuel target (ReadString s1)
        else None
  | _ => None
  end.
Proof. done. Qed.

Lemma ReadString_member (m : string * jsonValue) (rest : string) :
  allEscapable m.1 = true →
  ReadString (renderMember m +:+ rest) = Some (m.1, String ":" (renderValue m.2 +:+ rest)).
Proof.
  intros Hk. unfold renderMember. rewrite !append_assoc, quoted_app.
  by rewrite ReadString_quote, readStringBody_escape.
Qed.

(** The members in front of the wanted one are passed over. *)
Lemma locate_leading (key : string) (ms : list (string * jsonValue)) :
  Forall (λ m, allEscapable m.1 = true ∧ wellFormedAt 1 m.2) ms →
  recordField ms key = None →
  ∀ fuel rest,
    locateObjectField (length ms + fuel) key (ReadString (renderLeading ms +:+ rest)) =
    locateObjectField fuel key (ReadString rest).
Proof.
  induction ms as [|m ms IH]; intros Hwf Hnone fuel rest; [done|].
  apply Forall_cons in Hwf as [[Hk Hv] Hwf]. cbn [recordField] in Hnone.
  destruct (String.eqb m.1 key) eqn:Hkey; [done|].
  cbn [renderLeading foldr]. fold (renderLeading ms). rewrite !append_assoc.
  rewrite ReadString_member by done. cbn [length Nat.add].
  rewrite locateObjectField_colon.
  rewrite Skip_renderValue;
    [|done|apply endsBefore_delimited; by eexists _, _|lia].
  rewrite Hkey. change ("," +:+ ?x) with (String "," x). rewrite nextToken_comma.
  cbn [mbind option_bind]. change (Ascii.eqb "," ",") with true. cbv iota.
  by apply IH.
Qed.

(** The wanted member: its value is captured, what stands behind it is
    not read. *)
Lemma locate_wanted (key : string) (v : jsonValue) (rest : string) (fuel : nat) :
  allEscapable key = true → wellFormedAt 1 v → endsBefore v rest →
  locateObjectField (S fuel) key (ReadString (renderMember (key, v) +:+ rest)) =
  Some (renderValue v).
Proof.
  intros Hk Hv Hend. rewrite ReadString_member by done. cbn [fst snd].
  rewrite locateObjectField_colon. rewrite Skip_renderValue; [|done|done|lia].
  by rewrite String.eqb_refl, captured_app.
Qed.

(** The last member, when it is not the wanted one. *)
Lemma locate_missing (key : string) (m : string * jsonValue) (rest : string) (fuel : nat) :
  allEscapable m.1 = true → wellFormedAt 1 m.2 → String.eqb m.1 key = false →
  locateObjectField fuel key (ReadString (renderMember m +:+ "}" +:+ rest)) = None.
Proof.
  intros Hk Hv Hkey. destruct fuel as [|fuel]; [done|].
  rewrite ReadString_member by done. rewrite locateObjectField_colon.
  rewrite Skip_renderValue;
    [|done|apply endsBefore_delimited; by eexists _, _|lia].
  by rewrite Hkey.
Qed.


Lemma renderLeading_length (ms : list (string * jsonValue)) :
  (length ms ≤ String.length (renderLeading ms))%nat.
Proof.
  induction ms as [|m ms IH]; [done|]. cbn [renderLeading foldr]. fold (renderLeading ms).
  rewrite !append_length. simpl. lia.
Qed.

Lemma renderLeading_quote (ms : list (string * jsonValue)) (k rest : string) :
  ∃ s, renderLeading ms +:+ quoted k +:+ rest = String dquote s.
Proof.
  destruct ms as [|m ms]; [by eexists|].
  cbn [renderLeading foldr]. unfold renderMember, quoted. by eexists.
Qed.

Lemma locatePath_object (s key : string) :
  locatePath (String "{" (String dquote s)) key =
  locateObjectField (S (S (String.length s))) key (ReadString (String dquote s)).
Proof. done. Qed.

Lemma moreItems_split (ms1 ms2 : list (string * jsonValue)) (m : string * jsonValue) :
  moreItems "}" (renderMember <$> ms1 ++ m :: ms2) =
  "," +:+ renderLeading ms1 +:+ renderMember m +:+ moreItems "}" (renderMember <$> ms2).
Proof.
  induction ms1 as [|m' ms1 IH]; [done|].
  cbn [app fmap list_fmap moreItems renderLeading foldr]. fold (renderLeading ms1).
  change (list_fmap _ _ renderMember) with (fmap (M:=list) renderMember).
  rewrite IH. by rewrite !append_assoc.
Qed.

Lemma renderMembers_split (ms1 ms2 : list (string * jsonValue)) (m : string * jsonValue) :
  renderMembers (ms1 ++ m :: ms2) =
  renderLeading ms1 +:+ renderMember m +:+ moreItems "}" (renderMember <$> ms2).
Proof.
  unfold renderMembers. destruct ms1 as [|m1 ms1]; [done|].
  cbn [app fmap list_fmap closeWith renderLeading foldr]. fold (renderLeading ms1).
  change (list_fmap _ _ renderMember) with (fmap (M:=list) renderMember).
  rewrite moreItems_split. by rewrite !append_assoc.
Qed.

Lemma recordField_split (ms : list (string * jsonValue)) (key : string) (v : jsonValue) :
  recordField ms key = Some v →
  ∃ ms1 ms2, ms = ms1 ++ (key, v) :: ms2 ∧ recordField ms1 key = None.
Proof.
  induction ms as [|[k v'] ms IH]; [done|]. cbn [recordField fst snd].
  destruct (String.eqb_spec k key) as [->|Hne].
  - intros [= ->]. by exists [], ms.
  - intros (ms1 & ms2 & -> & Hn)%IH. exists ((k, v') :: ms1), ms2. split; [done|].
    cbn [recordField fst]. by destruct (String.eqb_spec k key).
Qed.

Lemma recordField_snoc (ms : list (string * jsonValue)) (m : string * jsonValue) (key : string) :
  recordField (ms ++ [m]) key = None →
  recordField ms key = None ∧ String.eqb m.1 key = false.
Proof.
  induction ms as [|m' ms IH]; cbn [app recordField].
  - by destruct (String.eqb m.1 key).
  - by destruct (String.eqb m'.1 key).
Qed.

(** The line is read up to the end of the value of the first member
    with the wanted name, and no further. *)
Lemma jsoniter_Get_upto (ms : list (string * jsonValue)) (k : string) (v : jsonValue)
    (rest : string) :
  Forall (λ m, allEscapable m.1 = true ∧ wellFormedAt 1 m.2) ms →
  recordField ms k = None → allEscapable k = true → wellFormedAt 1 v → endsBefore v rest →
  jsoniter_Get_ToString ("{" +:+ renderLeading ms +:+ renderMember (k, v) +:+ rest) k =
  valueText v.
Proof.
  intros Hms Hnone Hk Hv Hend. unfold jsoniter_Get_ToString.
  change ("{" +:+ ?x) with (String "{" x).
  assert (∃ s, renderLeading ms +:+ renderMember (k, v) +:+ rest = String dquote s)
    as [s Hs].
  { unfold renderMember. rewrite !append_assoc. apply renderLeading_quote. }
  rewrite Hs, locatePath_object, <- Hs.
  assert (S (S (String.length s)) =
          length ms + S (S (String.length s) - length ms))%nat as ->.
  { pose proof (renderLeading_length ms) as Hl.
    apply (f_equal String.length) in Hs. rewrite append_length in Hs.
    cbn [String.length] in Hs. lia. }
  rewrite locate_leading, locate_wanted by done.
  by apply (readAnyToString_renderValue 1).
Qed.

(** On a line that is one object the extraction is the text of the
    first member with the wanted name, and nothing when there is
    none. *)
Lemma jsoniter_Get_record (ms : list (string * jsonValue)) (key : string) :
  wellFormedRecord ms →
  jsoniter_Get_ToString (renderRecord ms) key =
  from_option valueText EmptyString (recordField ms key).
Proof.
  intros [_ Hms]%wellFormedAt_object. change (N.succ 0) with 1%N in Hms.
  destruct (recordField ms key) as [v|] eqn:Hv; cbn [from_option].
  - apply recordField_split in Hv as (ms1 & ms2 & -> & Hnone).
    apply Forall_app in Hms as [Hms1 [[Hk Hwv] _]%Forall_cons]. cbn [fst snd] in Hk, Hwv.
    unfold renderRecord. rewrite renderMembers_split.
    apply jsoniter_Get_upto; try done.
    apply endsBefore_delimited. destruct ms2; by eexists _, _.
  - destruct ms as [|m0 ms0] using rev_ind; [done|]. clear IHms0.
    apply recordField_snoc in Hv as [Hnone Hkey].
    apply Forall_app in Hms as [Hms0 [[Hk Hwv] _]%Forall_cons].
    unfold jsoniter_Get_ToString, renderRecord. rewrite renderMembers_split.
    cbn [fmap list_fmap moreItems]. change ("{" +:+ ?x) with (String "{" x).
    assert (∃ s, renderLeading ms0 +:+ renderMember m0 +:+ "}" = String dquote s)
      as [s Hs].
    { unfold renderMember. rewrite !append_assoc. apply renderLeading_quote. }
    rewrite Hs, locatePath_object, <- Hs.
    assert (S (S (String.length s)) =
            length ms0 + S (S (String.length s) - length ms0))%nat as ->.
    { pose proof (renderLeading_length ms0) as Hl.
      apply (f_equal String.length) in Hs. rewrite append_length in Hs.
      cbn [String.length] in Hs. lia. }
    rewrite locate_leading by done.
    rewrite <- (append_empty_r "}"), locate_missing by done. done.
Qed.


Lemma plainRecord_wellFormed (ms : list (string * jsonValue)) :
  plainRecord ms = true → wellFormedRecord ms.
Proof.
  intros Hp. apply wellFormedAt_object. split; [done|].
  induction ms as [|[k v] ms IH]; [constructor|].
  cbn [plainRecord forallb fst snd] in Hp.
  apply andb_prop in Hp as [[Hk Hv]%andb_prop Hp]. constructor; [|by apply IH].
  split; [by apply isPlain_escapeJSON|].
  destruct v as [s| | | |text|elems|members]; try done.
  by apply isPlain_escapeJSON.
Qed.

Lemma plainRecord_field (ms : list (string * jsonValue)) (key : string) (v : jsonValue) :
  plainRecord ms = true → recordField ms key = Some v →
  match v with JString _ | JTrue | JFalse | JNull => True | _ => False end.
Proof.
  induction ms as [|m ms IH]; cbn [plainRecord forallb recordField]; [done|].
  intros [[_ Hv]%andb_prop Hl]%andb_prop.
  destruct (String.eqb m.1 key); [|by apply IH].
  intros [= <-]. by destruct m.2.
Qed.


End JsonFacts.

(** ** The bounds on the recursion of the iterator are never reached *)

Lemma nextToken_length (s : string) (c : ascii) (s' : string) :
  nextToken s = Some (c, s') → (String.length s' < String.length s)%nat.
Proof.
  induction s as [|d s IH]; simpl; [done|].
  destruct (isJsonSpace d).
  - intros Hn. specialize (IH Hn). lia.
  - intros [= <- <-]. lia.
Qed.

Lemma expectBytes_length (lit s rest : string) :
  expectBytes lit s = Some rest → (String.length rest ≤ String.length s)%nat.
Proof.
  revert s. induction lit as [|l lit IH]; intros [|c s]; simpl; try done.
  - by intros [= <-].
  - by intros [= <-].
  - destruct (Ascii.eqb c l); [|done]. intros Hn. specialize (IH _ Hn). lia.
Qed.

Lemma readStringFast_length (s str rest : string) :
  readStringFast s = FastOk str rest → (String.length rest < String.length s)%nat.
Proof.
  revert str. induction s as [|c s IH]; intros str; simpl; [done|].
  destruct (Ascii.eqb c dquote); [intros [= <- <-]; lia|].
  destruct (Ascii.eqb c "\"); [done|].
  destruct (byte_of c <? 32)%N; [done|].
  destruct (readStringFast s) as [str' rest'| |]; [|done..].
  intros [= <- <-]. specialize (IH str' eq_refl). lia.
Qed.

Section FuelFacts.
Context `{GoLibrary}.

Lemma readEscapedChar_length (e : ascii) (s bytes rest : string) :
  readEscapedChar e s = Some (bytes, rest) → (String.length rest ≤ String.length s)%nat.
Proof.
  unfold readEscapedChar.
  destruct (Ascii.eqb e "u"); [apply json_readU4_forward|].
  repeat (match goal with
          | |- context [if ?b then _ else _] => destruct b
          end; [by intros [= <- <-]|]).
  done.
Qed.

Lemma readStringSlow_length (fuel : nat) (s str rest : string) :
  readStringSlow fuel s = Some (str, rest) → (String.length rest < String.length s)%nat.
Proof.
  revert s str. induction fuel as [|fuel IH]; intros s str; simpl; [done|].
  destruct s as [|c s]; [done|].
  destruct (Ascii.eqb c dquote); [intros [= <- <-]; simpl; lia|].
  destruct (Ascii.eqb c "\").
  - destruct s as [|e s]; [done|].
    destruct (readEscapedChar e s) as [[bytes r]|] eqn:He; [|done]. simpl.
    destruct (readStringSlow fuel r) as [[str' r']|] eqn:Hr; [|done]. simpl.
    intros [= <- <-]. apply readEscapedChar_length in He. apply IH in Hr. simpl. lia.
  - destruct (readStringSlow fuel s) as [[str' r']|] eqn:Hr; [|done]. simpl.
    intros [= <- <-]. apply IH in Hr. simpl. lia.
Qed.

(** The slow path never runs out of fuel: any bound from the length of
    the input on gives the same result. *)
Lemma readStringSlow_fuel (f1 f2 : nat) (s : string) :
  (String.length s ≤ f1)%nat → (String.length s ≤ f2)%nat →
  readStringSlow f1 s = readStringSlow f2 s.
Proof.
  revert f2 s. induction f1 as [|f1 IH]; intros [|f2] [|c s]; simpl; try done; try lia.
  intros H1 H2.
  destruct (Ascii.eqb c dquote); [done|].
  destruct (Ascii.eqb c "\").
  - destruct s as [|e s]; [done|].
    destruct (readEscapedChar e s) as [[bytes r]|] eqn:He; [|done]. simpl.
    apply readEscapedChar_length in He. simpl in *.
    by rewrite (IH f2 r) by lia.
  - by rewrite (IH f2 s) by lia.
Qed.

Lemma readStringBody_length (s str rest : string) :
  readStringBody s = Some (str, rest) → (String.length rest < String.length s)%nat.
Proof.
  unfold readStringBody. destruct (readStringFast s) eqn:Hf; [|apply readStringSlow_length|done].
  intros [= <- <-]. by eapply readStringFast_length.
Qed.

Lemma ReadString_length (s str rest : string) :
  ReadString s = Some (str, rest) → (String.length rest < String.length s)%nat.
Proof.
  unfold ReadString. destruct (nextToken s) as [[c s']|] eqn:Hn; [|done].
  apply nextToken_length in Hn.
  destruct (Ascii.eqb c dquote).
  - intros Hb%readStringBody_length. lia.
  - destruct (Ascii.eqb c "n"); [|done].
    destruct (expectBytes "ull" s') as [r|] eqn:He; [|done]. simpl.
    intros [= <- <-]. apply expectBytes_length in He. lia.
Qed.

Lemma ofOption_shorter (o : option string) (n : nat) :
  (∀ rest, o = Some rest → (String.length rest < n)%nat) → shorter (ofOption o) n.
Proof. destruct o; simpl; [|done]. intros Hs. by apply Hs. Qed.

(** With more fuel than input [Skip] and its loops never hit the bound,
    and what they leave is shorter than what they were given. *)
Lemma Skip_fuel (fuel : nat) :
  (∀ depth s, (String.length s < fuel)%nat →
     shorter (Skip fuel depth s) (String.length s)) ∧
  (∀ depth s, (String.length s < fuel)%nat →
     shorter (skipElems fuel depth s) (String.length s)) ∧
  (∀ depth name, (0 < fuel)%nat →
     (∀ n s, name = Some (n, s) → (String.length s < fuel)%nat) →
     shorter (skipMember fuel depth name)
       (match name with Some (_, s) => String.length s | None => 0 end)).
Proof.
  induction fuel as [|fuel (IHs & IHe & IHm)].
  { split_and!; intros; lia. }
  assert (∀ r n m, shorter r n → (n ≤ m)%nat → shorter r m) as Hmono.
  { intros [] n m; simpl; try done. lia. }
  split_and!.
  - intros depth s Hlen. cbn [Skip].
    destruct (nextToken s) as [[c s']|] eqn:Hn; [|by simpl].
    apply nextToken_length in Hn.
    destruct (Ascii.eqb c dquote).
    { apply ofOption_shorter. intros rest.
      destruct (readStringBody s') as [[str r]|] eqn:Hb; [|by simpl]. simpl.
      intros [= <-]. apply readStringBody_length in Hb. lia. }
    destruct (Ascii.eqb c "n").
    { apply ofOption_shorter. intros rest He%expectBytes_length. lia. }
    destruct (Ascii.eqb c "t").
    { apply ofOption_shorter. intros rest He%expectBytes_length. lia. }
    destruct (Ascii.eqb c "f").
    { apply ofOption_shorter. intros rest He%expectBytes_length. lia. }
    destruct (isNumberStart c).
    { apply ofOption_shorter. intros rest He%json_skipNumber_forward. simpl in He. lia. }
    destruct (Ascii.eqb c "[").
    { destruct (maxDepth <=? depth)%N; [by simpl|].
      destruct (nextToken s') as [[c1 s1]|] eqn:Hn1; [|by simpl].
      apply nextToken_length in Hn1.
      destruct (Ascii.eqb c1 "]"); [simpl; lia|].
      pose proof (IHs (N.succ depth) (String c1 s1)) as Hv. simpl in Hv.
      destruct (Skip fuel (N.succ depth) (String c1 s1)) as [rest| |] eqn:Hsk;
        [|by simpl|apply Hv; lia].
      specialize (Hv ltac:(lia)). simpl in Hv.
      eapply Hmono; [apply IHe; lia|lia]. }
    destruct (Ascii.eqb c "{"); [|by simpl].
    destruct (maxDepth <=? depth)%N; [by simpl|].
    destruct (nextToken s') as [[c1 s1]|] eqn:Hn1; [|by simpl].
    apply nextToken_length in Hn1.
    destruct (Ascii.eqb c1 "}"); [simpl; lia|].
    destruct (Ascii.eqb c1 dquote); [|by simpl].
    destruct (readStringBody s1) as [[str r]|] eqn:Hb.
    + apply readStringBody_length in Hb.
      eapply Hmono; [apply (IHm (N.succ depth) (Some (str, r))); [lia|]|simpl; lia].
      intros n s0 [= <- <-]. lia.
    + eapply Hmono; [apply (IHm (N.succ depth) None); [lia|]|simpl; lia]. by simpl.
  - intros depth s Hlen. cbn [skipElems].
    destruct (nextToken s) as [[c s']|] eqn:Hn; [|by simpl].
    apply nextToken_length in Hn.
    destruct (Ascii.eqb c ",").
    + pose proof (IHs depth s') as Hv.
      destruct (Skip fuel depth s') as [rest| |] eqn:Hsk; [|by simpl|apply Hv; lia].
      specialize (Hv ltac:(lia)). simpl in Hv.
      eapply Hmono; [apply IHe; lia|lia].
    + destruct (Ascii.eqb c "]"); [simpl; lia|by simpl].
  - intros depth [[n s]|] _ Hname; [|by simpl]. specialize (Hname n s eq_refl).
    cbn [skipMember].
    destruct (nextToken s) as [[c s']|] eqn:Hn; [|by simpl].
    apply nextToken_length in Hn.
    destruct (Ascii.eqb c ":"); [|by simpl].
    pose proof (IHs depth s') as Hv.
    destruct (Skip fuel depth s') as [rest| |] eqn:Hsk; [|by simpl|apply Hv; lia].
    specialize (Hv ltac:(lia)). simpl in Hv.
    destruct (nextToken rest) as [[c1 s1]|] eqn:Hn1; [|by simpl].
    apply nextToken_length in Hn1.
    destruct (Ascii.eqb c1 ",").
    + destruct (ReadString s1) as [[str r]|] eqn:Hr.
      * apply ReadString_length in Hr.
        eapply Hmono; [apply (IHm depth (Some (str, r))); [lia|]|simpl; lia].
        intros n0 s0 [= <- <-]. lia.
      * eapply Hmono; [apply (IHm depth None); [lia|]|simpl; lia]. by simpl.
    + destruct (Ascii.eqb c1 "}"); [simpl; lia|by simpl].
Qed.

Lemma Skip_never_out_of_fuel (depth : N) (s : string) :
  Skip (S (String.length s)) depth s ≠ SkipFuel.
Proof.
  pose proof (proj1 (Skip_fuel (S (String.length s))) depth s ltac:(lia)) as Hs.
  by destruct (Skip _ _ _).
Qed.

Lemma locateObjectField_None (fuel : nat) (target : string) :
  locateObjectField fuel target None = None.
Proof. by destruct fuel. Qed.

(** Nor does the walk over the members of the top-level object: any
    bound above the length of what is left gives the same result. *)
Lemma locateObjectField_fuel (f1 f2 : nat) (target n s : string) :
  (String.length s < f1)%nat → (String.length s < f2)%nat →
  locateObjectField f1 target (Some (n, s)) = locateObjectField f2 target (Some (n, s)).
Proof.
  revert f2 n s. induction f1 as [|f1 IH]; intros [|f2] n s H1 H2; try lia.
  cbn [locateObjectField mbind option_bind].
  destruct (nextToken s) as [[c s']|] eqn:Hn; [|done]. cbn [mbind option_bind].
  apply nextToken_length in Hn.
  destruct (Ascii.eqb c ":"); [|done].
  pose proof (proj1 (Skip_fuel (S (String.length s'))) 1%N s' ltac:(lia)) as Hs.
  destruct (Skip (S (String.length s')) 1 s') as [rest| |]; [|done..].
  simpl in Hs. destruct (String.eqb n target); [done|].
  destruct (nextToken rest) as [[c1 s1]|] eqn:Hn1; [|done]. cbn [mbind option_bind].
  apply nextToken_length in Hn1.
  destruct (Ascii.eqb c1 ","); [|done].
  destruct (ReadString s1) as [[n' s2]|] eqn:Hr.
  - apply ReadString_length in Hr. apply IH; lia.
  - by rewrite !locateObjectField_None.
Qed.
End FuelFacts.

Section ExtractionClaims.
Context `{GoLibrary}.
Variable os : OS.
Variable p : Processor.

Lemma processLine_skip (file line : string) (w : world) :
  line = EmptyString ∨ jsoniter_Get_ToString line (Field p) = EmptyString →
  processLine os p file line w = (if (String.length line =? 0)%nat then LineEmpty else FieldEmpty, w).
Proof.
  intros [->|Hf]; [done|]. unfold processLine.
  destruct (String.length line =? 0)%nat; [done|]. by rewrite Hf.
Qed.

(** C5: a zero-length line, and a line whose configured field is absent
    or empty, is not evaluated against any candidate and leaves the
    output directory and the log as they were; the worker goes on with
    the next line.  On a flat record the field is extracted as empty
    exactly when the record has no such member or holds an empty string
    or [null] for it. *)
Theorem empty_field_skipped (file line : string) (w : world) :
  line = EmptyString ∨ jsoniter_Get_ToString line (Field p) = EmptyString →
  (processLine os p file line w = (LineEmpty, w) ∨
   processLine os p file line w = (FieldEmpty, w)) ∧
  (∀ n hit, (processLine os p file line w).1 ≠ Evaluated n hit) ∧
  (∀ flag rest,
     workerStep os p flag (WMatching file line rest) w =
       Some (mkMove (WScanning file rest) w false false)) ∧
  (∀ ms, plainRecord ms = true →
     (jsoniter_Get_ToString (renderRecord ms) (Field p) = EmptyString ↔
      recordField ms (Field p) = None ∨
      recordField ms (Field p) = Some (JString EmptyString) ∨
      recordField ms (Field p) = Some JNull)).
Proof.
  intros Hskip. pose proof (processLine_skip file line w Hskip) as Hp.
  split_and!.
  - rewrite Hp. destruct (_ =? _)%nat; [by left|by right].
  - intros n hit. rewrite Hp. by destruct (_ =? _)%nat.
  - intros flag rest. unfold workerStep. rewrite Hp. by destruct (_ =? _)%nat.
  - intros ms Hms. rewrite jsoniter_Get_record by by apply plainRecord_wellFormed.
    destruct (recordField ms (Field p)) as [v|] eqn:Hv;
      [|split; [by left|done]].
    pose proof (plainRecord_field _ _ _ Hms Hv) as Hkind.
    destruct v as [[|c s]| | | |text|elems|members]; try done; simpl;
      (split; [intros E; try done; auto|intros [E|[E|E]]; done]).
Qed.

End ExtractionClaims.

(** ** The scenarios of the specification at the sample installation *)

(** The first scenario: exact mode, two candidates, one of them on the
    first line of the file. *)
Example scenario_exact :
  ∃ s, run demoOS (demoProcessor "exact" ["wallstreetbets"; "LivestreamFail"]) scenario
         (initState [submissions] []) = Some s ∧
       map_to_list (files (env s)) =
         [("out/RS_2020-01_wallstreetbets.ndjson", line1 +:+ newline)] ∧
       logged (env s) = [] ∧ serveRet s = Some None.
Proof. eexists. split; [by vm_compute|]. by vm_compute. Qed.

(** The second scenario: partial mode, one candidate. *)
Example scenario_partial :
  ∃ s, run demoOS (demoProcessor "partial" ["wall"]) scenario
         (initState [submissions] []) = Some s ∧
       map_to_list (files (env s)) = [("out/RS_2020-01_wall.ndjson", line1 +:+ newline)].
Proof. eexists. split; [by vm_compute|]. by vm_compute. Qed.

(** Extraction on some lines, and the numeric field that matches its
    text in exact mode. *)
Example extraction_examples :
  jsoniter_Get_ToString (json "{'subreddit':42}") "subreddit" = "42" ∧
  jsoniter_Get_ToString (json "{'title':'x','subreddit':true}") "subreddit" = "true" ∧
  jsoniter_Get_ToString (json "{'subreddit':null}") "subreddit" = EmptyString ∧
  jsoniter_Get_ToString (json "{'title':'x'}") "subreddit" = EmptyString ∧
  jsoniter_Get_ToString "not json at all" "subreddit" = EmptyString ∧
  jsoniter_Get_ToString (json "{'subreddit':'pics'") "subreddit" = "pics" ∧
  matchOne (demoProcessor "exact" ["42"]) 0 "42"
    (jsoniter_Get_ToString (json "{'subreddit':42}") "subreddit") = Some true.
Proof. by vm_compute. Qed.

(** ** The claims at the sample run *)

(** C1, as stated, fails: [Serve] does not read the flag.  After
    [Shutdown] has stored it, and even after [Shutdown] has returned
    [nil], the loop admits the next file, whose worker opens it and
    reads its first line before it gives up. *)
Lemma shutdown_still_admits :
  ¬ noNewFileAfterShutdown demoOS (demoProcessor "exact" ["wallstreetbets"]) ∧
  ∃ s s',
    run demoOS (demoProcessor "exact" ["wallstreetbets"]) lateShutdown
      (initState twoFiles []) = Some s ∧
    inShutdown s = true ∧ shutdown s = Returned None ∧ workers s !! 1%nat = None ∧
    run demoOS (demoProcessor "exact" ["wallstreetbets"])
      [ActAdmit; ActWorker 1; ActWorker 1] s = Some s' ∧
    workers s' !! 1%nat = Some (WExiting comments None) ∧
    logged (env s') =
      [mkLog LevelWarn "skipping further processing of file" [("path", submissions)];
       mkLog LevelWarn "skipping further processing of file" [("path", comments)]].
Proof.
  split.
  - intros Hno.
    destruct (run demoOS (demoProcessor "exact" ["wallstreetbets"]) lateShutdown
                (initState twoFiles [])) as [s|] eqn:Hrun; [|by vm_compute in Hrun].
    assert (step demoOS (demoProcessor "exact" ["wallstreetbets"]) ActAdmit s = None) as Hn.
    { apply (Hno twoFiles [] s); [by exists lateShutdown|].
      vm_compute in Hrun. by injection Hrun as <-. }
    vm_compute in Hrun. injection Hrun as <-. by vm_compute in Hn.
  - eexists _, _. split_and!; [by vm_compute|by vm_compute..].
Qed.

(** C6 at the sample run, one thread configured: after the first file is
    admitted and opened one worker holds the one slot. *)
Lemma admission_bound_witness :
  ∃ s, run demoOS (demoProcessor "exact" ["wallstreetbets"]) [ActAdmit; ActWorker 0]
         (initState twoFiles []) = Some s ∧
       (Z.of_nat (active s) ≤ 1)%Z ∧ sem s = Z.of_nat (active s).
Proof.
  eexists. split; [by vm_compute|].
  match goal with
  | |- (Z.of_nat (active ?s) ≤ 1)%Z ∧ _ =>
      destruct (admission_bound demoOS (demoProcessor "exact" ["wallstreetbets"])
                  twoFiles [] s) as (Hle & Hsem & _)
  end.
  - simpl. lia.
  - exists [ActAdmit; ActWorker 0]. by vm_compute.
  - by split.
Defined.

(** C7 for a worker admitted for a file that does not exist. *)
Lemma file_failure_isolated_witness :
  ∃ s1 s2,
    step demoOS (demoProcessor "exact" ["wallstreetbets"]) (ActWorker 0)
      (mkState false [] 1 1 [WAdmitted "in/missing.zst"] (mkWorld ∅ []) None false
         NotCalled) = Some s1 ∧
    step demoOS (demoProcessor "exact" ["wallstreetbets"]) (ActWorker 0) s1 = Some s2 ∧
    workers s2 = [WDone "in/missing.zst"] ∧ sem s2 = 0%Z ∧ wg s2 = 0%Z.
Proof.
  destruct (file_failure_isolated demoOS (demoProcessor "exact" ["wallstreetbets"])
              (mkState false [] 1 1 [WAdmitted "in/missing.zst"] (mkWorld ∅ []) None
                 false NotCalled)
              0 "in/missing.zst" "failed to get file information"
              "no such file or directory" eq_refl eq_refl)
    as (s1 & s2 & H1 & H2 & _ & _ & Hw & _ & Hsem & _ & Hwg & _).
  exists s1, s2. by split_and!.
Defined.

(** C3 in partial mode: the field value contains two of the candidates,
    the line goes to the file of the first of them. *)
Lemma first_candidate_wins_witness :
  processLine demoOS (demoProcessor "partial" ["pics"; "wall"; "street"]) submissions
    line1 (mkWorld ∅ []) =
  (Evaluated 2 (Some "wall"),
   write demoOS (demoProcessor "partial" ["pics"; "wall"; "street"]) submissions "wall"
     line1 (mkWorld ∅ [])).
Proof.
  apply (first_candidate_wins demoOS (demoProcessor "partial" ["pics"; "wall"; "street"])
           submissions line1 (mkWorld ∅ []) ["pics"] "wall" ["street"]).
  - done.
  - by vm_compute.
  - done.
  - intros [|k] u; [|done]. intros [= <-]. by vm_compute.
  - by vm_compute.
Defined.

(** C4 in exact mode on a field value in mixed case. *)
Lemma match_modes_witness :
  ∃ b, matchOne (demoProcessor "exact" ["wallstreetbets"]) 0 "wallstreetbets"
         "WallStreetBets" = Some b ∧
       (b = true ↔ equalIgnoringCase "WallStreetBets" "wallstreetbets").
Proof.
  destruct (match_modes (demoProcessor "exact" ["wallstreetbets"]) 0 "wallstreetbets"
              "WallStreetBets") as [Hexact _].
  destruct (Hexact eq_refl) as (b & Hb & _ & Hascii).
  exists b. split; [exact Hb|]. exact (Hascii eq_refl eq_refl).
Defined.

(** The numbers of the sample installation. *)
Lemma isDelimiter_cases (d : ascii) :
  isDelimiter d = true → d = ","%char ∨ d = "]"%char ∨ d = "}"%char.
Proof.
  unfold isDelimiter. intros [[Hd|Hd]%orb_prop|Hd]%orb_prop;
    apply Ascii.eqb_eq in Hd; auto.
Qed.

Lemma sample_numberAccepted (text : string) :
  (∃ c s, text = String c s ∧ isNumberStart c = true) →
  (∀ d rest, isDelimiter d = true →
     sampleSkipNumber (text +:+ String d rest) = Some (String d rest)) →
  numberAccepted text.
Proof.
  intros Hstart Hscan. split; [done|]. intros rest (d & rest' & -> & Hd).
  cbn [json_skipNumber plainLibrary]. rewrite (Hscan d rest' Hd).
  destruct Hstart as (c & s & -> & _).
  destruct (Nat.ltb_spec (String.length (String d rest'))
              (String.length (String c s +:+ String d rest'))) as [|Hge]; [done|].
  rewrite append_length in Hge. cbn [String.length] in Hge. lia.
Qed.

Example sample_numbers :
  numberAccepted "42" ∧ numberAccepted "-0.5" ∧ numberAccepted "1.5e3" ∧
  numberAccepted "007" ∧
  json_skipNumber (json "1e400}") = None ∧ json_skipNumber (json "-}") = None ∧
  json_skipNumber (json "1.}") = None ∧
  jsoniter_Get_ToString (json "{'n':1e400}") "n" = EmptyString ∧
  jsoniter_Get_ToString (json "{'n':1e308}") "n" = "1e308".
Proof.
  assert (∀ text,
            (∃ c s, text = String c s ∧ isNumberStart c = true) →
            (∀ rest, sampleSkipNumber (text +:+ String "," rest) = Some (String "," rest) ∧
                     sampleSkipNumber (text +:+ String "]" rest) = Some (String "]" rest) ∧
                     sampleSkipNumber (text +:+ String "}" rest) = Some (String "}" rest)) →
            numberAccepted text) as Hacc.
  { intros text Hstart Hscan. apply sample_numberAccepted; [done|].
    intros d rest [-> | [-> | ->] ]%isDelimiter_cases; apply Hscan. }
  split; [|split; [|split; [|split]]].
  - apply Hacc; [by eexists _, _|]. intros rest. vm_compute. done.
  - apply Hacc; [by eexists _, _|]. intros rest. vm_compute. done.
  - apply Hacc; [by eexists _, _|]. intros rest. vm_compute. done.
  - apply Hacc; [by eexists _, _|]. intros rest. vm_compute. done.
  - vm_compute. done.
Qed.


(** C5 for a record without the configured field. *)
Lemma empty_field_skipped_witness :
  processLine demoOS (demoProcessor "exact" ["wallstreetbets"]) submissions
    (json "{'title':'GME'}") (mkWorld ∅ []) = (LineEmpty, mkWorld ∅ []) ∨
  processLine demoOS (demoProcessor "exact" ["wallstreetbets"]) submissions
    (json "{'title':'GME'}") (mkWorld ∅ []) = (FieldEmpty, mkWorld ∅ []).
Proof.
  apply (empty_field_skipped demoOS (demoProcessor "exact" ["wallstreetbets"]) submissions
           (json "{'title':'GME'}") (mkWorld ∅ [])).
  right. by vm_compute.
Defined.

(** C9 on a readable tree with one archive and one other file. *)
Lemma discovery_selects_witness :
  ProcessAndServe (demoProcessor "exact" ["wallstreetbets"]) false demoTree [] =
  CallServe (demoProcessor "exact" ["wallstreetbets"]) [submissions]
    [foundLog submissions].
Proof.
  destruct (discovery_selects (demoProcessor "exact" ["wallstreetbets"]) demoTree []
              (demoProcessor "exact" ["wallstreetbets"]) eq_refl) as (_ & _ & Hok & _).
  by rewrite (Hok eq_refl).
Defined.

(** C9, as stated, fails: an entry that is not a regular file is
    selected as well.  A symbolic link named like an archive is handed
    to [Serve]. *)
Lemma discovery_selects_symlink :
  ProcessAndServe (demoProcessor "exact" ["wallstreetbets"]) false linkTree [] =
    CallServe (demoProcessor "exact" ["wallstreetbets"]) ["in/RC_2019-12.zst"]
      [foundLog "in/RC_2019-12.zst"] ∧
  entryAt "in" linkTree "in/RC_2019-12.zst" (NodeFile "RC_2019-12.zst" KSymlink) ∧
  ∀ name, ¬ entryAt "in" linkTree "in/RC_2019-12.zst" (NodeFile name KRegular).
Proof.
  split_and!.
  - by vm_compute.
  - eapply EntryBelow; [by left|]. apply EntryHere.
  - intros name Hat. inversion Hat as [|? ? ? e ? ? Hin Hbelow]; subst.
    apply list_elem_of_singleton in Hin as ->. by inversion Hbelow.
Qed.


(** C4, as stated, fails beyond ASCII: the two modes do not ignore case
    in the same way.  [strings.EqualFold] folds the long s to S, so the
    field value made of a long s matches the candidate S in exact mode;
    [strings.ToLower] leaves the long s as it is, so in partial mode the
    same candidate is not found in the same field value.  No notion of
    equality ignoring case fits both. *)
Lemma modes_disagree_on_case :
  matchOne (demoProcessor "exact" ["S"]) 0 "S" longS = Some true ∧
  matchOne (demoProcessor "partial" ["S"]) 0 "S" longS = Some false ∧
  ¬ modesIgnoreCase (demoProcessor "exact" ["S"]) (demoProcessor "partial" ["S"]).
Proof.
  split_and!; [by vm_compute|by vm_compute|].
  intros (same & Hexact & Hpartial).
  assert (same longS "S"%string) as Hsame by (apply (Hexact 0%nat); by vm_compute).
  assert (matchOne (demoProcessor "partial" ["S"]) 0 "S" longS = Some true) as Hp.
  { apply Hpartial. exists EmptyString, longS, EmptyString. split; [done|exact Hsame]. }
  by vm_compute in Hp.
Qed.

(** C8, as stated, fails: a failing write does not only drop its line.
    [write] discards the count [WriteString] returns, so the bytes
    written before the error stay in the file, and the next line that
    is written goes right behind them. *)
Lemma write_failure_leaves_fragment :
  ¬ failedWriteDropsLine tornOS (demoProcessor "exact" ["wallstreetbets"]) ∧
  files (write tornOS (demoProcessor "exact" ["wallstreetbets"]) submissions
           "wallstreetbets" line1 (mkWorld ∅ []))
    !! "out/RS_2020-01_wallstreetbets.ndjson" = Some (takeBytes 5 line1) ∧
  files (write tornOS (demoProcessor "exact" ["wallstreetbets"]) submissions
           "wallstreetbets" line3
           (write tornOS (demoProcessor "exact" ["wallstreetbets"]) submissions
              "wallstreetbets" line1 (mkWorld ∅ [])))
    !! "out/RS_2020-01_wallstreetbets.ndjson" =
  Some (takeBytes 5 line1 +:+ line3 +:+ newline).
Proof.
  split_and!.
  - intros Hdrop.
    specialize (Hdrop submissions "wallstreetbets"%string line1 (mkWorld ∅ [])
                  eq_refl ltac:(vm_compute; discriminate)).
    vm_compute in Hdrop. discriminate Hdrop.
  - vm_compute. reflexivity.
  - vm_compute. reflexivity.
Qed.

(** ** [Serve] as a whole *)

(** The cases of a step, with the state it leads to. *)
Ltac step_inv Hs :=
  lazymatch type of Hs with
  | step ?os ?p ?a ?s = Some ?s' =>
      destruct a as [| |?i| | | | |];
      [ simpl in Hs; destruct (pending s) as [|?file ?rest] eqn:?Hpend; [done|];
        case_bool_decide; [|done]; injection Hs as <-
      | simpl in Hs; destruct (pending s) eqn:?Hpend; [|done];
        destruct (serveRet s) eqn:?Hret; [done|];
        case_bool_decide; [|done]; injection Hs as <-
      | apply step_worker_inv in Hs as (?ws & ?m & ?Hi & ?Hm & ->)
      | simpl in Hs; destruct (shutdown s) eqn:?Hsd; try done; injection Hs as <-
      | simpl in Hs; injection Hs as <-
      | simpl in Hs; destruct (shutdown s) as [|[]|] eqn:?Hsd; try done;
        case_bool_decide; [|done]; injection Hs as <-
      | simpl in Hs; destruct (shutdown s) as [|[]|] eqn:?Hsd; try done;
        injection Hs as <-
      | simpl in Hs; destruct (shutdown s) as [|?|] eqn:?Hsd; try done;
        destruct (deadline s) eqn:?Hdl; [|done]; injection Hs as <- ]
  end.

Lemma sum_list_insert {A} (g : A → nat) (l : list A) (i : nat) (x y : A) :
  l !! i = Some x →
  (sum_list (g <$> <[i:=y]> l) + g x = sum_list (g <$> l) + g y)%nat.
Proof.
  revert i. induction l as [|a l IH]; intros [|i] Hi; csimpl in *; try done.
  - injection Hi as ->. lia.
  - specialize (IH i Hi). lia.
Qed.

Lemma count_zero {A} (g : A → bool) (l : list A) :
  length (filter (λ a, g a = true) l) = 0%nat ↔ ∀ a, a ∈ l → g a = false.
Proof.
  induction l as [|a l IH]; simpl.
  - split; [|done]. intros _ a Ha. by apply elem_of_nil in Ha.
  - rewrite filter_cons. split.
    + case_decide as Hg; simpl; [done|]. intros Hl b [Hb|Hb]%elem_of_cons.
      * subst b. by destruct (g a).
      * by apply IH.
    + intros Hall. case_decide as Hg; simpl.
      * rewrite (Hall a) in Hg; [done|]. by left.
      * apply IH. intros b Hb. apply Hall. by right.
Qed.

Section ServeFacts.
Context `{GoLibrary}.
Variable os : OS.
Variable p : Processor.

Lemma run_invariant (P : state → Prop) (acts : list action) (s s' : state) :
  (∀ a t t', P t → step os p a t = Some t' → P t') →
  P s → run os p acts s = Some s' → P s'.
Proof.
  intros Hstep. revert s. induction acts as [|a acts IH]; intros s Hs; simpl.
  - by intros [= <-].
  - destruct (step os p a s) as [s1|] eqn:Hs1; [|done]. simpl.
    apply IH. by eapply Hstep.
Qed.

Lemma workerStep_fileOf (flag : bool) (ws : workerState) (w : world) (m : workerMove) :
  workerStep os p flag ws w = Some m → fileOf (nextState m) = fileOf ws.
Proof.
  destruct ws as [file|file data|file line data|file pv|file]; simpl.
  - destruct (openInput _) as [[? ?]|?]; by intros [= <-].
  - destruct (bufio_Scan _ _); [destruct flag|..]; by intros [= <-].
  - destruct (processLine _ _ _ _ _) as [[] ?]; by intros [= <-].
  - by intros [= <-].
  - done.
Qed.


Lemma step_admitted (a : action) (s s' : state) :
  step os p a s = Some s' →
  (fileOf <$> workers s') ++ pending s' = (fileOf <$> workers s) ++ pending s.
Proof.
  intros Hs. step_inv Hs; simpl; try done.
  - by rewrite fmap_app, <- app_assoc.
  - rewrite list_fmap_insert, (workerStep_fileOf _ _ _ _ Hm).
    rewrite list_insert_id; [done|]. by rewrite list_lookup_fmap, Hi.
Qed.

Lemma admitted_run (acts : list action) (s s' : state) :
  run os p acts s = Some s' →
  (fileOf <$> workers s') ++ pending s' = (fileOf <$> workers s) ++ pending s.
Proof.
  intros Hrun.
  apply (run_invariant
           (λ t, (fileOf <$> workers t) ++ pending t = (fileOf <$> workers s) ++ pending s)
           acts s s'); [|done|done].
  intros a t t' Ht Hs. by rewrite (step_admitted _ _ _ Hs).
Qed.

Lemma unfinished_zero (s : state) (i : nat) (ws : workerState) :
  unfinished s = 0%nat → workers s !! i = Some ws → isDone ws = true.
Proof.
  intros Hz Hi. unfold unfinished in Hz.
  pose proof (proj1 (count_zero (λ ws, negb (isDone ws)) (workers s)) Hz ws) as Hd.
  simpl in Hd. apply negb_false_iff, Hd. by eapply list_elem_of_lookup_2.
Qed.

Lemma no_step_when_done (s : state) (i : nat) :
  unfinished s = 0%nat → step os p (ActWorker i) s = None.
Proof.
  intros Hz. simpl. destruct (workers s !! i) as [ws|] eqn:Hi; [|done]. simpl.
  pose proof (unfinished_zero s i ws Hz Hi) as Hd.
  destruct ws; try done.
Qed.

Lemma returned_step (a : action) (s s' : state) :
  counted p s → returned s → step os p a s = Some s' → returned s'.
Proof.
  intros (_ & Hwg & _) Hret Hs r. step_inv Hs; simpl; try (by apply Hret).
  - intros Hr. destruct (Hret r Hr) as (Hp & _). by rewrite Hp in Hpend.
  - intros [= <-]. split_and!; [done|unfold unfinished in *; simpl; lia|].
    destruct (inShutdown s); [by right|by left].
  - intros Hr. destruct (Hret r Hr) as (Hp & Hz & _).
    pose proof (unfinished_zero s i ws Hz Hi) as Hd.
    destruct (workerStep_flags _ _ _ _ _ _ Hm) as (_ & _ & Hnd & _). congruence.
  - intros Hr. destruct (Hret r Hr) as (Hp & Hz & Hres). split_and!; try done.
    destruct Hres as [->|[-> _]]; [by left|by right].
Qed.
End ServeFacts.

Section ServeProgress.
Context `{GoLibrary}.
Variable os : OS.
Variable p : Processor.

Lemma workerStep_rank (flag : bool) (ws : workerState) (w : world) (m : workerMove) :
  workerStep os p flag ws w = Some m → (rank os (nextState m) < rank os ws)%nat.
Proof.
  destruct ws as [file|file data|file line data|file pv|file]; simpl.
  - unfold openInput.
    destruct (statErr _); [intros [= <-]; simpl; lia|].
    destruct (openErr _); [intros [= <-]; simpl; lia|].
    destruct (zstdErr _); intros [= <-]; simpl; lia.
  - destruct (bufio_Scan _ _) as [line rest| |] eqn:Hscan;
      [destruct flag|..]; intros [= <-]; simpl; try lia.
    apply bufio_Scan_token in Hscan as [_ Hlt]. lia.
  - destruct (processLine _ _ _ _ _) as [[] ?]; intros [= <-]; simpl; lia.
  - intros [= <-]. simpl. lia.
  - done.
Qed.

Lemma step_remaining (a : action) (s s' : state) :
  step os p a s = Some s' →
  (remaining os s' + (if isServeAction a then 1 else 0) ≤ remaining os s)%nat.
Proof.
  intros Hs. unfold remaining. step_inv Hs; simpl; try lia.
  - rewrite fmap_app, sum_list_with_app. csimpl. lia.
  - pose proof (sum_list_insert (rank os) _ _ _ (nextState m) Hi) as Hsum.
    pose proof (workerStep_rank _ _ _ _ Hm). lia.
Qed.

Lemma run_remaining (acts : list action) (s s' : state) :
  run os p acts s = Some s' →
  (countServe acts + remaining os s' ≤ remaining os s)%nat.
Proof.
  revert s. induction acts as [|a acts IH]; intros s; simpl.
  - intros [= <-]. unfold countServe. simpl. lia.
  - destruct (step os p a s) as [s1|] eqn:Hs1; [|done]. simpl. intros Hrun.
    specialize (IH _ Hrun). pose proof (step_remaining _ _ _ Hs1) as Hd.
    unfold countServe in *. rewrite filter_cons.
    destruct (isServeAction a); case_decide; simpl; try done; lia.
Qed.

Lemma active_unfinished (s : state) : unfinished s = 0%nat → active s = 0%nat.
Proof.
  unfold unfinished, active. rewrite !count_zero. intros Hd ws Hws.
  specialize (Hd ws Hws). simpl in Hd. apply negb_false_iff in Hd. by destruct ws.
Qed.




Lemma remaining_init (f : list string) (log : list logRecord) :
  remaining os (initState f log) =
  (sum_list ((λ file, 2 * String.length (decoded (os_input os file)) + 4) <$> f) + 1)%nat.
Proof.
  unfold remaining. simpl. f_equal.
  induction f as [|file f IH]; csimpl; [done|]. rewrite IH. lia.
Qed.
End ServeProgress.

Section ServeTheorems.
Context `{GoLibrary}.
Variable os : OS.
Variable p : Processor.

Lemma returned_reachable (f : list string) (log : list logRecord) (s : state) :
  reachable os p f log s → counted p s ∧ returned s.
Proof.
  intros [acts Hrun].
  apply (run_invariant os p (λ t, counted p t ∧ returned t) acts (initState f log) s);
    [|split; [apply counted_init|done]|done].
  intros a t t' [Hc Hr] Hs. split; [by eapply counted_step|by eapply returned_step].
Qed.

(** X1: the loop of [Serve] starts one worker for each file of its
    argument, in the order of the argument: in every reachable state the
    files of the workers, followed by the files not yet reached, are the
    argument, and worker [i] works on file [i]. *)
Theorem serve_admits_in_order (f : list string) (log : list logRecord) (s : state) :
  reachable os p f log s →
  (fileOf <$> workers s) ++ pending s = f ∧
  (length (workers s) ≤ length f)%nat ∧
  (∀ i ws, workers s !! i = Some ws → f !! i = Some (fileOf ws)).
Proof.
  intros [acts Hrun]. pose proof (admitted_run os p _ _ _ Hrun) as Ha. simpl in Ha.
  split_and!; [done|..].
  - rewrite <- Ha, length_app, length_fmap. lia.
  - intros i ws Hi. rewrite <- Ha. apply lookup_app_l_Some.
    by rewrite list_lookup_fmap, Hi.
Qed.

(** X2: when [Serve] has returned, every file of its argument has had
    its worker, every worker has ended, both counters are back at zero,
    and the result is [nil] or, with the flag set, [ErrProcessClosed];
    from then on no step changes the output, the log or a worker. *)
Theorem serve_return_is_final (f : list string) (log : list logRecord) (s : state)
    (r : option string) :
  reachable os p f log s → serveRet s = Some r →
  pending s = [] ∧ fileOf <$> workers s = f ∧
  (∀ ws, ws ∈ workers s → ws = WDone (fileOf ws)) ∧
  sem s = 0%Z ∧ wg s = 0%Z ∧
  (r = None ∨ (r = Some ErrProcessClosed ∧ inShutdown s = true)) ∧
  (∀ a s', step os p a s = Some s' →
           env s' = env s ∧ workers s' = workers s ∧ serveRet s' = Some r).
Proof.
  intros Hreach Hr.
  destruct (returned_reachable f log s Hreach) as [(Hsem & Hwg & _) Hret].
  destruct (Hret r Hr) as (Hp & Hz & Hres).
  destruct Hreach as [acts Hrun].
  pose proof (admitted_run os p _ _ _ Hrun) as Ha. simpl in Ha.
  rewrite Hp, app_nil_r in Ha.
  split_and!; try done.
  - intros ws [i Hi]%list_elem_of_lookup_1.
    pose proof (unfinished_zero s i ws Hz Hi). by destruct ws.
  - rewrite Hsem, (active_unfinished s Hz). done.
  - by rewrite Hwg, Hz.
  - intros a s' Hs. step_inv Hs; simpl; try done.
    pose proof (unfinished_zero s i ws Hz Hi) as Hd.
    destruct (workerStep_flags _ _ _ _ _ _ Hm) as (_ & _ & Hnd & _). congruence.
Qed.

Lemma idle_step (f : list string) (log : list logRecord) (a : action) (s s' : state) :
  (Threads p ≤ 0)%Z → idle f log s → step os p a s = Some s' → idle f log s'.
Proof.
  intros HT (Hw & Hp & He & Hsem & Hret) Hs. unfold idle.
  step_inv Hs; simpl; try done.
  - lia.
  - by rewrite Hw in Hi.
Qed.

(** X3: with a thread count of zero or less the semaphore never admits
    a worker: no file is opened, nothing is written or logged, and with
    at least one file [Serve] does not return. *)
Theorem serve_blocks_without_threads (f : list string) (log : list logRecord)
    (s : state) :
  (Threads p ≤ 0)%Z → reachable os p f log s →
  workers s = [] ∧ pending s = f ∧ env s = mkWorld ∅ log ∧
  (f ≠ [] → serveRet s = None).
Proof.
  intros HT [acts Hrun].
  destruct (run_invariant os p (idle f log) acts (initState f log) s)
    as (Hw & Hp & He & _ & Hret); [|done|done|done].
  intros a t t'. by apply idle_step.
Qed.

(** X4: whatever the schedule, [Serve] and its workers take a bounded
    number of steps: at most two for each byte of the decoded input and
    four more for each file, and one for the return. *)
Theorem serve_steps_bounded (f : list string) (log : list logRecord)
    (acts : list action) (s : state) :
  run os p acts (initState f log) = Some s →
  (countServe acts ≤
   sum_list ((λ file, 2 * String.length (decoded (os_input os file)) + 4) <$> f) + 1)%nat.
Proof.
  intros Hrun. pose proof (run_remaining os p _ _ _ Hrun) as Hle.
  rewrite remaining_init in Hle. lia.
Qed.

End ServeTheorems.

(** ** What a run leaves behind *)

Lemma extends_refl (w : world) : extends w w.
Proof.
  split.
  - intros name old Hn. exists EmptyString. by rewrite append_empty_r.
  - exists []. by rewrite app_nil_r.
Qed.

Lemma extends_trans (w1 w2 w3 : world) : extends w1 w2 → extends w2 w3 → extends w1 w3.
Proof.
  intros [Hf1 [l1 Hl1]] [Hf2 [l2 Hl2]]. split.
  - intros name old Hn. destruct (Hf1 _ _ Hn) as [m1 H1].
    destruct (Hf2 _ _ H1) as [m2 H2]. exists (m1 +:+ m2). by rewrite <- append_assoc.
  - exists (l1 ++ l2). by rewrite Hl2, Hl1, app_assoc.
Qed.

Lemma extends_addLog (r : logRecord) (w w' : world) :
  extends w w' → extends w (addLog r w').
Proof.
  intros Hw. eapply extends_trans; [done|]. split.
  - intros name old Hn. exists EmptyString. by rewrite append_empty_r.
  - by exists [r].
Qed.

Section WorldFacts.
Context `{GoLibrary}.
Variable os : OS.
Variable p : Processor.

Lemma write_extends (file v line : string) (w : world) :
  extends w (write os p file v line w).
Proof.
  unfold write. destruct (os_openFails os _).
  { apply extends_addLog, extends_refl. }
  assert (∀ more,
            extends w (mkWorld (<[outFileName p file v :=
                                  default EmptyString (files w !! outFileName p file v)
                                  +:+ more]> (files w)) (logged w))) as Hins.
  { intros more. split.
    - intros name old Hn. simpl.
      destruct (decide (name = outFileName p file v)) as [->|Hne].
      + rewrite lookup_insert_eq, Hn. simpl. by exists more.
      + rewrite lookup_insert_ne by done. exists EmptyString.
        by rewrite append_empty_r.
    - exists []. simpl. by rewrite app_nil_r. }
  destruct (os_writeFails os _ _) as [[n err]|].
  - apply extends_addLog, Hins.
  - apply Hins.
Qed.

Lemma processLine_extends (file line : string) (w : world) :
  extends w (processLine os p file line w).2.
Proof.
  unfold processLine. destruct (_ =? _)%nat; [apply extends_refl|].
  destruct (String.eqb _ _); [apply extends_refl|].
  destruct (matchLoop _ _ _ _); simpl;
    [apply write_extends|apply extends_refl|apply extends_refl].
Qed.

Lemma workerStep_extends (flag : bool) (ws : workerState) (w : world) (m : workerMove) :
  workerStep os p flag ws w = Some m → extends w (nextWorld m).
Proof.
  destruct ws as [file|file data|file line data|file pv|file]; simpl.
  - destruct (openInput _) as [[? ?]|?]; intros [= <-]; simpl;
      [apply extends_addLog|]; apply extends_refl.
  - destruct (bufio_Scan _ _); [destruct flag|..]; intros [= <-]; simpl;
      try apply extends_addLog; apply extends_refl.
  - pose proof (processLine_extends file line w) as He.
    destruct (processLine _ _ _ _ _) as [[] ?]; by intros [= <-].
  - destruct pv; intros [= <-]; simpl; [apply extends_addLog|]; apply extends_refl.
  - done.
Qed.

Lemma step_extends (a : action) (s s' : state) :
  step os p a s = Some s' → extends (env s) (env s').
Proof.
  intros Hs. step_inv Hs; simpl; try apply extends_refl.
  by eapply workerStep_extends.
Qed.

(** X6: a run only adds: every output file that exists keeps its
    content as a prefix of what it holds later, and every record of the
    log stays in its place; nothing is truncated, rewritten or
    removed. *)
Theorem output_only_grows (acts : list action) (s s' : state) :
  run os p acts s = Some s' →
  (∀ name old, files (env s) !! name = Some old →
               ∃ more, files (env s') !! name = Some (old +:+ more)) ∧
  (∃ more, logged (env s') = logged (env s) ++ more).
Proof.
  intros Hrun.
  apply (run_invariant os p (λ t, extends (env s) (env t)) acts s s');
    [|apply extends_refl|done].
  intros a t t' Ht Hs. eapply extends_trans; [done|]. by eapply step_extends.
Qed.

(** ** After the flag is set *)

Lemma workerStep_rankDown (ws : workerState) (w : world) (m : workerMove) :
  workerStep os p true ws w = Some m → (rankDown (nextState m) < rankDown ws)%nat.
Proof.
  destruct ws as [file|file data|file line data|file pv|file]; simpl.
  - destruct (openInput _) as [[? ?]|?]; intros [= <-]; simpl; lia.
  - destruct (bufio_Scan _ _); intros [= <-]; simpl; lia.
  - destruct (processLine _ _ _ _ _) as [[] ?]; intros [= <-]; simpl; lia.
  - intros [= <-]. simpl. lia.
  - done.
Qed.

Lemma step_remainingDown (a : action) (s s' : state) :
  inShutdown s = true → step os p a s = Some s' →
  (remainingDown s' + (if isServeAction a then 1 else 0) ≤ remainingDown s)%nat.
Proof.
  intros Hflag Hs. unfold remainingDown. step_inv Hs; simpl; try lia.
  - rewrite fmap_app, sum_list_with_app. csimpl. lia.
  - rewrite Hflag in Hm. pose proof (workerStep_rankDown _ _ _ Hm) as Hlt.
    pose proof (sum_list_insert rankDown _ _ _ (nextState m) Hi) as Hsum. lia.
Qed.

Lemma run_remainingDown (acts : list action) (s s' : state) :
  inShutdown s = true → run os p acts s = Some s' →
  (countServe acts + remainingDown s' ≤ remainingDown s)%nat.
Proof.
  revert s. induction acts as [|a acts IH]; intros s Hflag; simpl.
  - intros [= <-]. unfold countServe. simpl. lia.
  - destruct (step os p a s) as [s1|] eqn:Hs1; [|done]. simpl. intros Hrun.
    specialize (IH _ (step_flag os p _ _ _ Hs1 Hflag) Hrun).
    pose proof (step_remainingDown _ _ _ Hflag Hs1) as Hd.
    unfold countServe in *. rewrite filter_cons.
    destruct (isServeAction a); case_decide; simpl; try done; lia.
Qed.

Lemma rankDown_sum (l : list workerState) :
  (sum_list (rankDown <$> l) ≤ 3 * length l)%nat.
Proof.
  induction l as [|ws l IH]; csimpl; [lia|]. destruct ws; simpl; lia.
Qed.

(** X7: once the flag is set, what is left of the run does not depend
    on the size of the input: [Serve] and its workers take at most
    three more steps for each worker, four for each file still to be
    admitted, and one for the return. *)
Theorem shutdown_steps_bounded (acts : list action) (s s' : state) :
  inShutdown s = true → run os p acts s = Some s' →
  (countServe acts ≤ 3 * length (workers s) + 4 * length (pending s) + 1)%nat.
Proof.
  intros Hflag Hrun. pose proof (run_remainingDown _ _ _ Hflag Hrun) as Hle.
  pose proof (rankDown_sum (workers s)) as Hsum.
  unfold remainingDown in Hle at 2. destruct (serveRet s); lia.
Qed.

(** ** [serve] of the application *)

Lemma flagged_step (a : action) (s s' : state) :
  flagged s → step os p a s = Some s' → flagged s'.
Proof.
  unfold flagged. intros Hf Hs. step_inv Hs; simpl; try done.
  all: by intros ?%Hf.
Qed.

Lemma app_invariants (f : list string) (log : list logRecord) (s : state) :
  reachable os p f log s → counted p s ∧ returned s ∧ flagged s ∧ timedOut s.
Proof.
  intros [acts Hrun].
  apply (run_invariant os p (λ t, counted p t ∧ returned t ∧ flagged t ∧ timedOut t)
           acts (initState f log) s); [| |done].
  - intros a t t' (Hc & Hr & Hf & Ht) Hs. split_and!.
    + by eapply counted_step.
    + by eapply returned_step.
    + by eapply flagged_step.
    + by eapply timedOut_step.
  - split_and!; [apply counted_init|done|done|done].
Qed.

(** Through [Serve], [serve] of the application returns only when
    [Serve] has returned. *)
Lemma appReturn_after_Serve (f : list string) (log : list logRecord) (s : state)
    (r : option string) :
  reachable os p f log s → appReturn s = Some r →
  pending s = [] ∧ fileOf <$> workers s = f ∧
  (∀ ws, ws ∈ workers s → ws = WDone (fileOf ws)) ∧
  (r = None ∨
   (r = Some DeadlineExceeded ∧ deadline s = true ∧ inShutdown s = true)).
Proof.
  intros Hreach Happ.
  destruct (app_invariants f log s Hreach) as (Hc & Hret & Hf & Ht).
  unfold appReturn in Happ.
  destruct (serveRet s) as [r0|] eqn:Hr0; [|done].
  destruct (Hret r0 Hr0) as (Hp & Hz & Hres).
  destruct Hreach as [acts Hrun].
  pose proof (admitted_run os p _ _ _ Hrun) as Ha. simpl in Ha.
  rewrite Hp, app_nil_r in Ha.
  split_and!; try done.
  - intros ws [i Hi]%list_elem_of_lookup_1.
    pose proof (unfinished_zero s i ws Hz Hi). by destruct ws.
  - destruct Hres as [->|[-> Hflag]].
    + injection Happ as <-. by left.
    + simpl in Happ. destruct (shutdown s) as [| |r1] eqn:Hsd; try done.
      injection Happ as <-. destruct r1 as [e|]; [|by left].
      destruct (Ht e Hsd) as [-> Hdl]. by right.
Qed.

End WorldFacts.

Section Application.
Context `{GoLibrary}.
Variable os : OS.

(** X8: how [serve] of the application returns.  When [ProcessAndServe]
    has called [Serve], [serve] returns only when [Serve] has returned:
    every file has had its worker and every worker has ended, also when
    [Shutdown] gave up at its deadline; it returns [nil], or the error
    of the shutdown context after the deadline, and never
    [ErrProcessClosed].  When [ProcessAndServe] returns before it calls
    [Serve], [serve] returns [nil] when no input file was found, the
    error of the walk when the walk failed, and, when the flag was set
    at the entry, the result of [Shutdown], which is [nil] or the error
    of the shutdown context after the deadline.  When a pattern does
    not compile [serve] does not return. *)
Theorem app_serve_return (p0 : Processor) (flag : bool) (root : fsNode)
    (log0 : list logRecord) (s : state) (r : option string) :
  appServe p0 flag root log0 s = AppReturns r →
  (∀ p f log, ProcessAndServe p0 flag root log0 = CallServe p f log →
     reachable os p f log s →
     is_Some (serveRet s) ∧ pending s = [] ∧ fileOf <$> workers s = f ∧
     (∀ ws, ws ∈ workers s → ws = WDone (fileOf ws)) ∧
     (r = None ∨
      (r = Some DeadlineExceeded ∧ deadline s = true ∧ inShutdown s = true))) ∧
  (∀ log, ProcessAndServe p0 flag root log0 = ReturnNil log → r = None) ∧
  (∀ err log, ProcessAndServe p0 flag root log0 = ReturnErr err log →
     if flag then
       err = ErrProcessClosed ∧ shutdown s = Returned r ∧
       ∀ p f log', reachable os p f log' s →
         r = None ∨ (r = Some DeadlineExceeded ∧ deadline s = true)
     else
       r = Some err ∧ ∃ p, compilePatterns p0 = Some p ∧
                           (walk p (Input p) root ([], log0)).1 = Some err) ∧
  ProcessAndServe p0 flag root log0 ≠ CompilePanic.
Proof.
  intros Happ. unfold appServe in Happ. split_and!.
  - intros p f log Hd Hreach. rewrite Hd in Happ.
    destruct (appReturn s) as [r'|] eqn:Ha; [|done]. injection Happ as ->.
    destruct (appReturn_after_Serve os p f log s r Hreach Ha) as (Hp & Hf & Hw & Hr).
    split_and!; try done. unfold appReturn in Ha. by destruct (serveRet s).
  - intros log Hd. rewrite Hd in Happ. by injection Happ.
  - intros err log Hd. rewrite Hd in Happ. destruct flag.
    + unfold ProcessAndServe in Hd. injection Hd as <- _.
      destruct (shutdown s) as [| |r'] eqn:Hsd; try done. injection Happ as ->.
      split_and!; try done. intros p f log' Hreach.
      destruct (app_invariants os p f log' s Hreach) as (_ & _ & _ & Ht).
      destruct r as [e|]; [|by left]. right. destruct (Ht e Hsd) as [-> Hdl]. done.
    + injection Happ as <-. split; [done|]. unfold ProcessAndServe in Hd.
      destruct (compilePatterns p0) as [p|]; [|done]. exists p. split; [done|].
      destruct (walk p (Input p) root ([], log0)) as [[e|] [[|g f] log']]; try done.
      * by injection Hd as ->.
      * by injection Hd as ->.
  - intros Hd. by rewrite Hd in Happ.
Qed.
End Application.

(** ** From the input to the output *)

Lemma scanLines_fuel (max : N) (n m : nat) (data : string) :
  (String.length data ≤ n)%nat → (String.length data ≤ m)%nat →
  scanLines n max data = scanLines m max data.
Proof.
  revert m data. induction n as [|n IH]; intros m data Hn Hm.
  - destruct data; [|simpl in Hn; lia]. by destruct m.
  - destruct m as [|m].
    + destruct data; [done|simpl in Hm; lia].
    + simpl. destruct (bufio_Scan max data) as [line rest| |] eqn:Hscan; try done.
      apply bufio_Scan_token in Hscan as [_ Hlt]. f_equal. apply IH; lia.
Qed.

Lemma linesOf_unfold (data : string) :
  linesOf data =
  match bufio_Scan maxTokenSize data with
  | ScanToken line rest => line :: linesOf rest
  | ScanEOF | ScanTooLong => []
  end.
Proof.
  unfold linesOf. destruct data as [|c data]; [done|].
  change (String.length (String c data)) with (S (String.length data)).
  cbn [scanLines].
  destruct (bufio_Scan maxTokenSize (String c data)) as [line rest| |] eqn:Hscan;
    try done.
  apply bufio_Scan_token in Hscan as [_ Hlt]. simpl in Hlt. f_equal.
  apply scanLines_fuel; lia.
Qed.

Section Pipeline.
Context `{GoLibrary}.
Variable os : OS.
Variable p : Processor.

Lemma matchLoop_no_panic (fieldVal : string) (vals : list string) (i j : nat) :
  (MatchMode p = "regex"%string → (i + length vals ≤ length (ValuesRegex p))%nat) →
  matchLoop p fieldVal i vals ≠ LoopPanic j.
Proof.
  revert i. induction vals as [|v vals IH]; intros i Hlen; simpl; [done|].
  assert (is_Some (matchOne p i v fieldVal)) as [b Hb].
  { unfold matchOne. destruct (String.eqb_spec (MatchMode p) "regex") as [Hm|Hm].
    - destruct (lookup_lt_is_Some_2 (ValuesRegex p) i) as [rx Hrx].
      { specialize (Hlen Hm). simpl in Hlen. lia. }
      rewrite Hrx. by eexists.
    - destruct (String.eqb _ _); [by eexists|]. destruct (String.eqb _ _); by eexists. }
  rewrite Hb. destruct b; [done|]. apply IH. intros Hm. specialize (Hlen Hm).
  simpl in Hlen. lia.
Qed.

Lemma processLine_no_panic (file line : string) (w : world) (i : nat) :
  patternsCover p → (processLine os p file line w).1 ≠ IndexPanic i.
Proof.
  intros Hc. unfold processLine. destruct (_ =? _)%nat; [done|].
  destruct (String.eqb _ _); [done|].
  destruct (matchLoop _ _ _ _) as [| |j] eqn:Hl; try done.
  by apply matchLoop_no_panic in Hl.
Qed.

Lemma processLine_lineHit (file line : string) (w : world) :
  (processLine os p file line w).2 =
  match lineHit p line with
  | Some val => write os p file val line w
  | None => w
  end.
Proof.
  unfold processLine, lineHit. destruct (_ =? _)%nat; [done|].
  destruct (String.eqb _ _); [done|]. by destruct (matchLoop _ _ _ _).
Qed.

Lemma emitted_app (file name : string) (l1 l2 : list string) :
  emitted p file name (l1 ++ l2) = emitted p file name l1 +:+ emitted p file name l2.
Proof.
  induction l1 as [|line l1 IH]; simpl; [done|].
  destruct (lineHit p line); [|done]. destruct (String.eqb _ _); [|done].
  by rewrite IH, !append_assoc.
Qed.

Lemma processLine_content (file name line : string) (w : world) :
  acceptsWrites os →
  default EmptyString (files (processLine os p file line w).2 !! name) =
  default EmptyString (files w !! name) +:+ emitted p file name [line].
Proof.
  intros Hok. rewrite processLine_lineHit. simpl.
  destruct (lineHit p line) as [val|]; [|by rewrite append_empty_r].
  destruct (Hok (outFileName p file val) (line +:+ newline)) as [Ho Hw].
  rewrite (write_ok os p file val line w Ho Hw). simpl.
  destruct (String.eqb_spec (outFileName p file val) name) as [<-|Hne].
  - rewrite lookup_insert_eq. reflexivity.
  - rewrite lookup_insert_ne by done. by rewrite append_empty_r.
Qed.

(** A line is written for a configured candidate. *)
Lemma lineHit_configured (line val : string) :
  lineHit p line = Some val → val ∈ Values p.
Proof.
  unfold lineHit. destruct (_ =? _)%nat; [done|]. destruct (String.eqb _ _); [done|].
  destruct (matchLoop _ _ _ _) as [j v| |] eqn:Hl; try done. intros [= <-].
  apply matchLoop_hit_inv in Hl as (pre & post & -> & _).
  apply elem_of_app. right. by left.
Qed.

(** A worker writes to the output files of its own input file and of
    the configured candidates only. *)
Lemma workerStep_foreign (flag : bool) (ws : workerState) (w : world) (m : workerMove)
    (name : string) :
  workerStep os p flag ws w = Some m →
  (∀ v, v ∈ Values p → outFileName p (fileOf ws) v ≠ name) →
  files (nextWorld m) !! name = files w !! name.
Proof.
  intros Hm Hname.
  destruct ws as [file|file data|file line data|file pv|file];
    try (by rewrite (workerStep_files os p _ _ _ _ Hm)).
  simpl in Hm, Hname.
  assert (files (processLine os p file line w).2 !! name = files w !! name) as Hf.
  { rewrite processLine_lineHit. destruct (lineHit p line) as [val|] eqn:Hhit; [|done].
    apply write_other. intros ->. apply (Hname val); [|done].
    by eapply lineHit_configured. }
  destruct (processLine _ _ _ _ _) as [[] ?]; by injection Hm as <-.
Qed.
End Pipeline.

Lemma tracks_mono (c c' : Prop) (all rest : list string) (ows : option workerState) :
  (c' → c) → tracks c all rest ows → tracks c' all rest ows.
Proof. intros Hc. destruct ows as [[]|]; simpl; auto. Qed.

Section EndToEnd.
Context `{GoLibrary}.
Variable os : OS.
Variable p : Processor.
Variable f : list string.
Variable k : nat.
Variable file name before : string.
Hypothesis Hwrites : acceptsWrites os.
Hypothesis Hfile : f !! k = Some file.
Hypothesis Hother :
  ∀ i g v, f !! i = Some g → i ≠ k → v ∈ Values p → outFileName p g v ≠ name.

Lemma unstopped_step (a : action) (s s' : state) :
  step os p a s = Some s' → unstopped p s' → unstopped p s.
Proof.
  intros Hs [Hpc Hu]. split; [done|]. step_inv Hs; simpl in Hu; try done.
  - destruct Hu as [Hu|Hu]; [by left|]. left. by destruct (inShutdown s).
  - destruct Hu as [Hu|Hu]; [done|by right].
Qed.

Lemma emits_worker (s : state) (ws : workerState) (m : workerMove) :
  returned s → workers s !! k = Some ws → fileOf ws = file →
  workerStep os p (inShutdown s) ws (env s) = Some m →
  ∀ done rest,
    allLines os file = done ++ rest →
    default EmptyString (files (env s) !! name) = before +:+ emitted p file name done →
    tracks (unstopped p s) (allLines os file) rest (Some ws) →
    ∃ done' rest',
      allLines os file = done' ++ rest' ∧
      default EmptyString (files (nextWorld m) !! name) =
        before +:+ emitted p file name done' ∧
      tracks (unstopped p s) (allLines os file) rest' (Some (nextState m)).
Proof.
  intros Hret Hk Hfk Hm done rest Hall Hcont Htr.
  destruct ws as [g|g data|g line data|g pv|g]; simpl in Hfk, Hm, Htr; subst g.
  - unfold allLines in *.
    destruct (openInput (os_input os file)) as [[msg err]|data] eqn:Ho;
      injection Hm as <-; exists done, rest; simpl; by split_and!.
  - rewrite linesOf_unfold in Htr.
    destruct (bufio_Scan maxTokenSize data) as [line rest'| |] eqn:Hscan.
    + destruct (inShutdown s) eqn:Hflag; injection Hm as <-; exists done, rest;
        simpl; split_and!; try done.
      intros [_ [Hu|Hu]]; [congruence|]. destruct (Hret _ Hu) as (_ & Hz & _).
      by pose proof (unfinished_zero s k _ Hz Hk).
    + injection Hm as <-. exists done, rest. simpl. by split_and!.
    + injection Hm as <-. exists done, rest. simpl. by split_and!.
  - pose proof (processLine_content os p file name line (env s) Hwrites) as Hpc.
    pose proof (processLine_no_panic os p file line (env s)) as Hnp.
    exists (done ++ [line]), (linesOf data).
    rewrite emitted_app, <- append_assoc, <- Hcont, <- app_assoc. simpl app.
    rewrite <- Htr.
    destruct (processLine os p file line (env s)) as [[| |tried hit|tried] w'];
      injection Hm as <-; simpl in *; split_and!; try done.
    intros [Hc _]. by destruct (Hnp tried Hc).
  - injection Hm as <-. exists done, rest. simpl. split_and!; try done.
    by destruct pv.
  - done.
Qed.

Lemma emits_step (a : action) (s s' : state) :
  returned s → (fileOf <$> workers s) ++ pending s = f →
  emitsInOrder os p k file name before s → step os p a s = Some s' →
  emitsInOrder os p k file name before s'.
Proof.
  intros Hret Hadm (done & rest & Hall & Hcont & Htr) Hs.
  destruct (action_cases a) as [[i ->]|Hnw].
  - apply step_worker_inv in Hs as (ws & m & Hi & Hm & ->).
    assert (f !! i = Some (fileOf ws)) as Hfi.
    { rewrite <- Hadm. apply lookup_app_l_Some. by rewrite list_lookup_fmap, Hi. }
    assert (i < length (workers s))%nat as Hlt by by eapply lookup_lt_Some.
    destruct (decide (i = k)) as [->|Hne].
    + rewrite Hfile in Hfi. injection Hfi as Hfk. rewrite Hi in Htr.
      destruct (emits_worker s ws m Hret Hi (eq_sym Hfk) Hm done rest Hall Hcont Htr)
        as (done' & rest' & Hall' & Hcont' & Htr').
      exists done', rest'. simpl. rewrite list_lookup_insert_eq by done. done.
    + exists done, rest. simpl. rewrite list_lookup_insert_ne by done.
      split_and!; [done| |done].
      rewrite (workerStep_foreign os p _ _ _ _ name Hm); [done|].
      intros v Hv. by apply (Hother i).
  - destruct (step_workers_other os p a s s' Hs Hnw) as [Henv Hw].
    exists done, rest. split_and!; [done|by rewrite Henv|].
    eapply tracks_mono; [by apply (unstopped_step a s s')|].
    destruct Hw as [->|[g ->]]; [done|].
    destruct (workers s !! k) as [ws|] eqn:Hk.
    + by rewrite (lookup_app_l_Some _ _ _ _ Hk).
    + destruct ((workers s ++ [WAdmitted g]) !! k) as [ws|] eqn:Hk'; [|done].
      apply lookup_app_Some in Hk' as [Hk'|[_ Hk']]; [congruence|].
      by apply list_lookup_singleton_Some in Hk' as [_ <-].
Qed.

Lemma emits_reachable (w0 : world) (s : state) :
  before = default EmptyString (files w0 !! name) →
  reachableFrom os p f w0 s →
  returned s ∧ (fileOf <$> workers s) ++ pending s = f ∧
  emitsInOrder os p k file name before s.
Proof.
  intros Hbefore [acts Hrun].
  apply (run_invariant os p
           (λ t, counted p t ∧ returned t ∧
                 (fileOf <$> workers t) ++ pending t = f ∧
                 emitsInOrder os p k file name before t) acts (startState f w0) s);
    [| |done].
  - intros a t t' (Hc & Hr & Ha & He) Hs. split_and!.
    + by eapply counted_step.
    + by eapply returned_step.
    + by rewrite (step_admitted os p _ _ _ Hs).
    + by eapply emits_step.
  - split_and!; [apply counted_start|done|done|].
    exists [], (allLines os file). split_and!; [done| |done].
    simpl. by rewrite Hbefore, append_empty_r.
Qed.
End EndToEnd.

(** ** The scanner on well-formed input *)

Lemma cutNewline_app (l rest : string) :
  cutNewline l = None → cutNewline (l +:+ String "010" rest) = Some (l, rest).
Proof.
  induction l as [|c l IH]; simpl; [done|].
  destruct (Ascii.eqb c "010"); [done|].
  destruct (cutNewline l) as [[? ?]|]; [done|]. intros _. by rewrite IH.
Qed.

Lemma cutNewline_CR (l : string) :
  cutNewline l = None → cutNewline (l +:+ String "013" EmptyString) = None.
Proof.
  induction l as [|c l IH]; simpl; [done|].
  destruct (Ascii.eqb c "010"); [done|].
  destruct (cutNewline l) as [[? ?]|]; [done|]. intros _. by rewrite IH.
Qed.

Lemma dropCR_id (l : string) : endsWithCR l = false → dropCR l = l.
Proof.
  induction l as [|c l IH]; [done|]. destruct l as [|d l].
  - simpl. by intros ->.
  - intros Hl. change (dropCR (String c (String d l)))
      with (String c (dropCR (String d l))). by rewrite IH.
Qed.

Lemma dropCR_CR (l : string) : dropCR (l +:+ String "013" EmptyString) = l.
Proof.
  induction l as [|c l IH]; [done|]. simpl append.
  destruct (l +:+ String "013" EmptyString) as [|d l'] eqn:Hl.
  - by destruct l.
  - change (dropCR (String c (String d l'))) with (String c (dropCR (String d l'))).
    by rewrite IH.
Qed.

Lemma newline_app (x : string) : newline +:+ x = String "010" x.
Proof. done. Qed.

Lemma bufio_Scan_line (max : N) (l rest : string) :
  plainLine max l →
  bufio_Scan max (l +:+ String "010" rest) = ScanToken l rest.
Proof.
  intros (Hcut & Hcr & Hlen). unfold bufio_Scan.
  rewrite cutNewline_app by done.
  rewrite (proj2 (N.ltb_lt _ _)) by lia. rewrite dropCR_id by done.
  by destruct l.
Qed.

Lemma bufio_Scan_line_crlf (max : N) (l rest : string) :
  plainLine max l →
  bufio_Scan max (l +:+ crlf +:+ rest) = ScanToken l rest.
Proof.
  intros (Hcut & Hcr & Hlen). unfold bufio_Scan, crlf.
  replace (l +:+ String "013" (String "010" EmptyString) +:+ rest)
    with ((l +:+ String "013" EmptyString) +:+ String "010" rest)
    by (by rewrite append_assoc).
  rewrite cutNewline_app by by apply cutNewline_CR.
  rewrite (proj2 (N.ltb_lt _ _)) by (rewrite append_length; simpl; lia).
  rewrite dropCR_CR. by destruct l.
Qed.

Lemma bufio_Scan_last (max : N) (l : string) :
  plainLine max l → l ≠ EmptyString →
  bufio_Scan max l = ScanToken l EmptyString.
Proof.
  intros (Hcut & Hcr & Hlen) Hne. unfold bufio_Scan. rewrite Hcut.
  rewrite (proj2 (N.ltb_lt _ _)) by lia. rewrite dropCR_id by done.
  by destruct l.
Qed.

Lemma linesOf_lines (ls : list string) :
  Forall (plainLine maxTokenSize) ls → linesOf (joinLines newline ls) = ls.
Proof.
  induction 1 as [|l0 ls Hl0 Hls IH]; cbn [joinLines]; [done|].
  rewrite linesOf_unfold, newline_app, bufio_Scan_line by done. by rewrite IH.
Qed.

(** X11: the scanner hands out the lines as they were written: for
    lines without a newline inside, without a carriage return at the
    end and within the bound of the buffer, closed by LF or by CRLF;
    a last line that is not closed is handed out as well. *)
Theorem scan_round_trip (ls : list string) :
  Forall (plainLine maxTokenSize) ls →
  linesOf (joinLines newline ls) = ls ∧
  linesOf (joinLines crlf ls) = ls ∧
  ∀ l, plainLine maxTokenSize l → l ≠ EmptyString →
       linesOf (joinLines newline ls +:+ l) = ls ++ [l].
Proof.
  induction 1 as [|l0 ls Hl0 Hls (IH1 & IH2 & IH3)]; cbn [joinLines].
  - split_and!; [done|done|]. intros l Hl Hne. simpl append.
    rewrite linesOf_unfold, bufio_Scan_last by done. by rewrite linesOf_unfold.
  - split_and!.
    + rewrite linesOf_unfold, newline_app, bufio_Scan_line by done. by rewrite IH1.
    + rewrite linesOf_unfold, bufio_Scan_line_crlf by done. by rewrite IH2.
    + intros l Hl Hne. rewrite linesOf_unfold, !append_assoc, newline_app.
      rewrite bufio_Scan_line by done. by rewrite IH3.
Qed.

(** ** The name of an output file *)

Section OutputName.
Context `{GoLibrary}.

(** X12: the output file of a line is named by the base name of the
    input file without its extension, and by the candidate: for an
    input [dir/stem.ext] and a candidate [v] it is [stem_v.ndjson] in
    the output directory.  The directory of the input file does not
    enter the name. *)
Theorem output_file_name (p : Processor) (dir stem ext v : string) :
  hasSeparator stem = false → hasSeparator ext = false → hasDot ext = false →
  outFileName p (dir +:+ "/" +:+ stem +:+ "." +:+ ext) v =
  filepath_Join (Output p) (stem +:+ "_" +:+ v +:+ ".ndjson").
Proof.
  intros Hstem Hext Hdot. unfold outFileName. f_equal.
  assert (hasSeparator (stem +:+ String "." ext) = false) as Hnm.
  { rewrite hasSeparator_app. simpl. by rewrite Hstem, Hext. }
  change (dir +:+ "/" +:+ stem +:+ "." +:+ ext)
    with (dir +:+ String "/" (stem +:+ String "." ext)).
  rewrite filepath_Base_app; [|done|by destruct stem].
  replace (dir +:+ String "/" (stem +:+ String "." ext))
    with ((dir +:+ String "/" stem) +:+ String "." ext)
    by (by rewrite append_assoc).
  rewrite filepath_Ext_dot by done.
  by rewrite strings_TrimSuffix_app.
Qed.
End OutputName.

(** ** The patterns of regex mode *)

Section Patterns.
Context `{GoLibrary}.

Lemma compileAll_length (vals : list string) (res : list Regexp) :
  compileAll vals = Some res → length res = length vals.
Proof.
  revert res. induction vals as [|v vals IH]; intros res; simpl.
  - by intros [= <-].
  - destruct (regexp_Compile v); [|done]. simpl.
    destruct (compileAll vals) as [res'|]; [|done]. simpl.
    intros [= <-]. simpl. by rewrite (IH res').
Qed.

Lemma compileAll_None (vals : list string) :
  compileAll vals = None ↔ ∃ v, v ∈ vals ∧ regexp_Compile v = None.
Proof.
  induction vals as [|v vals IH]; simpl.
  - split; [done|]. intros (v & Hv & _). by apply elem_of_nil in Hv.
  - destruct (regexp_Compile v) as [rx|] eqn:Hc; simpl.
    + destruct (compileAll vals) as [res|]; simpl.
      * split; [done|]. intros (u & [->|Hu]%elem_of_cons & Hn); [congruence|].
        assert (Some res = None) as Hnone by (apply IH; by exists u). done.
      * split; [|done]. intros _. destruct (proj1 IH eq_refl) as (u & Hu & Hn).
        exists u. split; [by right|done].
    + split; [|done]. intros _. exists v. split; [by left|done].
Qed.

Lemma compilePatterns_cover (p p' : Processor) :
  compilePatterns p = Some p' → patternsCover p'.
Proof.
  unfold compilePatterns, patternsCover.
  destruct (String.eqb_spec (MatchMode p) "regex") as [Hm|Hm].
  - destruct (compileAll (Values p)) as [res|] eqn:Hc; [|done]. simpl.
    intros [= <-] _. simpl. rewrite length_app, (compileAll_length _ _ Hc). lia.
  - by intros [= <-] ?.
Qed.

Lemma ProcessAndServe_CallServe (p : Processor) (sd : bool) (root : fsNode)
    (log : list logRecord) (p' : Processor) (f : list string) (log' : list logRecord) :
  ProcessAndServe p sd root log = CallServe p' f log' →
  sd = false ∧ compilePatterns p = Some p' ∧ f ≠ [].
Proof.
  unfold ProcessAndServe. destruct sd; [done|].
  destruct (compilePatterns p) as [q|]; [|done].
  destruct (walk q (Input q) root ([], log)) as [[e|] [[|g f'] l]]; try done.
  by intros [= <- <- <-].
Qed.

(** X13: [ProcessAndServe] panics at its start exactly in regex mode
    with a candidate that does not compile; in the other modes the
    candidates are never compiled. *)
Theorem compile_panics_iff (p : Processor) (root : fsNode) (log : list logRecord) :
  ProcessAndServe p false root log = CompilePanic ↔
  MatchMode p = "regex"%string ∧ ∃ v, v ∈ Values p ∧ regexp_Compile v = None.
Proof.
  unfold ProcessAndServe, compilePatterns.
  destruct (String.eqb_spec (MatchMode p) "regex") as [Hm|Hm].
  - destruct (compileAll (Values p)) as [res|] eqn:Hc; simpl.
    + split.
      * by destruct (walk _ _ root ([], log)) as [[e|] [[|g f'] l]].
      * intros [_ Hv%compileAll_None]. congruence.
    + split; [|done]. intros _. split; [done|]. by apply compileAll_None.
  - split.
    + by destruct (walk _ _ root ([], log)) as [[e|] [[|g f'] l]].
    + by intros [? _].
Qed.

(** X14: in the processor that [ProcessAndServe] hands to [Serve] the
    patterns cover the candidates: no line makes a worker panic on
    [ValuesRegex[i]], a worker in the body of the loop always goes on to
    the next line; and when no pattern was there before, candidate [i]
    is matched with the pattern compiled from candidate [i]. *)
Theorem served_patterns_cover (p : Processor) (sd : bool) (root : fsNode)
    (log : list logRecord) (p' : Processor) (f : list string) (log' : list logRecord) :
  ProcessAndServe p sd root log = CallServe p' f log' →
  patternsCover p' ∧
  (∀ os file line w i, (processLine os p' file line w).1 ≠ IndexPanic i) ∧
  (∀ os flag file line rest w m,
     workerStep os p' flag (WMatching file line rest) w = Some m →
     nextState m = WScanning file rest ∧ released m = false) ∧
  (MatchMode p = "regex"%string → ValuesRegex p = [] →
   ∀ i v fieldVal, Values p' !! i = Some v →
     ∃ rx, regexp_Compile v = Some rx ∧
           matchOne p' i v fieldVal = Some (MatchString rx fieldVal)).
Proof.
  intros (_ & Hc & _)%ProcessAndServe_CallServe.
  pose proof (compilePatterns_cover p p' Hc) as Hcover.
  split_and!; [done|..].
  - intros os file line w i. by apply processLine_no_panic.
  - intros os flag file line rest w m. simpl.
    pose proof (processLine_no_panic os p' file line w) as Hnp.
    destruct (processLine os p' file line w) as [[| |tried hit|tried] w'];
      try (by intros [= <-]).
    by destruct (Hnp tried Hcover).
  - intros Hm Hnil i v fieldVal Hv. unfold compilePatterns in Hc.
    rewrite Hm in Hc. simpl in Hc.
    destruct (compileAll (Values p)) as [res|] eqn:Hres; [|done].
    injection Hc as <-. cbn [Values] in Hv.
    destruct (compileAll_lookup _ _ _ _ Hres Hv) as (rx & Hrx & Hi).
    exists rx. split; [done|]. unfold matchOne. cbn [MatchMode ValuesRegex].
    rewrite Hnil. simpl. by rewrite Hi.
Qed.

(** ** Exact and partial mode *)

Lemma matchLoop_some_hit (p : Processor) (fieldVal : string) (vals : list string)
    (i : nat) :
  (∀ j v, ∃ b, matchOne p j v fieldVal = Some b) →
  (∃ k v, vals !! k = Some v ∧ matchOne p (i + k) v fieldVal = Some true) →
  ∃ j v, matchLoop p fieldVal i vals = LoopHit j v.
Proof.
  intros Htotal. revert i. induction vals as [|u vals IH]; intros i (k & v & Hk & Hv).
  - done.
  - simpl. destruct (Htotal i u) as [[|] Hb]; rewrite Hb; [by eexists _, _|].
    apply IH. destruct k as [|k]; simpl in Hk.
    + injection Hk as ->. rewrite Nat.add_0_r in Hv. congruence.
    + exists k, v. split; [done|]. by replace (S i + k)%nat with (i + S k)%nat by lia.
Qed.

(** X15: partial mode selects every line that exact mode selects.  For
    two processors that differ in the mode only, ASCII candidates and a
    line with an ASCII field value: a line written in exact mode is
    written in partial mode as well. *)
Theorem partial_covers_exact (pe pp : Processor) (line v : string) :
  MatchMode pe = "exact"%string → MatchMode pp = "partial"%string →
  Values pp = Values pe → Field pp = Field pe →
  Forall (λ u, isASCII u = true) (Values pe) →
  isASCII (jsoniter_Get_ToString line (Field pe)) = true →
  lineHit pe line = Some v →
  ∃ v', lineHit pp line = Some v'.
Proof.
  intros Hme Hmp Hvals Hfield Hascii Hfv. unfold lineHit.
  rewrite Hvals, Hfield. destruct (_ =? _)%nat; [done|].
  destruct (String.eqb _ _); [done|].
  set (fv := jsoniter_Get_ToString line (Field pe)) in *.
  destruct (matchLoop pe fv 0 (Values pe)) as [j u| |] eqn:Hloop; try done.
  intros _. apply matchLoop_hit_inv in Hloop as (pre & post & Hv & -> & Hhit & _).
  destruct (matchLoop_some_hit pp fv (Values pe) 0) as (j' & v' & ->); [..|by eexists].
  - intros j w. unfold matchOne. rewrite Hmp. simpl. by eexists.
  - exists (length pre), u. split; [by rewrite Hv, list_lookup_middle|].
    unfold matchOne in *. rewrite Hme in Hhit. rewrite Hmp. simpl in *.
    injection Hhit as Hhit. f_equal.
    assert (isASCII u = true) as Hu.
    { rewrite Forall_forall in Hascii. apply Hascii. rewrite Hv.
      apply elem_of_app. right. by left. }
    apply strings_EqualFold_ASCII in Hhit; [|done..].
    rewrite !strings_ToLower_ASCII by done. rewrite Hhit.
    apply strings_Contains_spec. exists EmptyString, EmptyString.
    by rewrite append_empty_r.
Qed.
End Patterns.

(** ** Escapes in a field value *)

Section Escapes.
Context `{GoLibrary}.

(** X16: a field value written with JSON escapes is extracted as the
    text it stands for: quotes, backslashes and the control characters
    with a two-byte escape are decoded, every other byte from 32 on is
    kept; what follows the value on the line is not read. *)
Theorem escaped_field_value (k v rest : string) :
  isPlain k = true → allEscapable v = true →
  jsoniter_Get_ToString
    ("{" +:+ quoted k +:+ ":" +:+ quoted (escapeJSON v) +:+ rest) k = v.
Proof.
  intros Hk Hv. unfold jsoniter_Get_ToString, locatePath.
  change ("{" +:+ ?x) with (String "{" x). rewrite nextToken_nonspace by done.
  cbn [mbind option_bind]. rewrite Ascii.eqb_refl, quoted_app.
  rewrite nextToken_nonspace by done. cbn [mbind option_bind].
  rewrite Ascii.eqb_refl, readStringBody_plain by done.
  change (":" +:+ ?x) with (String ":" x). cbn [String.length].
  rewrite locateObjectField_colon.
  assert (∀ fuel, Skip (S fuel) 1 (quoted (escapeJSON v) +:+ rest) = SkipOk rest)
    as Hskip.
  { intros fuel. rewrite quoted_app. cbn [Skip].
    rewrite nextToken_nonspace by done. rewrite Ascii.eqb_refl.
    by rewrite readStringBody_escape. }
  rewrite Hskip, String.eqb_refl, captured_app.
  unfold readAnyToString, quoted. rewrite nextToken_nonspace by done.
  rewrite Ascii.eqb_refl. by rewrite readStringBody_escape.
Qed.
End Escapes.

(** ** The engine end to end *)

Section EndToEndTheorem.
Context `{GoLibrary}.
Variable os : OS.
Variable p : Processor.

(** X10: the engine end to end, under every schedule.  Let [Serve]
    start on an output directory [w0], which may hold files already and
    accepts every write, and let [name] be an output file that, among
    the files of the argument of [Serve], only the file at index [k] is
    written to for a configured candidate.  Then at any time [name]
    holds what it held at the start and behind it, for a prefix of the
    lines of that file, the lines that matched a candidate of [name],
    each with its newline, in the order of the input.  When [Serve] has
    returned [nil] and the patterns cover the candidates, the prefix is
    the whole file, up to its end or its first line that is too long;
    for a file of well-formed lines these are the lines as they were
    written. *)
Theorem output_is_emitted (f : list string) (w0 : world) (s : state)
    (k : nat) (file name : string) :
  acceptsWrites os →
  f !! k = Some file →
  (∀ i g v, f !! i = Some g → i ≠ k → v ∈ Values p → outFileName p g v ≠ name) →
  reachableFrom os p f w0 s →
  (∃ done rest,
     allLines os file = done ++ rest ∧
     default EmptyString (files (env s) !! name) =
       default EmptyString (files w0 !! name) +:+ emitted p file name done) ∧
  (patternsCover p → serveRet s = Some None →
   default EmptyString (files (env s) !! name) =
     default EmptyString (files w0 !! name) +:+
     emitted p file name (allLines os file) ∧
   ∀ ls, openInput (os_input os file) = inr (joinLines newline ls) →
         Forall (plainLine maxTokenSize) ls →
         default EmptyString (files (env s) !! name) =
           default EmptyString (files w0 !! name) +:+ emitted p file name ls).
Proof.
  intros Hw Hk Hother Hreach.
  destruct (emits_reachable os p f k file name _ Hw Hk Hother w0 s eq_refl Hreach)
    as (Hret & Hadm & done & rest & Hall & Hcont & Htr).
  split; [by exists done, rest|].
  intros Hpc Hr. destruct (Hret _ Hr) as (Hp & Hz & _).
  rewrite Hp, app_nil_r in Hadm.
  assert (∃ ws, workers s !! k = Some ws) as [ws Hws].
  { apply lookup_lt_is_Some. rewrite <- (length_fmap fileOf), Hadm.
    by eapply lookup_lt_Some. }
  pose proof (unfinished_zero s k ws Hz Hws) as Hd. rewrite Hws in Htr.
  destruct ws; try done. simpl in Htr.
  rewrite Htr, app_nil_r in Hall; [|split; [done|by right]].
  split; [by rewrite Hall|].
  intros ls Ho Hls. rewrite Hcont, <- Hall. unfold allLines. rewrite Ho.
  by rewrite linesOf_lines.
Qed.

Lemma processLine_quiet (file line : string) (w : world) :
  acceptsWrites os → logged (processLine os p file line w).2 = logged w.
Proof.
  intros Hok. rewrite processLine_lineHit. destruct (lineHit p line) as [val|]; [|done].
  destruct (Hok (outFileName p file val) (line +:+ newline)) as [Ho Hw].
  by rewrite (write_ok os p file val line w Ho Hw).
Qed.

Lemma workerStep_quiet (ws : workerState) (w : world) (m : workerMove) :
  acceptsWrites os → patternsCover p →
  (∃ data, openInput (os_input os (fileOf ws)) = inr data) →
  quietWorker ws →
  workerStep os p false ws w = Some m →
  logged (nextWorld m) = logged w ∧ quietWorker (nextState m).
Proof.
  intros Hok Hpc [data Ho] Hq.
  destruct ws as [file|file data'|file line data'|file pv|file]; simpl in *.
  - rewrite Ho. by intros [= <-].
  - destruct (bufio_Scan _ _); by intros [= <-].
  - pose proof (processLine_quiet file line w Hok) as Hl.
    pose proof (processLine_no_panic os p file line w) as Hnp.
    destruct (processLine os p file line w) as [[| |tried hit|tried] w'];
      try (by intros [= <-]).
    by destruct (Hnp tried Hpc).
  - subst pv. by intros [= <-].
  - done.
Qed.

Lemma quiet_step (f : list string) (log : list logRecord) (a : action) (s s' : state) :
  acceptsWrites os → patternsCover p →
  (∀ file, file ∈ f → ∃ data, openInput (os_input os file) = inr data) →
  (fileOf <$> workers s) ++ pending s = f →
  quiet log s → step os p a s = Some s' → quiet log s'.
Proof.
  intros Hok Hpc Hopen Hadm Hq Hs. unfold quiet in *.
  step_inv Hs; simpl; try done.
  - intros Hflag. destruct (Hq Hflag) as [Hl Hall]. split; [done|].
    intros ws [Hws|Hws]%elem_of_app; [by apply Hall|].
    by apply list_elem_of_singleton in Hws as ->.
  - intros Hflag. destruct (Hq Hflag) as [Hl Hall]. rewrite Hflag in Hm.
    assert (ws ∈ workers s) as Hin by by eapply list_elem_of_lookup_2.
    destruct (workerStep_quiet ws (env s) m Hok Hpc) as [Hl' Hq']; [|by apply Hall|done|].
    { apply Hopen. rewrite <- Hadm. apply elem_of_app. left.
      apply list_elem_of_fmap. by exists ws. }
    split; [by rewrite Hl'|].
    intros ws' Hin'. apply list_elem_of_lookup_1 in Hin' as [j Hj].
    destruct (decide (j = i)) as [->|Hne].
    + rewrite list_lookup_insert_eq in Hj by by eapply lookup_lt_Some.
      by injection Hj as <-.
    + rewrite list_lookup_insert_ne in Hj by done.
      apply Hall. by eapply list_elem_of_lookup_2.
Qed.

(** X17: the engine is silent when nothing fails: as long as the flag
    is not set, with input files that can all be opened, an output
    directory that accepts every write and patterns that cover the
    candidates, [Serve] and its workers add no record to the log, and no
    worker ends in a panic. *)
Theorem quiet_run (f : list string) (log : list logRecord) (s : state) :
  acceptsWrites os → patternsCover p →
  (∀ file, file ∈ f → ∃ data, openInput (os_input os file) = inr data) →
  reachable os p f log s → inShutdown s = false →
  logged (env s) = log ∧
  ∀ ws file pv, ws ∈ workers s → ws = WExiting file pv → pv = None.
Proof.
  intros Hok Hpc Hopen [acts Hrun] Hflag.
  destruct (run_invariant os p
              (λ t, (fileOf <$> workers t) ++ pending t = f ∧ quiet log t)
              acts (initState f log) s) as [_ Hq]; [| |done|].
  - intros a t t' [Ha Hq] Hs. split; [by rewrite (step_admitted os p _ _ _ Hs)|].
    by eapply quiet_step.
  - split; [done|]. intros _. split; [done|]. intros ws Hws.
    by apply elem_of_nil in Hws.
  - destruct (Hq Hflag) as [Hl Hall]. split; [done|].
    intros ws file pv Hws ->. by apply (Hall _ Hws).
Qed.
End EndToEndTheorem.

(** ** The further properties at the sample run *)

(** X1 after the first file has been admitted and opened. *)
Lemma serve_admits_in_order_witness :
  ∃ s, run demoOS (demoProcessor "exact" ["wallstreetbets"]) [ActAdmit; ActWorker 0]
         (initState twoFiles []) = Some s ∧
       (fileOf <$> workers s) ++ pending s = twoFiles.
Proof.
  assert (∃ s, run demoOS (demoProcessor "exact" ["wallstreetbets"])
                 [ActAdmit; ActWorker 0] (initState twoFiles []) = Some s)
    as [s Hrun] by (eexists; vm_compute; reflexivity).
  exists s. split; [exact Hrun|].
  exact (proj1 (serve_admits_in_order demoOS (demoProcessor "exact" ["wallstreetbets"])
                  twoFiles [] s (ex_intro _ _ Hrun))).
Defined.

(** X2 at the end of the first scenario. *)
Lemma serve_return_is_final_witness :
  ∃ s, run demoOS (demoProcessor "exact" ["wallstreetbets"]) scenario
         (initState [submissions] []) = Some s ∧
       pending s = [] ∧ fileOf <$> workers s = [submissions] ∧
       sem s = 0%Z ∧ wg s = 0%Z.
Proof.
  assert (∃ s, run demoOS (demoProcessor "exact" ["wallstreetbets"]) scenario
                 (initState [submissions] []) = Some s ∧ serveRet s = Some None)
    as (s & Hrun & Hret) by (eexists; split; vm_compute; reflexivity).
  exists s. split; [exact Hrun|].
  destruct (serve_return_is_final demoOS (demoProcessor "exact" ["wallstreetbets"])
              [submissions] [] s None (ex_intro _ _ Hrun) Hret)
    as (Hp & Hf & _ & Hsem & Hwg & _).
  exact (conj Hp (conj Hf (conj Hsem Hwg))).
Defined.

(** X3 for a processor without threads, with a shutdown on the way. *)
Lemma serve_blocks_without_threads_witness :
  ∃ s, run demoOS
         (mkProcessor 0 "in" "out" "subreddit" ["wallstreetbets"] []
            (mkRegexp false (ReStar ReAny) false) "exact")
         [ActShutdown; ActDeadline] (initState twoFiles []) = Some s ∧
       workers s = [] ∧ pending s = twoFiles ∧ serveRet s = None.
Proof.
  assert (∃ s, run demoOS
                 (mkProcessor 0 "in" "out" "subreddit" ["wallstreetbets"] []
                    (mkRegexp false (ReStar ReAny) false) "exact")
                 [ActShutdown; ActDeadline] (initState twoFiles []) = Some s)
    as [s Hrun] by (eexists; vm_compute; reflexivity).
  exists s. split; [exact Hrun|].
  destruct (serve_blocks_without_threads demoOS
              (mkProcessor 0 "in" "out" "subreddit" ["wallstreetbets"] []
                 (mkRegexp false (ReStar ReAny) false) "exact")
              twoFiles [] s ltac:(simpl; lia) (ex_intro _ _ Hrun))
    as (Hw & Hp & _ & Hr).
  exact (conj Hw (conj Hp (Hr ltac:(discriminate)))).
Defined.

(** X4 at the first scenario: nine steps, within the bound for the one
    file. *)
Lemma serve_steps_bounded_witness :
  (countServe scenario ≤
   sum_list ((λ file, 2 * String.length (decoded (os_input demoOS file)) + 4)
               <$> [submissions]) + 1)%nat.
Proof.
  assert (∃ s, run demoOS (demoProcessor "exact" ["wallstreetbets"]) scenario
                 (initState [submissions] []) = Some s) as [s Hrun]
    by (eexists; vm_compute; reflexivity).
  exact (serve_steps_bounded demoOS (demoProcessor "exact" ["wallstreetbets"])
           [submissions] [] scenario s Hrun).
Defined.


(** X6 along the first scenario: what the output file holds after the
    first line is still there at the end. *)
Lemma output_only_grows_witness :
  ∃ s1 s2,
    run demoOS (demoProcessor "exact" ["wallstreetbets"])
      [ActAdmit; ActWorker 0; ActWorker 0; ActWorker 0] (initState [submissions] [])
      = Some s1 ∧
    run demoOS (demoProcessor "exact" ["wallstreetbets"])
      [ActWorker 0; ActWorker 0; ActWorker 0; ActWorker 0; ActServeReturn] s1
      = Some s2 ∧
    files (env s1) !! "out/RS_2020-01_wallstreetbets.ndjson" = Some (line1 +:+ newline) ∧
    ∃ more, files (env s2) !! "out/RS_2020-01_wallstreetbets.ndjson" =
              Some ((line1 +:+ newline) +:+ more).
Proof.
  assert (∃ s1 s2,
            run demoOS (demoProcessor "exact" ["wallstreetbets"])
              [ActAdmit; ActWorker 0; ActWorker 0; ActWorker 0]
              (initState [submissions] []) = Some s1 ∧
            run demoOS (demoProcessor "exact" ["wallstreetbets"])
              [ActWorker 0; ActWorker 0; ActWorker 0; ActWorker 0; ActServeReturn] s1
              = Some s2 ∧
            files (env s1) !! "out/RS_2020-01_wallstreetbets.ndjson" =
              Some (line1 +:+ newline))
    as (s1 & s2 & Hrun1 & Hrun2 & Hold) by (eexists _, _; split; [vm_compute; reflexivity|]; split; vm_compute; reflexivity).
  exists s1, s2. split; [exact Hrun1|]. split; [exact Hrun2|]. split; [exact Hold|].
  exact (proj1 (output_only_grows demoOS (demoProcessor "exact" ["wallstreetbets"])
                  _ s1 s2 Hrun2) _ _ Hold).
Defined.

(** X7 for the steps behind the shutdown of the second scenario: one
    worker, one file still to be admitted. *)
Lemma shutdown_steps_bounded_witness :
  ∃ s, run demoOS (demoProcessor "exact" ["wallstreetbets"])
         [ActAdmit; ActWorker 0; ActWorker 0; ActShutdown] (initState twoFiles [])
         = Some s ∧
       (countServe [ActWorker 0; ActWorker 0; ActWorker 0] ≤
        3 * length (workers s) + 4 * length (pending s) + 1)%nat.
Proof.
  assert (∃ s s',
            run demoOS (demoProcessor "exact" ["wallstreetbets"])
              [ActAdmit; ActWorker 0; ActWorker 0; ActShutdown] (initState twoFiles [])
              = Some s ∧
            inShutdown s = true ∧
            run demoOS (demoProcessor "exact" ["wallstreetbets"])
              [ActWorker 0; ActWorker 0; ActWorker 0] s = Some s')
    as (s & s' & Hrun & Hflag & Hrun') by (eexists _, _; split; [vm_compute; reflexivity|]; split; vm_compute; reflexivity).
  exists s. split; [exact Hrun|].
  exact (shutdown_steps_bounded demoOS (demoProcessor "exact" ["wallstreetbets"])
           _ s s' Hflag Hrun').
Defined.

(** X8 for the sample tree, at the end of the second scenario, once
    [Serve] has returned. *)
Lemma app_serve_return_witness :
  ∃ s, run demoOS (demoProcessor "exact" ["wallstreetbets"])
         (lateShutdown ++ [ActServeReturn])
         (initState [submissions]
            [foundLog submissions]) = Some s ∧
       appServe (demoProcessor "exact" ["wallstreetbets"]) false demoTree [] s =
         AppReturns None ∧
       pending s = [] ∧ fileOf <$> workers s = [submissions].
Proof.
  assert (∃ s, run demoOS (demoProcessor "exact" ["wallstreetbets"])
                 (lateShutdown ++ [ActServeReturn])
                 (initState [submissions]
                    [foundLog submissions])
                 = Some s ∧
               appServe (demoProcessor "exact" ["wallstreetbets"]) false demoTree [] s =
                 AppReturns None)
    as (s & Hrun & Happ) by (eexists; split; vm_compute; reflexivity).
  exists s. split; [exact Hrun|].
  destruct (app_serve_return demoOS (demoProcessor "exact" ["wallstreetbets"])
              false demoTree [] s None Happ) as (Hserve & _).
  destruct (Hserve (demoProcessor "exact" ["wallstreetbets"]) [submissions]
              [foundLog submissions])
    as (_ & Hp & Hf & _); [vm_compute; reflexivity|exact (ex_intro _ _ Hrun)|].
  exact (conj Happ (conj Hp Hf)).
Defined.


(** X10 for both files, one after the other, on an output directory
    that holds a file of an earlier run: the output file of the
    submissions holds the earlier line and behind it the one line that
    matches. *)
Lemma output_is_emitted_witness :
  ∃ s, run demoOS (demoProcessor "exact" ["wallstreetbets"])
         ([ActAdmit] ++ replicate 7 (ActWorker 0) ++ [ActAdmit] ++
          replicate 5 (ActWorker 1) ++ [ActServeReturn])
         (startState twoFiles earlierWorld) = Some s ∧
       default EmptyString (files (env s) !! "out/RS_2020-01_wallstreetbets.ndjson") =
       line2 +:+ newline +:+ line1 +:+ newline.
Proof.
  assert (∀ i g v, twoFiles !! i = Some g → i ≠ 0%nat →
            v ∈ Values (demoProcessor "exact" ["wallstreetbets"]) →
            outFileName (demoProcessor "exact" ["wallstreetbets"]) g v ≠
            "out/RS_2020-01_wallstreetbets.ndjson"%string) as Hother.
  { intros [|[|i]] g v Hg Hi Hv; [done| |done]. injection Hg as <-.
    apply list_elem_of_singleton in Hv as ->.
    intros Heq. vm_compute in Heq. discriminate Heq. }
  assert (patternsCover (demoProcessor "exact" ["wallstreetbets"])) as Hpc.
  { intros Hm. discriminate Hm. }
  assert (default EmptyString
            (files earlierWorld !! "out/RS_2020-01_wallstreetbets.ndjson") +:+
          emitted (demoProcessor "exact" ["wallstreetbets"]) submissions
            "out/RS_2020-01_wallstreetbets.ndjson" (allLines demoOS submissions) =
          line2 +:+ newline +:+ line1 +:+ newline) as Hemit by (vm_compute; reflexivity).
  assert (∃ s, run demoOS (demoProcessor "exact" ["wallstreetbets"])
                 ([ActAdmit] ++ replicate 7 (ActWorker 0) ++ [ActAdmit] ++
                  replicate 5 (ActWorker 1) ++ [ActServeReturn])
                 (startState twoFiles earlierWorld) = Some s ∧ serveRet s = Some None)
    as (s & Hrun & Hret) by (eexists; split; vm_compute; reflexivity).
  exists s. split; [exact Hrun|].
  destruct (output_is_emitted demoOS (demoProcessor "exact" ["wallstreetbets"])
              twoFiles earlierWorld s 0 submissions "out/RS_2020-01_wallstreetbets.ndjson"
              (λ _ _, conj eq_refl eq_refl) eq_refl Hother (ex_intro _ _ Hrun))
    as [_ Hfull].
  destruct (Hfull Hpc Hret) as [Hall _]. exact (eq_trans Hall Hemit).
Defined.

(** X11 for the two lines of the first file. *)
Lemma scan_round_trip_witness :
  linesOf (joinLines newline [line1; line2]) = [line1; line2] ∧
  linesOf (joinLines crlf [line1; line2]) = [line1; line2].
Proof.
  assert (Forall (plainLine maxTokenSize) [line1; line2]) as Hls.
  { constructor; [vm_compute; by split_and!|].
    constructor; [vm_compute; by split_and!|]. constructor. }
  destruct (scan_round_trip [line1; line2] Hls) as (Hlf & Hcrlf & _).
  exact (conj Hlf Hcrlf).
Defined.

(** X12 for the first file and one candidate. *)
Lemma output_file_name_witness :
  outFileName (demoProcessor "exact" ["wallstreetbets"]) submissions "wallstreetbets" =
  "out/RS_2020-01_wallstreetbets.ndjson"%string.
Proof.
  exact (output_file_name (demoProcessor "exact" ["wallstreetbets"])
           "in" "RS_2020-01" "zst" "wallstreetbets" eq_refl eq_refl eq_refl).
Defined.

(** X14 in regex mode on the sample tree. *)
Lemma served_patterns_cover_witness :
  ∃ p' f log',
    ProcessAndServe (demoProcessor "regex" ["wall"; "pics"]) false demoTree [] =
      CallServe p' f log' ∧
    patternsCover p' ∧
    ∃ rx, regexp_Compile "pics"%string = Some rx ∧
          matchOne p' 1 "pics" "pics" = Some (MatchString rx "pics").
Proof.
  assert (∃ p' f log',
            ProcessAndServe (demoProcessor "regex" ["wall"; "pics"]) false demoTree [] =
              CallServe p' f log' ∧ Values p' !! 1%nat = Some "pics"%string)
    as (p' & f & log' & Hps & Hv) by (eexists _, _, _; split; vm_compute; reflexivity).
  exists p', f, log'. split; [exact Hps|].
  destruct (served_patterns_cover _ false demoTree [] p' f log' Hps)
    as (Hc & _ & _ & Hrx).
  exact (conj Hc (Hrx eq_refl eq_refl 1%nat "pics"%string "pics"%string Hv)).
Defined.

(** X15 for the first line of the first file. *)
Lemma partial_covers_exact_witness :
  ∃ v', lineHit (demoProcessor "partial" ["pics"; "wallstreetbets"]) line1 = Some v'.
Proof.
  assert (Forall (λ u, isASCII u = true) ["pics"%string; "wallstreetbets"%string])
    as Hascii by (constructor; [done|]; constructor; [done|]; constructor).
  assert (isASCII (jsoniter_Get_ToString line1 "subreddit") = true) as Hfv
    by (vm_compute; reflexivity).
  assert (lineHit (demoProcessor "exact" ["pics"; "wallstreetbets"]) line1 =
          Some "wallstreetbets"%string) as Hhit by (vm_compute; reflexivity).
  exact (partial_covers_exact (demoProcessor "exact" ["pics"; "wallstreetbets"])
           (demoProcessor "partial" ["pics"; "wallstreetbets"]) line1 "wallstreetbets"
           eq_refl eq_refl eq_refl eq_refl Hascii Hfv Hhit).
Defined.

(** X16 for a title that holds a quote, a backslash and a newline. *)
Lemma escaped_field_value_witness :
  jsoniter_Get_ToString
    ("{" +:+ quoted "title" +:+ ":" +:+
     quoted (escapeJSON ("a" +:+ String dquote ("\" +:+ newline))) +:+ ",")
    "title" =
  "a" +:+ String dquote ("\" +:+ newline).
Proof.
  exact (escaped_field_value "title" ("a" +:+ String dquote ("\" +:+ newline)) ","
           eq_refl eq_refl).
Defined.

(** X17 in the middle of the first file. *)
Lemma quiet_run_witness :
  ∃ s, run demoOS (demoProcessor "exact" ["wallstreetbets"])
         [ActAdmit; ActWorker 0; ActWorker 0; ActWorker 0] (initState twoFiles [])
         = Some s ∧
       logged (env s) = [].
Proof.
  assert (∀ file, file ∈ twoFiles →
            ∃ data, openInput (os_input demoOS file) = inr data) as Hopen.
  { intros file [->|Hf]%elem_of_cons; [by eexists|].
    apply list_elem_of_singleton in Hf as ->. by eexists. }
  assert (patternsCover (demoProcessor "exact" ["wallstreetbets"])) as Hpc.
  { intros Hm. discriminate Hm. }
  assert (∃ s, run demoOS (demoProcessor "exact" ["wallstreetbets"])
                 [ActAdmit; ActWorker 0; ActWorker 0; ActWorker 0]
                 (initState twoFiles []) = Some s ∧ inShutdown s = false)
    as (s & Hrun & Hflag) by (eexists; split; vm_compute; reflexivity).
  exists s. split; [exact Hrun|].
  exact (proj1 (quiet_run demoOS (demoProcessor "exact" ["wallstreetbets"]) twoFiles []
                  s (λ _ _, conj eq_refl eq_refl) Hpc Hopen (ex_intro _ _ Hrun) Hflag)).
Defined.

(** ** A match mode that is none of the three *)

Section UnknownMode.
Context `{GoLibrary}.
Variable os : OS.
Variable p : Processor.
Hypothesis Hregex : MatchMode p ≠ "regex"%string.
Hypothesis Hpartial : MatchMode p ≠ "partial"%string.
Hypothesis Hexact : MatchMode p ≠ "exact"%string.

Lemma matchOne_unknown (i : nat) (val fieldVal : string) :
  matchOne p i val fieldVal = Some false.
Proof.
  unfold matchOne.
  destruct (String.eqb_spec (MatchMode p) "regex"); [done|].
  destruct (String.eqb_spec (MatchMode p) "partial"); [done|].
  by destruct (String.eqb_spec (MatchMode p) "exact").
Qed.

Lemma matchLoop_unknown (fieldVal : string) (vals : list string) (i : nat) :
  matchLoop p fieldVal i vals = LoopNone (i + length vals).
Proof.
  revert i. induction vals as [|v vals IH]; intros i; simpl.
  - by rewrite Nat.add_0_r.
  - rewrite matchOne_unknown, IH. f_equal. lia.
Qed.

Lemma lineHit_unknown (line : string) : lineHit p line = None.
Proof.
  unfold lineHit. destruct (_ =? _)%nat; [done|]. destruct (String.eqb _ _); [done|].
  by rewrite matchLoop_unknown.
Qed.

Lemma step_files_unknown (a : action) (s s' : state) :
  step os p a s = Some s' → files (env s') = files (env s).
Proof.
  intros Hs. destruct (decide (files (env s') = files (env s))) as [|Hne]; [done|].
  destruct (step_files os p _ _ _ Hs Hne) as (i & -> & Hmatching).
  apply step_worker_inv in Hs as (ws & m & Hi & Hm & ->). simpl in *.
  unfold isMatching in Hmatching. rewrite Hi in Hmatching.
  destruct ws as [| |file line rest| |]; try done. simpl in Hm.
  pose proof (processLine_lineHit os p file line (env s)) as Hpl.
  rewrite lineHit_unknown in Hpl.
  destruct (processLine os p file line (env s)) as [[] w']; simpl in Hpl; subst w';
    injection Hm as <-; by destruct Hne.
Qed.
End UnknownMode.

Section UnknownModeTheorem.
Context `{GoLibrary}.
Variable os : OS.
Variable p : Processor.

(** X18: a match mode that is none of [regex], [partial] and [exact]
    is no error and matches nothing: every candidate is tried on every
    line that has the field, none is hit, and no run writes to the
    output directory. *)
Theorem unknown_mode_writes_nothing (acts : list action) (s s' : state) :
  MatchMode p ≠ "regex"%string → MatchMode p ≠ "partial"%string →
  MatchMode p ≠ "exact"%string →
  run os p acts s = Some s' →
  files (env s') = files (env s) ∧
  ∀ file line w,
    line ≠ EmptyString → jsoniter_Get_ToString line (Field p) ≠ EmptyString →
    processLine os p file line w = (Evaluated (length (Values p)) None, w).
Proof.
  intros Hr Hp He Hrun. split.
  - apply (run_invariant os p (λ t, files (env t) = files (env s)) acts s s');
      [|done|done].
    intros a t t' Ht Hs. by rewrite (step_files_unknown os p Hr Hp He _ _ _ Hs).
  - intros file line w Hline Hfield. unfold processLine.
    destruct line as [|c line]; [done|]. simpl String.length. simpl Nat.eqb.
    destruct (String.eqb_spec (jsoniter_Get_ToString (String c line) (Field p))
                EmptyString) as [Heq|_]; [done|].
    by rewrite (matchLoop_unknown p Hr Hp He).
Qed.
End UnknownModeTheorem.

(** X18 for the empty match mode at the first scenario. *)
Lemma unknown_mode_writes_nothing_witness :
  ∃ s, run demoOS (demoProcessor EmptyString ["wallstreetbets"]) scenario
         (initState [submissions] []) = Some s ∧
       files (env s) = ∅.
Proof.
  assert (∃ s, run demoOS (demoProcessor EmptyString ["wallstreetbets"]) scenario
                 (initState [submissions] []) = Some s)
    as [s Hrun] by (eexists; vm_compute; reflexivity).
  exists s. split; [exact Hrun|].
  exact (proj1 (unknown_mode_writes_nothing demoOS
                  (demoProcessor EmptyString ["wallstreetbets"]) scenario _ s
                  ltac:(discriminate) ltac:(discriminate) ltac:(discriminate) Hrun)).
Defined.
